(** * FallingSandAI: the behaviour-injection pipeline of the custom particles

    A shallow embedding of [custom-particles.js] (sanitizer, rewriter,
    execution wrapper, registry, element menu), of the description handling
    of [openai.js] (key, categories, text of the response, name correction,
    uniqueness validator, colour adjuster) and of the handlers of
    [llm-ui.js] (submission, test button, key dialog, list of buttons), with
    the properties the specification states about them and further
    properties of the code.

    Conventions.
    - A JavaScript string is its sequence of UTF-16 code units: [str] is
      [list N], a literal of the source is written [lit "..."].
    - [toUpperCase] and [toLowerCase] map the ASCII letters only; the case
      mapping of other letters is not part of this model.
    - What the JavaScript runtime or the simulation engine provides and the
      repository does not define (the [Function] constructor, a [RegExp]
      built from a name that carries syntax characters, [Math.random], the
      engine's [__inGameColor], its movement primitives and element
      constants) is a field of the class [Host]; the properties hold for
      every host. Where a property needs more of a host than these files
      show, it says so in a hypothesis: C2 takes the ids of the engine to
      come from a counter, as the specification has it, and C4 takes the
      runtime to make of the template, around a list of statements, the
      [try] and [catch] the template spells out.
    - An object used as a map ([customElementColors], [menuNames], ...) is
      a [gmap] of its own properties. The names that reach the registry are
      in upper case, so none of them is a property inherited from
      [Object.prototype]. *)

From Stdlib Require Import ZArith NArith List String Ascii Bool Lia.
From Stdlib Require Import Floats DecimalString DecimalPos.
From stdpp Require Import gmap list.
Import ListNotations.

Set Warnings "-inexact-float".

(** ** Text *)

Module Text.

Definition str := list N.

Definition lit (s : string) : str := map N_of_ascii (list_ascii_of_string s).

Definition inRange (lo hi c : N) : bool := ((lo <=? c) && (c <=? hi))%N.

(** [\s] of a JavaScript regular expression, which is also the set
    [String.prototype.trim] strips: WhiteSpace and LineTerminator. *)
Definition isSpace (c : N) : bool :=
  inRange 9 13 c || (c =? 32)%N || (c =? 160)%N || (c =? 5760)%N
  || inRange 8192 8202 c || (c =? 8232)%N || (c =? 8233)%N || (c =? 8239)%N
  || (c =? 8287)%N || (c =? 12288)%N || (c =? 65279)%N.

Definition isUpper (c : N) : bool := inRange 65 90 c.
Definition isLower (c : N) : bool := inRange 97 122 c.
Definition isDigit (c : N) : bool := inRange 48 57 c.

(** [\w]: [[A-Za-z0-9_]]. *)
Definition isWord (c : N) : bool :=
  isUpper c || isLower c || isDigit c || (c =? 95)%N.

(** [[A-Z_]] *)
Definition isUpperOrUnderscore (c : N) : bool := isUpper c || (c =? 95)%N.

(** [[+-]] *)
Definition isPlusMinus (c : N) : bool := (c =? 43)%N || (c =? 45)%N.

Definition upperChar (c : N) : N := if isLower c then (c - 32)%N else c.
Definition lowerChar (c : N) : N := if isUpper c then (c + 32)%N else c.

Definition toUpperCase (s : str) : str := map upperChar s.
Definition toLowerCase (s : str) : str := map lowerChar s.

Fixpoint eqStr (a b : str) : bool :=
  match a, b with
  | [], [] => true
  | x :: a', y :: b' => (x =? y)%N && eqStr a' b'
  | _, _ => false
  end.

(** [s.startsWith(p)] *)
Fixpoint startsWith (p s : str) : bool :=
  match p, s with
  | [], _ => true
  | x :: p', y :: s' => (x =? y)%N && startsWith p' s'
  | _ :: _, [] => false
  end.

(** [s.includes(p)] *)
Fixpoint includes (p s : str) : bool :=
  startsWith p s ||
  match s with
  | [] => false
  | _ :: s' => includes p s'
  end.

(** [s.endsWith(p)] *)
Definition endsWith (p s : str) : bool := startsWith (rev p) (rev s).

(** [s.indexOf(p)], [None] for [-1]. *)
Fixpoint indexOf (p s : str) : option nat :=
  if startsWith p s then Some 0%nat
  else match s with
       | [] => None
       | _ :: s' => option_map S (indexOf p s')
       end.

Fixpoint dropSpace (s : str) : str :=
  match s with
  | c :: s' => if isSpace c then dropSpace s' else s
  | [] => []
  end.

(** [s.trim()] *)
Definition trim (s : str) : str := rev (dropSpace (rev (dropSpace s))).

(** [s.substring(a, b)] for [a <= b]. *)
Definition substring (a b : nat) (s : str) : str := firstn (b - a) (skipn a s).

(** [s.replace(p, r)] with a string pattern: the first occurrence only. *)
Fixpoint replaceFirst (p r s : str) : str :=
  if startsWith p s then r ++ skipn (length p) s
  else match s with
       | [] => []
       | c :: s' => c :: replaceFirst p r s'
       end.

(** [n.toString()] of an integer-valued number (decimal digits, a leading
    minus sign for a negative one). *)
Definition toString (z : Z) : str :=
  lit (NilEmpty.string_of_int (Z.to_int z)).

End Text.

Export Text.

(** ** Regular expressions

    The patterns of the source are sequences of single characters, character
    classes, and greedy [*] and [+] over a class. [matchAt] is the backtracking
    matcher anchored at the head of its input: it returns the piece of text
    each atom consumed, so that the whole match is their concatenation and a
    capture group is the piece of its atom. *)

Module Regex.

Inductive atom : Type :=
| Lit (c : N)
| Cls (f : N -> bool)
| Star (f : N -> bool)
| Plus (f : N -> bool).

Definition pattern := list atom.

Definition lits (s : string) : pattern := map Lit (lit s).

Definition consPiece (c : N) (r : option (list str)) : option (list str) :=
  match r with
  | Some (p :: ps) => Some ((c :: p) :: ps)
  | _ => None
  end.

Definition emptyPiece (r : option (list str)) : option (list str) :=
  option_map (cons []) r.

(** Greedy repetition: take one more character if the rest then matches,
    give it back otherwise. *)
Fixpoint star (f : N -> bool) (k : str -> option (list str)) (s : str)
  : option (list str) :=
  match s with
  | c :: s' =>
      if f c then
        match consPiece c (star f k s') with
        | Some r => Some r
        | None => emptyPiece (k s)
        end
      else emptyPiece (k s)
  | [] => emptyPiece (k s)
  end.

Fixpoint matchAt (pat : pattern) (s : str) : option (list str) :=
  match pat with
  | [] => Some []
  | Lit c :: pat' =>
      match s with
      | x :: s' => if (x =? c)%N then option_map (cons [x]) (matchAt pat' s') else None
      | [] => None
      end
  | Cls f :: pat' =>
      match s with
      | x :: s' => if f x then option_map (cons [x]) (matchAt pat' s') else None
      | [] => None
      end
  | Star f :: pat' => star f (matchAt pat') s
  | Plus f :: pat' =>
      match s with
      | x :: s' => if f x then consPiece x (star f (matchAt pat') s') else None
      | [] => None
      end
  end.

(** A matcher as [replace] uses it: the character before the position (for
    a word-boundary assertion) and the text from the position on. *)
Definition matcher := option N -> str -> option (list str).

Definition ofPattern (pat : pattern) : matcher := fun _ s => matchAt pat s.

(** [\bNAME\b] for a literal [NAME]. *)
Definition boundary (a b : option N) : bool :=
  xorb (from_option isWord false a) (from_option isWord false b).

Definition matchWord (name : str) : matcher := fun prev s =>
  if startsWith name s
     && boundary prev (head (name ++ skipn (length name) s))
     && boundary (last (option_list prev ++ name)) (head (skipn (length name) s))
  then Some [name] else None.

(** [s.replace(/re/g, f)]: scan from the left; at a match emit [rho] of its
    pieces and resume behind it (one character further after an empty
    match); copy a character where nothing matches. [skip] counts the
    characters of the current match still to pass. *)
Fixpoint replaceFrom (m : matcher) (rho : list str -> str)
         (skip : nat) (prev : option N) (s : str) : str :=
  match s with
  | [] =>
      match skip, m prev [] with
      | O, Some ps => rho ps
      | _, _ => []
      end
  | c :: s' =>
      match skip with
      | S k => replaceFrom m rho k (Some c) s'
      | O =>
          match m prev s with
          | Some ps =>
              rho ps ++
              match length (concat ps) with
              | O => c :: replaceFrom m rho 0 (Some c) s'
              | S k => replaceFrom m rho k (Some c) s'
              end
          | None => c :: replaceFrom m rho 0 (Some c) s'
          end
      end
  end.

Definition replaceWith (m : matcher) (rho : list str -> str) (s : str) : str :=
  replaceFrom m rho 0 None s.

(** [s.replace(/re/g, 'text')] *)
Definition replaceAll (pat : pattern) (r : str) (s : str) : str :=
  replaceWith (ofPattern pat) (fun _ => r) s.

(** Some position of [s] starts a match of [pat]. *)
Fixpoint occurs (pat : pattern) (s : str) : bool :=
  match matchAt pat s with
  | Some _ => true
  | None => match s with
            | [] => false
            | _ :: s' => occurs pat s'
            end
  end.

End Regex.

Export Regex.

(** ** The sanitizer ([sanitizeActionCode]) *)

Module Sanitizer.

(** [/function\s+\w+\s*\(/] *)
Definition reFunction : pattern :=
  lits "function" ++ [Plus isSpace; Plus isWord; Star isSpace; Lit 40].
(** [/while\s*\(/] *)
Definition reWhile : pattern := lits "while" ++ [Star isSpace; Lit 40].
(** [/for\s*\(/] *)
Definition reFor : pattern := lits "for" ++ [Star isSpace; Lit 40].
(** [/eval\s*\(/] *)
Definition reEval : pattern := lits "eval" ++ [Star isSpace; Lit 40].
(** [/new\s+Function/] *)
Definition reNewFunction : pattern := lits "new" ++ [Plus isSpace] ++ lits "Function".
(** [/setTimeout/], [/setInterval/] *)
Definition reSetTimeout : pattern := lits "setTimeout".
Definition reSetInterval : pattern := lits "setInterval".
(** [/window\./], [/document\./], [/globalThis\./] *)
Definition reWindow : pattern := lits "window.".
Definition reDocument : pattern := lits "document.".
Definition reGlobalThis : pattern := lits "globalThis.".

Definition sanitizeActionCode (code : str) : str :=
  let code := replaceAll reFunction [] code in
  let code := replaceAll reWhile (lit "if(") code in
  let code := replaceAll reFor (lit "if(") code in
  let code := replaceAll reEval (lit "console.log(") code in
  let code := replaceAll reNewFunction (lit "console.log") code in
  let code := replaceAll reSetTimeout (lit "console.log") code in
  let code := replaceAll reSetInterval (lit "console.log") code in
  let code := replaceAll reWindow (lit "void_") code in
  let code := replaceAll reDocument (lit "void_") code in
  let code := replaceAll reGlobalThis (lit "void_") code in
  code.

End Sanitizer.

Export Sanitizer.

(** ** The simulation engine and the JavaScript runtime, as the pipeline
    uses them *)

Module Engine.

(** How a call ends: it returns, it throws, or it does not come back (the
    world paired with [NoReturn] is the last one seen; no caller reads it). *)
Inductive completion : Type :=
| Normal
| Throw (message : str)
| NoReturn.

(** What [util.js], [elements.js], [particles.js] and [game.js] of the game
    provide, and the runtime facilities whose behaviour depends on an
    arbitrary program text or on a state the page does not show. None of
    these functions is defined in the files of the pipeline: each is taken
    with the most general behaviour its callers allow. *)
Class Host : Type := {
  (** the engine's state besides the cell buffer, and the state of the
      runtime's random generator *)
  EngineState : Type;
  (** what [__inGameColor] keeps between its calls *)
  Palette : Type;
  (** [__inGameColor(r, g, b)]: the id of a new element and the state it
      leaves *)
  inGameColor : Z -> Z -> Z -> Palette -> Z * Palette;
  FIRE : Z;
  SAND : Z;
  (** [Math.random()] *)
  Math_random : EngineState -> float * EngineState;
  (** [doGravity(x, y, i, allowDiagonal, chance)] and its siblings, each on
      the cell buffer and the engine's state *)
  doGravity : Z -> Z -> Z -> bool -> float ->
              list Z * EngineState -> list Z * EngineState * completion;
  doDensityLiquid : Z -> Z -> Z -> Z -> float -> float ->
                    list Z * EngineState -> list Z * EngineState * completion;
  doRise : Z -> Z -> Z -> float -> float ->
           list Z * EngineState -> list Z * EngineState * completion;
  (** [new Function('x', 'y', 'i', body)]: [None] when the constructor
      raises a [SyntaxError]; the function it builds runs on the cell buffer
      and the engine's state. *)
  compileFunction :
    str -> option (Z -> Z -> Z -> list Z * EngineState ->
                   list Z * EngineState * completion);
  (** [code.replace(new RegExp('\\b' + NAME + '\\b', 'g'), text)] for a
      [NAME] the model does not read as a literal (it is empty, or has a
      syntax character of the pattern grammar or a character outside ASCII):
      [None] when the constructor raises. *)
  dynamicNameReplace : str -> str -> str -> option str
}.

Section WithHost.
Context `{Host}.

(** [gameImagedata32] (a [Uint32Array]) and the rest of the engine. *)
Definition World : Type := list Z * EngineState.

Definition Action : Type := Z -> Z -> Z -> World -> World * completion.

(** [gameImagedata32[i] = v]: a write outside the array is dropped, the
    value is stored modulo [2^32]. *)
Definition writeCell (i v : Z) (w : World) : World :=
  if (0 <=? i)%Z then (<[Z.to_nat i := (v mod 2 ^ 32)%Z]> (fst w), snd w) else w.

End WithHost.

End Engine.

Export Engine.

(** ** The rewriter ([preprocessActionCode], [enhanceCodeBasedOnName],
    [isKnownElement]) *)

Module Rewriter.

Definition hairTemplate (particleName : str) (elementColor : Z) : str :=
  lit "
      // "
  ++ particleName
  ++ lit " behavior - strands that hang and can be affected by elements
      if (adjacent(x, i, FIRE)) {
        // Burns quickly when exposed to fire
        if (random() < 0.8) {
          gameImagedata32[i] = FIRE;
        }
      } else if (adjacent(x, i, WATER)) {
        // Gets wet and clumps together
        doGravity(x, y, i, false, 0.95);
      } else {
        // Normal behavior - strands hang and can move slightly
        if (below(y, i, BACKGROUND) && random() < 0.2) {
          // Strands can drift slightly to sides
          if (random() < 0.5 && gameImagedata32[i+1] === BACKGROUND) {
            gameImagedata32[i] = BACKGROUND;
            gameImagedata32[i+1] = "
  ++ toString elementColor
  ++ lit ";
          } else if (gameImagedata32[i-1] === BACKGROUND) {
            gameImagedata32[i] = BACKGROUND;
            gameImagedata32[i-1] = "
  ++ toString elementColor
  ++ lit ";
          }
        } else {
          // Falls but can catch on things
          doGravity(x, y, i, true, 0.7);
        }
      }
    ".

Definition gasTemplate (particleName : str) : str :=
  lit "
      // "
  ++ particleName
  ++ lit " - gaseous substance that rises and dissipates
      doRise(x, y, i, 0.9, 0.7);
      
      // Gradually disappears as it rises
      if (random() < 0.03) {
        gameImagedata32[i] = BACKGROUND;
      }
      
      // Affected by heat/fire
      if (adjacent(x, i, FIRE) && random() < 0.5) {
        // More likely to rise faster near heat
        doRise(x, y, i, 1.0, 0.9);
      }
    ".

Definition liquidTemplate (particleName name : str) (floatsOnWater : bool) : str :=
  lit "
      // "
  ++ particleName
  ++ lit " - liquid with unique properties
      // Liquid dynamics - flows and spreads
      doDensityLiquid(x, y, i, "
  ++ (if floatsOnWater then lit "WATER" else lit "SAND")
  ++ lit ", 0.9, 0.7);
      
      // Interaction with fire
      if (adjacent(x, i, FIRE) && random() < 0.1) {
        // Some liquids are flammable, some extinguish fire
        "
  ++ (if includes (lit "OIL") name then lit "gameImagedata32[i] = FIRE;" else lit "gameImagedata32[i] = STEAM;")
  ++ lit "
      }
    ".

Definition enhanceCodeBasedOnName (code particleName : str) (elementColor : Z) : str :=
  let name := toUpperCase particleName in
  if includes (lit "HAIR") name || includes (lit "FUR") name
     || includes (lit "STRING") name then
    hairTemplate particleName elementColor
  else if includes (lit "GAS") name || includes (lit "SMOKE") name
          || includes (lit "VAPOR") name || includes (lit "STEAM") name then
    gasTemplate particleName
  else if includes (lit "WATER") name || includes (lit "LIQUID") name
          || includes (lit "OIL") name || includes (lit "JUICE") name
          || includes (lit "BLOOD") name then
    let floatsOnWater := includes (lit "OIL") name in
    liquidTemplate particleName name floatsOnWater
  else code.

Definition knownElements : list str :=
  map lit
    ["BACKGROUND"; "WALL"; "SAND"; "WATER"; "PLANT"; "FIRE"; "SALT"; "OIL";
     "SPOUT"; "WELL"; "TORCH"; "GUNPOWDER"; "WAX"; "ICE"; "LAVA"; "CRYO";
     "NITRO"; "STEAM"; "C4"; "FUSE"; "SALT_WATER"; "FALLING_WAX"]%string.

Definition isKnownElement (elementName : str) : bool :=
  existsb (eqStr elementName) knownElements.

(** [/bordering\s*\(\s*x\s*,\s*y\s*,\s*i\s*,\s*FIRE\s*\)/] *)
Definition reBordering : pattern :=
  lits "bordering"
  ++ [Star isSpace; Lit 40; Star isSpace; Lit 120; Star isSpace; Lit 44;
      Star isSpace; Lit 121; Star isSpace; Lit 44; Star isSpace; Lit 105;
      Star isSpace; Lit 44; Star isSpace]
  ++ lits "FIRE" ++ [Star isSpace; Lit 41].

(** [/gameImagedata32\[i\s*([+-])\s*(\w+)\]\s*=\s*([A-Z_]+)\s*;/]; the
    third group is the piece of atom 25. *)
Definition arrayAccessPattern : pattern :=
  lits "gameImagedata32[i"
  ++ [Star isSpace; Cls isPlusMinus; Star isSpace; Plus isWord; Lit 93;
      Star isSpace; Lit 61; Star isSpace; Plus isUpperOrUnderscore;
      Star isSpace; Lit 59].

Definition arrayAccessReplacer (elementColor : Z) (pieces : list str) : str :=
  let match_ := concat pieces in
  let elementName := nth 25 pieces [] in
  if eqStr elementName (lit "FIRE") || eqStr elementName (lit "BACKGROUND") then
    match_
  else if eqStr elementName (lit "THIS_ELEMENT_COLOR") then
    replaceFirst (lit "THIS_ELEMENT_COLOR") (toString elementColor) match_
  else if isKnownElement elementName then match_
  else replaceFirst elementName (lit "FIRE") match_.

Definition isExplosiveName (particleName : str) : bool :=
  includes (lit "TNT") (toUpperCase particleName)
  || includes (lit "BOMB") (toUpperCase particleName)
  || includes (lit "EXPLO") (toUpperCase particleName).

Definition explosionTemplate (code : str) : str :=
  lit "
        // Check for contact with fire for explosion
        if (adjacent(x, i, FIRE) || below(y, i, FIRE) || above(y, i, FIRE)) {
          // Create explosion
          gameImagedata32[i] = FIRE;
          // Set surrounding pixels to FIRE
          if (i+1 < gameImagedata32.length) gameImagedata32[i+1] = FIRE;
          if (i-1 >= 0) gameImagedata32[i-1] = FIRE;
          if (i+width < gameImagedata32.length) gameImagedata32[i+width] = FIRE;
          if (i-width >= 0) gameImagedata32[i-width] = FIRE;
        } else {
          // Default behavior
          "
  ++ code
  ++ lit "
        }
      ".

(** [SyntaxCharacter] of the pattern grammar: [^ $ \ . * + ? ( ) [ ] { } |]. *)
Definition isSyntaxCharacter (c : N) : bool :=
  existsb (N.eqb c)
    [94; 36; 92; 46; 42; 43; 63; 40; 41; 91; 93; 123; 125; 124]%N.

(** The pattern text of [new RegExp('\\b' + NAME + '\\b', 'g')] is the
    literal [NAME] between two word boundaries when [NAME] is not empty and
    has no syntax character. The model reads the pattern itself for such a
    name when it is ASCII, where [toUpperCase] is exact. *)
Definition literalName (s : str) : bool :=
  negb (eqStr s [])
  && forallb (fun c => (c <? 128)%N && negb (isSyntaxCharacter c)) s.

Section WithHost.
Context `{Host}.

Definition replaceParticleName (particleName code : str) : option str :=
  let NAME := toUpperCase particleName in
  if literalName NAME then
    Some (replaceWith (matchWord NAME) (fun _ => lit "THIS_ELEMENT_COLOR") code)
  else dynamicNameReplace NAME code (lit "THIS_ELEMENT_COLOR").

(** [None]: the [RegExp] constructor raised. *)
Definition preprocessActionCode (code particleName : str) (elementColor : Z)
  : option str :=
  let code :=
    if (length (trim code) <? 50)%nat
       || eqStr (trim code) (lit "doGravity(x, y, i, true, 0.9);") then
      let enhancedCode := enhanceCodeBasedOnName code particleName elementColor in
      if negb (eqStr enhancedCode code) then enhancedCode else code
    else code in
  match replaceParticleName particleName code with
  | None => None
  | Some code =>
      let code :=
        replaceAll reBordering
          (lit "adjacent(x, i, FIRE) || below(y, i, FIRE) || above(y, i, FIRE)")
          code in
      let code :=
        replaceWith (ofPattern arrayAccessPattern)
          (arrayAccessReplacer elementColor) code in
      let code :=
        replaceAll (lits "THIS_ELEMENT_COLOR") (toString elementColor) code in
      let code :=
        if isExplosiveName particleName then
          if negb (includes (lit "FIRE") code) && negb (includes (lit "fire") code)
          then explosionTemplate code
          else code
        else code in
      Some code
  end.

End WithHost.

End Rewriter.

Export Rewriter.

(** ** The execution wrapper ([createSafeParticleAction]) *)

Module Wrapper.

Definition isLiquidName (particleName : str) : bool :=
  includes (lit "WATER") (toUpperCase particleName)
  || includes (lit "LIQUID") (toUpperCase particleName).

Definition isGasName (particleName : str) : bool :=
  includes (lit "GAS") (toUpperCase particleName)
  || includes (lit "SMOKE") (toUpperCase particleName).

Section WithHost.
Context `{Host}.

(** The [catch] branch: the write of an explosive cannot fail, the
    primitives are the engine's. *)
Definition fallback (particleName : str) (x y i : Z) (w : World)
  : World * completion :=
  if isExplosiveName particleName then (writeCell i FIRE w, Normal)
  else if isLiquidName particleName then doDensityLiquid x y i SAND 0.9 0.6 w
  else if isGasName particleName then doRise x y i 0.9 0.6 w
  else doGravity x y i true 0.8 w.

(** [performance.now()] and the [console] are the browser's and return; the
    time they measure and the lines they print have no effect on the world
    and are left out. What the [catch] branch throws is not caught. *)
Definition createSafeParticleAction (actionFn : Action) (particleName : str)
  : Action :=
  fun x y i w =>
    match actionFn x y i w with
    | (w', Normal) => (w', Normal)
    | (w', Throw _) => fallback particleName x y i w'
    | (w', NoReturn) => (w', NoReturn)
    end.

End WithHost.

End Wrapper.

Export Wrapper.

(** ** Particle descriptions *)

Module Description.

(** A field of the parsed response: absent or falsy, a string, or another
    truthy value. *)
Inductive field : Type :=
| Missing
| Text (s : str)
| Other.

Definition truthy (f : field) : bool :=
  match f with
  | Text (_ :: _) | Other => true
  | _ => false
  end.

(** [behavior] and [interactions] are advisory text no function reads;
    they are left out. *)
Record ParticleData : Type := {
  name : str;
  color : Z * Z * Z;
  action_code : field
}.

End Description.

Export Description.

(** ** The uniqueness validator and the colour adjuster
    ([validateUniqueParticle], [adjustColorForUniqueness]) *)

Module Uniqueness.

(** JavaScript numbers are IEEE 754 doubles; the integers of this module
    are far below [2^53] and convert exactly. *)
Definition ofZ (z : Z) : float :=
  if (z <? 0)%Z then PrimFloat.opp (PrimFloat.of_uint63 (Uint63.of_Z (- z)))
  else PrimFloat.of_uint63 (Uint63.of_Z z).

(** [Math.round(x)]: the integer nearest to [x], the upper one at a tie. The
    argument is finite wherever the source calls it. *)
Definition Math_round (x : float) : Z :=
  match Prim2SF x with
  | S754_finite s m e =>
      let n := if s then Z.neg m else Z.pos m in
      if (0 <=? e)%Z then (n * 2 ^ e)%Z
      else ((2 * n + 2 ^ (- e)) / 2 ^ (1 - e))%Z
  | _ => 0%Z
  end.

(** [Math.pow(x, 2)] *)
Definition Math_pow2 (x : float) : float := PrimFloat.mul x x.

Definition Color : Type := Z * Z * Z.

Definition standardColors : list (str * Color) :=
  [(lit "FIRE", (255, 0, 10)); (lit "WATER", (0, 10, 255));
   (lit "PLANT", (0, 220, 0)); (lit "SAND", (223, 193, 99));
   (lit "WALL", (127, 127, 127)); (lit "OIL", (150, 60, 0));
   (lit "LAVA", (245, 110, 40)); (lit "ICE", (200, 200, 255))]%Z.

Definition distance (c e : Color) : float :=
  let '(r, g, b) := c in
  let '(er, eg, eb) := e in
  PrimFloat.sqrt
    (Math_pow2 (ofZ r - ofZ er) + Math_pow2 (ofZ g - ofZ eg)
     + Math_pow2 (ofZ b - ofZ eb))%float.

Inductive Reason : Type :=
| TooSimilarTo (elementName : str) (elementColor : Color)
| TooSimple
| GenericFire
| GenericWater
| IsUnique.

Record Validation : Type := { isValid : bool; message : Reason }.

(** [None]: [action_code] is not a string and [toLowerCase] raises. *)
Definition validateUniqueParticle (particleData : ParticleData)
  : option Validation :=
  match find (fun e => PrimFloat.ltb (distance (color particleData) (snd e)) 60)
             standardColors with
  | Some (elementName, e) =>
      Some {| isValid := false; message := TooSimilarTo elementName e |}
  | None =>
      match action_code particleData with
      | Text text =>
          let code := toLowerCase text in
          if eqStr (trim code) (lit "dogravity(x, y, i, true, 0.9);")
             || eqStr (trim code) (lit "dogravity(x, y, i, true, 1.0);") then
            Some {| isValid := false; message := TooSimple |}
          else
            let name := toLowerCase (name particleData) in
            if includes (lit "fire") name && includes (lit "fire") code
               && negb (includes (lit "water") code)
               && negb (includes (lit "sand") code) then
              Some {| isValid := false; message := GenericFire |}
            else if includes (lit "water") name
                    && includes (lit "densityliquid") code
                    && (length code <? 50)%nat then
              Some {| isValid := false; message := GenericWater |}
            else Some {| isValid := true; message := IsUnique |}
      | _ => None
      end
  end.

Definition isFireName (name : str) : bool :=
  includes (lit "FIRE") (toUpperCase name)
  || includes (lit "FLAME") (toUpperCase name).

Definition isWaterName (name : str) : bool :=
  includes (lit "WATER") (toUpperCase name)
  || includes (lit "LIQUID") (toUpperCase name).

Definition isPlantName (name : str) : bool :=
  includes (lit "PLANT") (toUpperCase name)
  || includes (lit "LEAF") (toUpperCase name).

(** The four branches of [adjustColorForUniqueness]. *)
Definition shiftFire (c : Color) : Color :=
  let '(r, g, b) := c in
  (Z.min 255 (r + 20), Z.min 255 (g + 80), Z.min 255 (b + 120))%Z.

Definition shiftWater (c : Color) : Color :=
  let '(r, g, b) := c in
  (Z.min 255 (r + 40), Z.min 255 (g + 150), Z.max 150 (b - 30))%Z.

Definition shiftPlant (c : Color) : Color :=
  let '(r, g, b) := c in
  (Z.min 255 (r + 100), Z.max 100 (g - 70), Z.min 255 (b + 40))%Z.

(** [Math.round(c * ratio * 0.8)] with [ratio = 255 / maxChannel] *)
Definition saturate (c maxChannel : Z) : Z :=
  let ratio := (255 / ofZ maxChannel)%float in
  Math_round (ofZ c * ratio * 0.8)%float.

Definition shiftGeneral (c : Color) : Color :=
  let '(r, g, b) := c in
  let maxChannel := Z.max (Z.max r g) b in
  let '(r, g, b) :=
    if (0 <? maxChannel)%Z then
      (saturate r maxChannel, saturate g maxChannel, saturate b maxChannel)
    else (r, g, b) in
  (255 - r, 255 - g, 255 - b)%Z.

(** [Math.max(0, Math.min(255, Math.round(c)))] of an integer [c] *)
Definition clampChannel (c : Z) : Z := Z.max 0 (Z.min 255 c).

Definition adjustColorForUniqueness (c : Color) (name : str) : Color :=
  let '(r, g, b) :=
    if isFireName name then shiftFire c
    else if isWaterName name then shiftWater c
    else if isPlantName name then shiftPlant c
    else shiftGeneral c in
  (clampChannel r, clampChannel g, clampChannel b).

End Uniqueness.

Export Uniqueness.

(** ** The tables of the registry and the way from a description to its
    callable ([registerCustomParticle], the inner [try]) *)

Module Registry.

(** What [registerCustomParticle] throws: the error of either inner [try],
    or the [TypeError] of the closing [updateCustomParticlesList()]. *)
Inductive RegistrationError : Type :=
| FailedToCreateAction
| FailedToUpdateAction
| ListNotDrawn.

(** [if (actionCode.startsWith('function')) ...]: the body between the first
    opening brace and the brace that closes it. *)
Fixpoint closeBraceIndex (braceCount : Z) (i : nat) (s : str) : option nat :=
  match s with
  | [] => None
  | c :: s' =>
      let braceCount := if (c =? 123)%N then (braceCount + 1)%Z else braceCount in
      let braceCount := if (c =? 125)%N then (braceCount - 1)%Z else braceCount in
      if (braceCount =? 0)%Z then Some i else closeBraceIndex braceCount (S i) s'
  end.

Definition extractFunctionBody (actionCode : str) : str :=
  if startsWith (lit "function") actionCode then
    match indexOf [123%N] actionCode with
    | Some openBraceIndex =>
        match closeBraceIndex 1 (openBraceIndex + 1)
                (skipn (openBraceIndex + 1) actionCode) with
        | Some close =>
            trim (substring (openBraceIndex + 1) close actionCode)
        | None => actionCode
        end
    | None => actionCode
    end
  else actionCode.

Definition safeActionCodeUpdate (actionCode : str) : str :=
  lit "
          try {
            // Default to simple behavior as fallback
            if (Math.random() < 0.1) {
              doGravity(x, y, i, true, 0.9);
              return;
            }
            
            // Custom particle code below
            "
  ++ actionCode
  ++ lit "
          } catch (error) {
            console.error("
  ++ [34%N]
  ++ lit "Error in particle action:"
  ++ [34%N]
  ++ lit ", error);
            // Default fallback behavior
            doGravity(x, y, i, true, 1.0);
          }
        ".

Definition safeActionCodeNew (actionCode : str) : str :=
  lit "
        try {
          // Default to simple behavior as fallback with small probability
          if (Math.random() < 0.1) {
            doGravity(x, y, i, true, 0.9);
            return;
          }
          
          // Custom particle code below
          "
  ++ actionCode
  ++ lit "
        } catch (error) {
          console.error("
  ++ [34%N]
  ++ lit "Error in particle action:"
  ++ [34%N]
  ++ lit ", error);
          // Default fallback behavior
          doGravity(x, y, i, true, 1.0);
        }
      ".

Section WithHost.
Context `{Host}.

Record State : Type := {
  customElementColors : gmap str Z;
  customElementActions : gmap Z Action;
  nextCustomElementIdx : Z;
  (** the engine's tables *)
  menuNames : gmap Z str;
  elements : list Z;
  elementActions : list Action;
  (** [customParticles] of [openai.js] *)
  customParticles : gmap str ParticleData;
  (** [config.initialized] of [openai.js] *)
  initialized : bool;
  (** the state of the engine's [__inGameColor] *)
  palette : Palette
}.

(** [customElementColors[name]] read as a condition, and
    [customElementColors[name] || null]: an entry counts when it is not [0]. *)
Definition getElementColorFromName (st : State) (particleName : str) : option Z :=
  match customElementColors st !! particleName with
  | Some c => if (c =? 0)%Z then None else Some c
  | None => None
  end.

(** The body of either inner [try]: from the action text to the wrapped
    callable; [None] when a step raises. *)
Definition processedFragment (particleData : ParticleData) (elementColor : Z)
  : option str :=
  match action_code particleData with
  | Text code =>
      let actionCode := trim code in
      let actionCode := extractFunctionBody actionCode in
      let actionCode := sanitizeActionCode actionCode in
      preprocessActionCode actionCode (name particleData) elementColor
  | _ => None
  end.

Definition buildAction (wrap : str -> str) (particleData : ParticleData)
           (elementColor : Z) : option Action :=
  match processedFragment particleData elementColor with
  | Some actionCode =>
      match compileFunction (wrap actionCode) with
      | Some actionFunction =>
          Some (createSafeParticleAction actionFunction (name particleData))
      | None => None
      end
  | None => None
  end.

(** The function [new Function] makes of either text above when
    [actionCode] is a list of statements, [fragment] being what the
    statements do: the random choice, the statements, and the [catch]
    around both. What the [catch] block throws leaves the function. *)
Definition actionFunction (fragment : Action) : Action :=
  fun x y i w =>
    let '(r, e) := Math_random (snd w) in
    let w := (fst w, e) in
    if (r <? 0.1)%float then
      match doGravity x y i true 0.9 w with
      | (w, Throw _) => doGravity x y i true 1.0 w
      | done => done
      end
    else
      match fragment x y i w with
      | (w, Throw _) => doGravity x y i true 1.0 w
      | done => done
      end.

End WithHost.

(** [getColorComponents(elementColor)] *)
Definition getColorComponents (elementColor : Z) : Z * Z * Z :=
  let r := Z.land elementColor 255 in
  let g := Z.shiftr (Z.land elementColor 65280) 8 in
  let b := Z.shiftr (Z.land elementColor 16711680) 16 in
  (r, g, b).

(** [createTestParticle()] *)
Definition createTestParticle : ParticleData :=
  {| name := lit "TNT";
     color := (255, 60, 30)%Z;
     action_code := Text (lit "
      // Check if TNT is in contact with fire
      if (adjacent(x, i, FIRE) || below(y, i, FIRE) || above(y, i, FIRE)) {
        // Create explosion
        gameImagedata32[i] = FIRE; // Center becomes fire
        
        // Set surrounding pixels to fire to create explosion effect
        if (i+1 < gameImagedata32.length) gameImagedata32[i+1] = FIRE;
        if (i-1 >= 0) gameImagedata32[i-1] = FIRE;
        if (i+width < gameImagedata32.length) gameImagedata32[i+width] = FIRE;
        if (i-width >= 0) gameImagedata32[i-width] = FIRE;
        
        // Larger explosion radius
        if (i+width+1 < gameImagedata32.length) gameImagedata32[i+width+1] = FIRE;
        if (i+width-1 < gameImagedata32.length && i+width-1 >= 0) gameImagedata32[i+width-1] = FIRE;
        if (i-width+1 >= 0 && i-width+1 < gameImagedata32.length) gameImagedata32[i-width+1] = FIRE;
        if (i-width-1 >= 0) gameImagedata32[i-width-1] = FIRE;
      } else {
        // Normal behavior - falls like sand
        doGravity(x, y, i, true, 0.9);
      }
    ") |}.

End Registry.

Export Registry.

(** ** The buttons ([updateCustomParticlesList], [ensureVisibleColor],
    [addCustomElementToMenu]) *)

Module Menu.

(** The value of a run of decimal digits at the head of [s], after the
    digits of [acc]. *)
Fixpoint digitsValue (acc : Z) (s : str) : Z :=
  match s with
  | c :: s' =>
      if isDigit c then digitsValue (10 * acc + Z.of_N (c - 48)) s' else acc
  | [] => acc
  end.

(** [parseInt(s, 10)]: leading white space, a sign, decimal digits; [None]
    for [NaN]. *)
Definition parseInt10 (s : str) : option Z :=
  let s := dropSpace s in
  let '(sign, s) :=
    match s with
    | 45%N :: s' => ((-1)%Z, s')
    | 43%N :: s' => (1%Z, s')
    | _ => (1%Z, s)
    end in
  match s with
  | c :: _ => if isDigit c then Some (sign * digitsValue 0 s)%Z else None
  | [] => None
  end.

(** [`rgb(${r}, ${g}, ${b})`] *)
Definition rgb (r g b : Z) : str :=
  lit "rgb(" ++ toString r ++ lit ", " ++ toString g ++ lit ", "
  ++ toString b ++ lit ")".

(** The channels [ensureVisibleColor(r, g, b)] writes. *)
Definition visibleChannels (r g b : Z) : Z * Z * Z :=
  let minBrightness := 100%float in
  let brightness :=
    ((ofZ r * 299 + ofZ g * 587 + ofZ b * 114) / 1000)%float in
  if (brightness <? minBrightness)%float then
    let factor :=
      (minBrightness / (if (brightness <? 1)%float then 1 else brightness))%float in
    (Z.min 255 (Math_round (ofZ r * factor)),
     Z.min 255 (Math_round (ofZ g * factor)),
     Z.min 255 (Math_round (ofZ b * factor)))
  else (r, g, b).

Definition ensureVisibleColor (r g b : Z) : str :=
  let '(r, g, b) := visibleChannels r g b in rgb r g b.

(** A button: its caption ([textContent] or [value]), [style.color] and
    [id]. *)
Record Button : Type := {
  textContent : str;
  style_color : str;
  id : str
}.

Section WithHost.
Context `{Host}.

(** The body of the [forEach] of [updateCustomParticlesList]: the button of
    one particle and the element its click handler selects; [None] when
    [customElementColors[name]] is [undefined] and [toString] raises. *)
Definition particleButton (st : State) (name : str) (particle : ParticleData)
  : option (Button * Z) :=
  let '(r, g, b) := color particle in
  let textColor := ensureVisibleColor r g b in
  match customElementColors st !! name with
  | Some elementColor =>
      Some ({| textContent := name;
               style_color := textColor;
               id := toString elementColor |}, elementColor)
  | None => None
  end.

(** [updateCustomParticlesList()]: the buttons by particle name ([None]
    when the loop raises). The order of the buttons on the page is the key
    order of [customParticles], which the map does not keep. *)
Definition updateCustomParticlesList (st : State)
  : option (gmap str (Button * Z)) :=
  let particles := customParticles st in
  if bool_decide (map_Forall (fun name particle =>
                                is_Some (particleButton st name particle))
                             particles)
  then Some (map_imap (particleButton st) particles)
  else None.

End WithHost.

(** [addCustomElementToMenu(elementName, elementColor)] on the rows of
    [elementTable] ([None]: the table is not on the page);
    [ELEMENT_MENU_ELEMENTS_PER_ROW] is a constant of [menu.js]. *)
Definition addCustomElementToMenu (ELEMENT_MENU_ELEMENTS_PER_ROW : nat)
           (elementName : str) (elementColor : Z)
           (elementTable : option (list (list Button)))
  : option (list (list Button)) :=
  match elementTable with
  | None => None
  | Some rows =>
      let '(r, g, b) := getColorComponents elementColor in
      let elemButton :=
        {| textContent := elementName;
           style_color := rgb r g b;
           id := toString elementColor |} in
      match last rows with
      | Some lastRow =>
          if (ELEMENT_MENU_ELEMENTS_PER_ROW <=? length lastRow)%nat
          then Some (rows ++ [[elemButton]])
          else Some (removelast rows ++ [lastRow ++ [elemButton]])
      | None => Some (rows ++ [[elemButton]])
      end
  end.

(** The click handler of a menu button:
    [SELECTED_ELEM = parseInt(elemButton.id, 10)]. *)
Definition clickMenuButton (b : Button) : option Z := parseInt10 (id b).

End Menu.

(** ** Registration ([registerCustomParticle]) *)

Module Registration.

Section WithHost.
Context `{Host}.

(** [updateCustomParticlesList(); return elementColor;]: the list of
    buttons is drawn again from the registry, which it does not change; the
    [TypeError] it raises for a stored description without a colour leaves
    [registerCustomParticle] through the outer [catch]. *)
Definition redrawAndReturn (st : State) (elementColor : Z)
  : State * (RegistrationError + Z) :=
  match Menu.updateCustomParticlesList st with
  | Some _ => (st, inr elementColor)
  | None => (st, inl ListNotDrawn)
  end.

(** The result is the registry after the call with the error raised
    ([inl]) or the colour returned ([inr]). *)
Definition registerCustomParticle (particleData : ParticleData) (st : State)
  : State * (RegistrationError + Z) :=
  let particleName := name particleData in
  let '(r, g, b) := color particleData in
  match getElementColorFromName st particleName with
  | Some elementColor =>
      match buildAction safeActionCodeUpdate particleData elementColor with
      | Some safeFunction =>
          redrawAndReturn
            {| customElementColors := customElementColors st;
               customElementActions :=
                 <[elementColor := safeFunction]> (customElementActions st);
               nextCustomElementIdx := nextCustomElementIdx st;
               menuNames := menuNames st;
               elements := elements st;
               elementActions := elementActions st;
               customParticles := customParticles st;
               initialized := initialized st;
               palette := palette st |}
            elementColor
      | None => (st, inl FailedToUpdateAction)
      end
  | None =>
      let '(elementColor, palette1) := inGameColor r g b (palette st) in
      let st1 :=
        {| customElementColors :=
             <[particleName := elementColor]> (customElementColors st);
           customElementActions := customElementActions st;
           nextCustomElementIdx := nextCustomElementIdx st;
           menuNames := <[elementColor := particleName]> (menuNames st);
           elements := elements st;
           elementActions := elementActions st;
           customParticles := customParticles st;
           initialized := initialized st;
           palette := palette1 |} in
      match buildAction safeActionCodeNew particleData elementColor with
      | Some safeFunction =>
          redrawAndReturn
            {| customElementColors := customElementColors st1;
               customElementActions :=
                 <[elementColor := safeFunction]> (customElementActions st1);
               nextCustomElementIdx := (nextCustomElementIdx st1 + 1)%Z;
               menuNames := menuNames st1;
               elements := elements st1 ++ [elementColor];
               elementActions := elementActions st1 ++ [safeFunction];
               customParticles := customParticles st1;
               initialized := initialized st1;
               palette := palette st1 |}
            elementColor
      | None => (st1, inl FailedToCreateAction)
      end
  end.

End WithHost.

End Registration.

Export Registration.


(** ** Generation ([generateParticle]) and submission
    ([handleParticleSubmission]) *)

Module Generation.

(** [color] of the parsed response: absent or falsy, anything but an array
    of three, or three entries of which [parseInt] makes the integers given. *)
Inductive RawColor : Type :=
| NoColor
| NotATriple
| Triple (r g b : Z).

Record RawData : Type := {
  raw_name : field;
  raw_color : RawColor;
  raw_action_code : field
}.

(** What came back from the service: [fetch] failed, the response was not
    [ok], its content held no JSON object that parses, or the parsed
    object. *)
Inductive ServiceReply : Type :=
| FetchFailed
| NotOk
| NoJson
| Parsed (particleData : RawData).

Inductive GenerationError : Type :=
| NotInitialized
| TransportError
| ApiError
| ParseFailure.

Inductive Submission : Type :=
| NothingSubmitted
| GenerationFailed (e : GenerationError)
| RegistrationFailed (e : RegistrationError)
| Registered (elementColor : Z).

Section WithHost.
Context `{Host}.

Definition storeParticle (particleName : str) (particleData : ParticleData)
           (st : State) : State :=
  {| customElementColors := customElementColors st;
     customElementActions := customElementActions st;
     nextCustomElementIdx := nextCustomElementIdx st;
     menuNames := menuNames st;
     elements := elements st;
     elementActions := elementActions st;
     customParticles := <[particleName := particleData]> (customParticles st);
     initialized := initialized st;
     palette := palette st |}.

(** The status and error texts the function also sets are presentation and
    are left out. *)
Definition generateParticle (particleName : str) (reply : ServiceReply)
           (st : State) : State * (GenerationError + ParticleData) :=
  if negb (initialized st) then (st, inl NotInitialized)
  else
    match reply with
    | FetchFailed => (st, inl TransportError)
    | NotOk => (st, inl ApiError)
    | NoJson => (st, inl ParseFailure)
    | Parsed raw =>
        if negb (truthy (raw_name raw))
           || match raw_color raw with NoColor => true | _ => false end
           || negb (truthy (raw_action_code raw)) then
          (st, inl ParseFailure)
        else
          match raw_name raw, raw_color raw with
          | Text n, Triple r g b =>
              let name1 := toUpperCase n in
              let name2 :=
                if negb (eqStr name1 (toUpperCase particleName))
                then toUpperCase particleName else name1 in
              let color1 := (clampChannel r, clampChannel g, clampChannel b) in
              let particleData :=
                {| name := name2; color := color1;
                   action_code := raw_action_code raw |} in
              match validateUniqueParticle particleData with
              | Some validationResult =>
                  let particleData :=
                    if negb (isValid validationResult) then
                      {| name := name2;
                         color := adjustColorForUniqueness color1 name2;
                         action_code := raw_action_code raw |}
                    else particleData in
                  (storeParticle particleName particleData st, inr particleData)
              | None => (st, inl ParseFailure)
              end
          | _, _ => (st, inl ParseFailure)
          end
    end.

(** The redraw that follows a registration that returned is a second one
    of the same registry and ends as the first did, inside the call. *)
Definition handleParticleSubmission (input : str) (reply : ServiceReply)
           (st : State) : State * Submission :=
  let particleName := toUpperCase (trim input) in
  if eqStr particleName [] then (st, NothingSubmitted)
  else if negb (initialized st) then (st, NothingSubmitted)
  else
    match generateParticle particleName reply st with
    | (st, inr particleData) =>
        match registerCustomParticle particleData st with
        | (st, inr elementColor) => (st, Registered elementColor)
        | (st, inl e) => (st, RegistrationFailed e)
        end
    | (st, inl e) => (st, GenerationFailed e)
    end.

End WithHost.

End Generation.

Export Generation.

(** ** The categories of the prompt ([categorizeParticleType]) *)

Module Prompt.

Inductive ParticleType : Type :=
| explosive
| liquid
| gas
| creature
| metal
| food
| generic.

Definition categorizeParticleType (particleName : str) : ParticleType :=
  let name := toUpperCase particleName in
  if includes (lit "TNT") name || includes (lit "BOMB") name
     || includes (lit "EXPLO") name || includes (lit "DYNA") name
     || includes (lit "C4") name || eqStr name (lit "BOOM") then explosive
  else if includes (lit "WATER") name || includes (lit "OIL") name
          || includes (lit "JUICE") name || includes (lit "LAVA") name
          || includes (lit "BLOOD") name || includes (lit "ACID") name
          || includes (lit "LIQUID") name then liquid
  else if includes (lit "GAS") name || includes (lit "STEAM") name
          || includes (lit "SMOKE") name || includes (lit "FOG") name
          || includes (lit "VAPOR") name || includes (lit "AIR") name then gas
  else if includes (lit "CAT") name || includes (lit "DOG") name
          || includes (lit "BIRD") name || includes (lit "BUG") name
          || includes (lit "FISH") name || includes (lit "MOUSE") name
          || includes (lit "RAT") name || eqStr name (lit "ANT")
          || includes (lit "HUMAN") name || includes (lit "ZOMBIE") name
  then creature
  else if includes (lit "METAL") name || includes (lit "IRON") name
          || includes (lit "GOLD") name || includes (lit "SILVER") name
          || includes (lit "COPPER") name || includes (lit "STEEL") name
  then metal
  else if includes (lit "FOOD") name || includes (lit "CAKE") name
          || includes (lit "BREAD") name || includes (lit "PIZZA") name
          || includes (lit "COOKIE") name || includes (lit "FRUIT") name
  then food
  else generic.

End Prompt.

Export Prompt.

(** ** The key of the service ([initOpenAI], the handlers of the settings
    dialog in [setupLLMEventListeners]) *)

Module Settings.

(** [config] of [openai.js]; its [model] is a constant no function writes
    and is left out. [initialized] is the flag [handleParticleSubmission]
    and [generateParticle] read. *)
Record Config : Type := {
  apiKey : str;
  initialized : bool
}.

(** [config], [statusMessage] and [errorMessage] of [openai.js], the text of
    the status line and the entry [openai_api_key] of [localStorage]. *)
Record Page : Type := {
  config : Config;
  statusMessage : str;
  errorMessage : str;
  llmStatusDisplay : str;
  openai_api_key : option str
}.

(** [initOpenAI(apiKey)] with the page after the call. *)
Definition initOpenAI (key : str) (p : Page) : Page * bool :=
  if eqStr key [] || eqStr (trim key) [] then
    ({| config := config p;
        statusMessage := statusMessage p;
        errorMessage := lit "Please enter a valid OpenAI API key";
        llmStatusDisplay := llmStatusDisplay p;
        openai_api_key := openai_api_key p |}, false)
  else
    ({| config := {| apiKey := key; initialized := true |};
        statusMessage := lit "OpenAI integration initialized";
        errorMessage := errorMessage p;
        llmStatusDisplay := llmStatusDisplay p;
        openai_api_key := openai_api_key p |}, true).

Definition getStatusMessage (p : Page) : str := statusMessage p.

Definition getErrorMessage (p : Page) : str := errorMessage p.

Definition clearErrorMessage (p : Page) : Page :=
  {| config := config p;
     statusMessage := statusMessage p;
     errorMessage := [];
     llmStatusDisplay := llmStatusDisplay p;
     openai_api_key := openai_api_key p |}.

Definition clearStatusMessage (p : Page) : Page :=
  {| config := config p;
     statusMessage := [];
     errorMessage := errorMessage p;
     llmStatusDisplay := llmStatusDisplay p;
     openai_api_key := openai_api_key p |}.

(** [updateLLMStatus(message, type)], as far as the text of the status line
    goes; the line is cleared by a timer later on. *)
Definition updateLLMStatus (message : str) (p : Page) : Page :=
  {| config := config p;
     statusMessage := statusMessage p;
     errorMessage := errorMessage p;
     llmStatusDisplay := message;
     openai_api_key := openai_api_key p |}.

(** The click handler of [llmSaveApiKeyButton]; [inputValue] is
    [llmApiKeyInput.value]. *)
Definition saveApiKey (inputValue : str) (p : Page) : Page :=
  let key := trim inputValue in
  match initOpenAI key p with
  | (p, true) =>
      let p := updateLLMStatus (getStatusMessage p) p in
      {| config := config p;
         statusMessage := statusMessage p;
         errorMessage := errorMessage p;
         llmStatusDisplay := llmStatusDisplay p;
         openai_api_key := Some key |}
  | (p, false) => updateLLMStatus (getErrorMessage p) p
  end.

(** The page when its scripts have been read, with what [localStorage]
    holds. *)
Definition initialPage (stored : option str) : Page :=
  {| config := {| apiKey := []; initialized := false |};
     statusMessage := [];
     errorMessage := [];
     llmStatusDisplay := [];
     openai_api_key := stored |}.

(** The end of [setupLLMEventListeners]: [if (storedApiKey) ...]. *)
Definition loadStoredApiKey (p : Page) : Page :=
  match openai_api_key p with
  | Some storedApiKey =>
      if negb (eqStr storedApiKey []) then fst (initOpenAI storedApiKey p) else p
  | None => p
  end.

End Settings.


(** ** The test button ([llmTestButton]) and sessions *)

Module Session.

Section WithHost.
Context `{Host}.

(** The click handler of [llmTestButton], as far as the registry goes: an
    error of the registration is caught and shown. *)
Definition clickTestButton (st : State) : State :=
  fst (registerCustomParticle createTestParticle st).

(** What the user does: a submission, with what the service answers, or a
    click on the test button. *)
Inductive Event : Type :=
| Submit (input : str) (reply : ServiceReply)
| ClickTest.

Definition handle (st : State) (e : Event) : State :=
  match e with
  | Submit input reply => fst (handleParticleSubmission input reply st)
  | ClickTest => clickTestButton st
  end.

(** The events one after the other, none starting before the one before it
    has ended. *)
Definition run (es : list Event) (st : State) : State := fold_left handle es st.

End WithHost.

End Session.

Export Session.

(** ** The text of the response ([generateParticle], from [content] to the
    argument of [JSON.parse]) *)

Module Response.

(** The three patterns are matched by backtracking, as the runtime does.
    A continuation gets the text matched so far and the text to come. *)

(** [\s*], the longest run first. *)
Fixpoint spaces {R} (k : str -> str -> option R) (matched s : str) : option R :=
  match s with
  | c :: s' =>
      if isSpace c then
        match spaces k (matched ++ [c]) s' with
        | Some r => Some r
        | None => k matched s
        end
      else k matched s
  | [] => k matched s
  end.

(** [([\s\S]*?)], the shortest text first; [group] is the text of the
    group so far. *)
Fixpoint lazyAny {R} (k : str -> str -> str -> option R)
         (group matched s : str) : option R :=
  match k group matched s with
  | Some r => Some r
  | None =>
      match s with
      | c :: s' => lazyAny k (group ++ [c]) (matched ++ [c]) s'
      | [] => None
      end
  end.

(** [[\s\S]*], the longest text first. *)
Fixpoint greedyAny {R} (k : str -> str -> option R) (matched s : str) : option R :=
  match s with
  | c :: s' =>
      match greedyAny k (matched ++ [c]) s' with
      | Some r => Some r
      | None => k matched s
      end
  | [] => k matched s
  end.

(** A literal text. *)
Definition text {R} (t : str) (k : str -> str -> option R) (matched s : str)
  : option R :=
  if startsWith t s then k (matched ++ t) (skipn (length t) s) else None.

(** [/```json\s*([\s\S]*?)\s*```/] ([fence] is [```json]) and
    [/```\s*([\s\S]*?)\s*```/] ([fence] is [```]) at the head of [s]: the
    match and its group. *)
Definition fenced (fence : str) (s : str) : option (str * str) :=
  text fence
    (spaces
       (lazyAny
          (fun group =>
             spaces (text (lit "```") (fun matched _ => Some (matched, group))))
          []))
    [] s.

(** [/\{[\s\S]*\}/] at the head of [s]: the match. *)
Definition object (s : str) : option str :=
  text (lit "{")
    (greedyAny (text (lit "}") (fun matched _ => Some matched)))
    [] s.

(** [s.match(re)] without the flag [g]: the leftmost match. *)
Fixpoint firstMatch {R} (m : str -> option R) (s : str) : option R :=
  match m s with
  | Some r => Some r
  | None =>
      match s with
      | _ :: s' => firstMatch m s'
      | [] => None
      end
  end.

(** The text [JSON.parse] is called on; [None] when the function throws
    before the call ('Could not extract valid JSON from the response'). *)
Definition jsonText (content : str) : option str :=
  let jsonStr := content in
  let jsonMatch :=
    match firstMatch (fenced (lit "```json")) content with
    | Some m => Some m
    | None =>
        match firstMatch (fenced (lit "```")) content with
        | Some m => Some m
        | None =>
            match firstMatch object content with
            | Some m0 => Some (m0, [])
            | None => None
            end
        end
    end in
  let jsonStr :=
    match jsonMatch with
    | Some (m0, m1) => if startsWith (lit "```") m0 then m1 else m0
    | None => jsonStr
    end in
  let jsonStr := trim jsonStr in
  if negb (startsWith (lit "{") jsonStr) || negb (endsWith (lit "}") jsonStr) then
    match firstMatch object jsonStr with
    | Some objectMatch => Some objectMatch
    | None => None
    end
  else Some jsonStr.

End Response.

(** * Vocabulary of the statements *)

(** ** Matches, occurrences and scans *)

(** The text an atom may consume. *)
Definition pieceOk (a : atom) (p : str) : Prop :=
  match a with
  | Lit c => p = [c]
  | Cls f => exists x, p = [x] /\ f x = true
  | Star f => forallb f p = true
  | Plus f => p <> [] /\ forallb f p = true
  end.

(** The language of a pattern: one piece for each atom. *)
Definition matches (pat : pattern) (ps : list str) : Prop :=
  Forall2 pieceOk pat ps.

(** [s] begins with a text of the pattern. *)
Definition headMatch (pat : pattern) (s : str) : Prop :=
  exists ps t, matches pat ps /\ s = concat ps ++ t.

(** [s] holds a text of the pattern somewhere. *)
Definition occ (pat : pattern) (s : str) : Prop :=
  exists a t, s = a ++ t /\ headMatch pat t.

(** Some atom takes at least one character: no match is empty. *)
Definition consuming (pat : pattern) : bool :=
  existsb (fun a => match a with Star _ => false | _ => true end) pat.

(** A match is a non-empty prefix of the text it was found in. *)
Definition proper (m : matcher) : Prop :=
  forall prev s ps, m prev s = Some ps ->
    concat ps <> [] /\ exists t, s = concat ps ++ t.

(** The result of a scan, as a derivation. *)
Inductive scan (m : matcher) (rho : list str -> str)
  : option N -> str -> str -> Prop :=
| scan_end prev : scan m rho prev [] []
| scan_copy prev c s o :
    m prev (c :: s) = None ->
    scan m rho (Some c) s o ->
    scan m rho prev (c :: s) (c :: o)
| scan_match prev ps t o :
    m prev (concat ps ++ t) = Some ps ->
    concat ps <> [] ->
    scan m rho (last (option_list prev ++ concat ps)) t o ->
    scan m rho prev (concat ps ++ t) (rho ps ++ o).

(** [cmp] under a repetition of the class [f]. *)
Fixpoint cmpStar (f : N -> bool) (k : str -> bool) (X : str) : bool :=
  match X with
  | [] => true
  | x :: X' => k X || (f x && cmpStar f k X')
  end.

(** [cmp Q X]: some text of the language of [Q] and [X] may agree as far
    as the shorter of the two goes. *)
Fixpoint cmp (Q : pattern) (X : str) : bool :=
  match Q with
  | [] => true
  | Lit c :: Q' =>
      match X with [] => true | x :: X' => (x =? c)%N && cmp Q' X' end
  | Cls f :: Q' =>
      match X with [] => true | x :: X' => f x && cmp Q' X' end
  | Star f :: Q' => cmpStar f (cmp Q') X
  | Plus f :: Q' =>
      match X with [] => true | x :: X' => f x && cmpStar f (cmp Q') X' end
  end.

(** The tail of a match that starts inside a [+] run is a text of the
    pattern with [*] in its place. *)
Definition relax (Q : pattern) : pattern :=
  map (fun a => match a with Plus f => Star f | _ => a end) Q.

(** No match of [Q] can share a character with an occurrence of [R]: no
    tail of a match agrees with [R] from its first character on, and no
    match agrees with a tail of [R]. *)
Definition overlapFree (Q : pattern) (R : str) : bool :=
  forallb (fun k => negb (cmp (skipn k (relax Q)) R)) (seq 0 (length Q))
  && forallb (fun j => negb (cmp Q (skipn j R))) (seq 0 (length R)).

(** A match of [Q] that starts before an occurrence of [R] ends before
    it. *)
Definition noOverlap (Q : pattern) (R : str) : Prop :=
  forall a b ps t, matches Q ps -> a ++ R ++ b = concat ps ++ t ->
    (length (concat ps) <= length a)%nat.

(** No match of [Q] starts inside an occurrence of [R]. *)
Definition noInner (Q : pattern) (R : str) : Prop :=
  forall R1 R2 b, R = R1 ++ R2 -> R2 <> [] -> ~ headMatch Q (R2 ++ b).

(** ** The sanitizer as a list of rules *)

(** The rules of the sanitizer behind the first one, in the order of the
    source. *)
Definition laterRules : list (pattern * str) :=
  [(reWhile, lit "if("); (reFor, lit "if("); (reEval, lit "console.log(");
   (reNewFunction, lit "console.log"); (reSetTimeout, lit "console.log");
   (reSetInterval, lit "console.log"); (reWindow, lit "void_");
   (reDocument, lit "void_"); (reGlobalThis, lit "void_")].

(** [code = code.replace(re, text)] for each rule in turn. *)
Definition applyRules (rs : list (pattern * str)) (code : str) : str :=
  fold_left (fun code r => replaceAll (fst r) (snd r) code) rs code.

(** Each rule removes its own pattern and no rule behind it brings the
    pattern back. *)
Fixpoint cleanOrder (rs : list (pattern * str)) : bool :=
  match rs with
  | [] => true
  | r :: rs' =>
      consuming (fst r)
      && overlapFree (fst r) (snd r)
      && forallb (fun r' => consuming (fst r') && overlapFree (fst r) (snd r')) rs'
      && cleanOrder rs'
  end.

(** ** The rewriter *)

(** No match of [m] shares a character with an occurrence of [K]. *)
Definition disjointFrom (m : matcher) (K : str) : Prop :=
  forall prev a K1 K2 b ps,
    K = K1 ++ K2 -> K2 <> [] -> a = [] \/ K1 = [] ->
    m prev (a ++ K2 ++ b) = Some ps ->
    (length (concat ps) <= length a)%nat.

(** The names [enhanceCodeBasedOnName] has a template for. *)
Definition hasTemplate (particleName : str) : bool :=
  let name := toUpperCase particleName in
  includes (lit "HAIR") name || includes (lit "FUR") name
  || includes (lit "STRING") name
  || includes (lit "GAS") name || includes (lit "SMOKE") name
  || includes (lit "VAPOR") name || includes (lit "STEAM") name
  || includes (lit "WATER") name || includes (lit "LIQUID") name
  || includes (lit "OIL") name || includes (lit "JUICE") name
  || includes (lit "BLOOD") name.

(** [code.trim().length < 50 || code.trim() === "doGravity(x, y, i, true, 0.9);"] *)
Definition tooSimple (code : str) : bool :=
  (length (trim code) <? 50)%nat
  || eqStr (trim code) (lit "doGravity(x, y, i, true, 0.9);").

(** The conditional keyword with its opening parenthesis, as the templates
    write it. *)
Definition conditional : str := lit "if (".

(** ** A host and inputs to evaluate on *)

(** The colour [registerCustomParticle] gives a new particle in the state
    [st]. *)
Definition newElementColor `{Host} (particleData : ParticleData) (st : State)
  : Z :=
  let '(r, g, b) := color particleData in fst (inGameColor r g b (palette st)).

(** Colours packed the way [getColorComponents] reads them, under an
    opaque alpha byte. *)
Definition packColor (r g b : Z) : Z :=
  (4278190080 + Z.shiftl b 16 + Z.shiftl g 8 + r)%Z.

(** Modelled from the spec: [__inGameColor], which gives a new element its
    id, is a function of the engine and not among the files of the
    pipeline. The spec has the registry "allocate the next unused id from a
    monotonically increasing counter seeded above the built-in id range":
    the id is the counter, and the counter is raised by one. *)
Definition nextUnusedId (counter : Z) : Z * Z := (counter, (counter + 1)%Z).



(** A primitive to evaluate on, for a column one cell wide: the grain in
    cell [i] drops into the next cell and leaves [0] behind. *)
Definition sampleGravity (i : Z) (w : list Z * unit) : list Z * unit :=
  match fst w !! Z.to_nat i with
  | Some grain =>
      if (0 <=? i)%Z then
        (<[Z.to_nat i := 0%Z]> (<[Z.to_nat (i + 1) := grain]> (fst w)), snd w)
      else w
  | None => w
  end.

(** A host to evaluate the pipeline on: ids from a counter, a random number
    that is always one half, [doGravity] as above and two primitives that
    leave the world alone, all of which return, and a [Function] constructor
    that refuses a body with the character [@] (the fragment [@] is a
    syntax error for JavaScript as well), takes a body with the statement
    [throw 0;] for the template around a fragment that raises at once, and
    builds a function without effect otherwise. *)
Definition sampleHost : Host :=
  {| EngineState := unit;
     Palette := Z;
     inGameColor := fun _ _ _ => nextUnusedId;
     FIRE := packColor 255 0 10;
     SAND := packColor 223 193 99;
     Math_random := fun e => (0.5%float, e);
     doGravity := fun _ _ i _ _ w => (sampleGravity i w, Normal);
     doDensityLiquid := fun _ _ _ _ _ _ w => (w, Normal);
     doRise := fun _ _ _ _ _ w => (w, Normal);
     compileFunction := fun body =>
       if includes [64%N] body then None
       else if includes (lit "throw 0;") body
            then Some (fun _ _ i w => (sampleGravity i w, Normal))
            else Some (fun _ _ _ w => (w, Normal));
     dynamicNameReplace := fun _ _ _ => None |}.

(** The registry when the page has loaded: no custom particle, the
    counter of the registry at [64], the counter of the ids at [1000],
    [config.initialized] set; the engine's tables are taken empty. *)
Definition emptyRegistry : @State sampleHost :=
  {| customElementColors := ∅;
     customElementActions := ∅;
     nextCustomElementIdx := 64;
     menuNames := ∅;
     elements := [];
     elementActions := [];
     customParticles := ∅;
     initialized := true;
     palette := (1000%Z : @Palette sampleHost) |}.

(** A description with the given name, colour and fragment. *)
Definition particle (n : string) (c : Z * Z * Z) (code : string) : ParticleData :=
  {| name := lit n; color := c; action_code := Text (lit code) |}.

(** A response that names the particle [Goo] and has a green channel out
    of range. *)
Definition sampleReply : ServiceReply :=
  Parsed {| raw_name := Text (lit "Goo");
            raw_color := Triple 40 300 90;
            raw_action_code := Text (lit "doDensityLiquid(x, y, i, SAND, 0.4, 0.2); if (random() < 0.1) { doGravity(x, y, i, true, 0.5); }") |}.

(** What [generateParticle] makes of [sampleReply] for the request
    [slime]: the requested name in upper case, the green channel clamped. *)
Definition sampleDescription : ParticleData :=
  {| name := lit "SLIME";
     color := (40, 255, 90)%Z;
     action_code := Text (lit "doDensityLiquid(x, y, i, SAND, 0.4, 0.2); if (random() < 0.1) { doGravity(x, y, i, true, 0.5); }") |}.

(** ** Colours *)

(** The colour each branch of [adjustColorForUniqueness] leaves in place. *)
Definition fixedColor (name : str) : Color :=
  if isFireName name then (255, 255, 255)%Z
  else if isWaterName name then (255, 255, 150)%Z
  else if isPlantName name then (255, 100, 255)%Z
  else (51, 51, 51)%Z.

(** The channel values [lo], ..., [lo + n - 1]. *)
Definition channels (lo n : nat) : list Z := map Z.of_nat (seq lo n).

Definition inChannel (c : Z) : Prop := (0 <= c <= 255)%Z.

(** ** Sessions *)

(** What a step has added to the engine's tables: the ids [ids] behind
    [elements], as many callables behind [elementActions], the counter
    raised by their number, and a callable and a menu name entered for each
    of the ids. *)
Definition grownBy `{Host} (st st' : State) (ids : list Z) : Prop :=
  elements st' = elements st ++ ids
  /\ (exists fs, elementActions st' = elementActions st ++ fs
                 /\ length fs = length ids)
  /\ nextCustomElementIdx st' = (nextCustomElementIdx st + Z.of_nat (length ids))%Z
  /\ Forall (fun c => is_Some (customElementActions st' !! c)
                      /\ is_Some (menuNames st' !! c)) ids.

(** What a step keeps: the colour of every name that has one, every
    callable's key, every menu name's key and the stored descriptions' keys. *)
Definition extends `{Host} (st st' : State) : Prop :=
  (forall n c, getElementColorFromName st n = Some c ->
               getElementColorFromName st' n = Some c)
  /\ (forall n, is_Some (customElementColors st !! n) ->
                is_Some (customElementColors st' !! n))
  /\ (forall c, is_Some (customElementActions st !! c) ->
                is_Some (customElementActions st' !! c))
  /\ (forall c, is_Some (menuNames st !! c) -> is_Some (menuNames st' !! c))
  /\ initialized st' = initialized st.

(** A registration of a new name. *)
Definition ash : ParticleData :=
  particle "ASH" (90, 90, 90)%Z "doGravity(x, y, i, true, 0.5);".

(** A submission and a click on the test button. *)
Definition sampleSession : list Event :=
  [Submit (lit " slime ") sampleReply; ClickTest].

(** ** Texts and numerals *)

(** The braces of [s] pair up when [d] braces are open before it. *)
Fixpoint balanced (d : nat) (s : str) : bool :=
  match s with
  | [] => (d =? 0)%nat
  | c :: s' =>
      if (c =? 123)%N then balanced (S d) s'
      else if (c =? 125)%N then
        match d with
        | O => false
        | S d' => balanced d' s'
        end
      else balanced d s'
  end.

(** The digits of a decimal numeral, read from the left after [acc]. *)
Fixpoint uintValue (acc : Z) (d : Decimal.uint) : Z :=
  match d with
  | Decimal.Nil => acc
  | Decimal.D0 l => uintValue (10 * acc + 0) l
  | Decimal.D1 l => uintValue (10 * acc + 1) l
  | Decimal.D2 l => uintValue (10 * acc + 2) l
  | Decimal.D3 l => uintValue (10 * acc + 3) l
  | Decimal.D4 l => uintValue (10 * acc + 4) l
  | Decimal.D5 l => uintValue (10 * acc + 5) l
  | Decimal.D6 l => uintValue (10 * acc + 6) l
  | Decimal.D7 l => uintValue (10 * acc + 7) l
  | Decimal.D8 l => uintValue (10 * acc + 8) l
  | Decimal.D9 l => uintValue (10 * acc + 9) l
  end.

(** ** Characters a pattern cannot consume *)

(** The atom [a] may consume the character [c]. *)
Definition accepts (a : atom) (c : N) : bool :=
  match a with
  | Lit x => (c =? x)%N
  | Cls f | Star f | Plus f => f c
  end.

(** No atom of [Q] may consume [c]. *)
Definition foreign (Q : pattern) (c : N) : bool :=
  forallb (fun a => negb (accepts a c)) Q.

(** The text of [explosionTemplate] before and behind the fragment. *)
Definition explosionHead : str := firstn 568 (explosionTemplate []).
Definition explosionTail : str := skipn 568 (explosionTemplate []).

(** ** Neighbour writes *)

(** What [arrayAccessReplacer] makes of the identifier a neighbour write
    assigns. *)
Definition assigned (elementColor : Z) (elementName : str) : str :=
  if eqStr elementName (lit "FIRE") || eqStr elementName (lit "BACKGROUND")
  then elementName
  else if eqStr elementName (lit "THIS_ELEMENT_COLOR") then toString elementColor
  else if isKnownElement elementName then elementName
  else lit "FIRE".

(** The pieces of the neighbour write [gameImagedata32[i + width] = SLIME ;]. *)
Definition sampleWrite : list str :=
  from_option (fun ps => ps) []
    (matchAt arrayAccessPattern (lit "gameImagedata32[i + width] = SLIME ; x")).


(** ** Floating-point signs *)

(** The sign bit of the number is clear (or it is no number at all). *)
Definition unsigned (f : spec_float) : bool :=
  match f with
  | S754_nan => true
  | S754_zero s | S754_infinity s | S754_finite s _ _ => negb s
  end.

(** ** Buttons *)

(** The button [addCustomElementToMenu] makes. *)
Definition menuButton (elementName : str) (elementColor : Z) : Menu.Button :=
  let '(r, g, b) := getColorComponents elementColor in
  {| Menu.textContent := elementName;
     Menu.style_color := Menu.rgb r g b;
     Menu.id := toString elementColor |}.

(** ** A fragment and what the rewriter makes of it for [ant] and the
    colour [77] *)

Definition sampleFragment : str :=
  lit "if (bordering (x , y,i, FIRE )) { gameImagedata32[i-1] = ANT; gameImagedata32[i + width] = FOO ; gameImagedata32[i+1] = WATER; }".

Definition sampleRewritten : str :=
  lit "if (adjacent(x, i, FIRE) || below(y, i, FIRE) || above(y, i, FIRE)) { gameImagedata32[i-1] = 77; gameImagedata32[i + width] = FIRE ; gameImagedata32[i+1] = WATER; }".


(** ** The text of a response *)

(** The continuation behind [\{[\s\S]*]: a closing brace. *)
Definition closing : str -> str -> option str :=
  Response.text (lit "}") (fun matched _ => Some matched).

(** The continuation behind the group of a fenced block: white space and
    the closing fence. *)
Definition closingFence (group : str) : str -> str -> option (str * str) :=
  Response.spaces
    (Response.text (lit "```") (fun matched _ => Some (matched, group))).

(** [piece j s]: the text [j] is a contiguous piece of the text [s]. *)
Definition piece (j s : str) : Prop := exists a b, s = a ++ j ++ b.

(** ** The similarity of colours *)

(** The sum of the squares of the differences of the channels. *)
Definition squaredDistance (c e : Color) : Z :=
  let '(r, g, b) := c in
  let '(er, eg, eb) := e in
  ((r - er) * (r - er) + (g - eg) * (g - eg) + (b - eb) * (b - eb))%Z.

Definition inChannels (c : Color) : Prop :=
  let '(r, g, b) := c in inChannel r /\ inChannel g /\ inChannel b.

(** The squares of 0..255, as the number the source computes with and as
    an integer. *)
Definition squares : list (float * Z) :=
  map (fun i => (ofZ (i * i), (i * i)%Z)) (channels 0 256).

(** The similarity test on every three of the squares [sq], against the
    integers. *)
Definition thresholdHolds (sq : list (float * Z)) : bool :=
  forallb (fun a => forallb (fun b =>
     let f := (fst a + fst b)%float in
     let z := (3600 - (snd a + snd b))%Z in
     forallb (fun c =>
       Bool.eqb (PrimFloat.ltb (PrimFloat.sqrt (f + fst c)%float) 60)
                (snd c <? z)%Z) sq) sq) sq.

(** The squares of the differences of the channels [cs], against the
    integers. *)
Definition differenceHolds (cs : list Z) : bool :=
  forallb (fun r => forallb (fun er =>
     PrimFloat.Leibniz.eqb
       (Math_pow2 (ofZ r - ofZ er))
       (ofZ (Z.abs (r - er) * Z.abs (r - er)))) cs) cs.

(** ** A plain fragment *)

(** A fragment that mentions nothing the rewriter looks for. *)
Definition plainFragment : str :=
  lit "if (Math.random() < 0.5) { doGravity(x, y, i, true, 0.9); }".

(** ** Registrations one after the other *)



(** ** Compiled functions *)

(** The runtime makes of the text [body] a function that behaves as [g]. *)
Definition compiledAs `{Host} (body : str) (g : Action) : Prop :=
  exists g', compileFunction body = Some g'
             /\ forall x y i w, g' x y i w = g x y i w.

(** The world as [Math.random()] leaves it, and whether the number drawn
    is below one tenth. *)
Definition afterRandom `{Host} (w : World) : World :=
  (fst w, snd (Math_random (snd w))).

Definition belowTenth `{Host} (w : World) : bool :=
  (fst (Math_random (snd w)) <? 0.1)%float.

(** A fragment that does nothing but raise, a world of three cells, and an
    explosive whose fragment raises (the comment keeps the rewriter from
    putting the fragment inside its explosion check). *)
Definition raising `{Host} : Action := fun _ _ _ w => (w, Throw (lit "0")).

(** A fragment that does not return. *)
Definition unending `{Host} : Action := fun _ _ _ w => (w, NoReturn).

Definition threeCells : @World sampleHost := ([5; 5; 5]%Z, tt).

Definition brokenFragment : str :=
  lit "// no check for fire here: the next statement raises an error
throw 0;".

Definition brokenTNT : ParticleData :=
  {| name := lit "TNT"; color := (255, 60, 30)%Z;
     action_code := Text brokenFragment |}.



(** * Properties *)

(** ** Sample runs of the model *)

Example sanitize_sample :
  sanitizeActionCode
    (lit "while  (x) { for(;;) eval (1); new  Function; window.a; function  f (a) }")
  = lit "if(x) { if(;;) console.log(1); console.log; void_a; a) }".
Proof. vm_compute. reflexivity. Qed.

(** ['a12b'.replace(/\d*/g, '-')]: an empty match is replaced too and the
    scan moves on by one character. *)
Example replace_empty_match_sample :
  replaceAll [Star isDigit] (lit "-") (lit "a12b") = lit "-a--b-".
Proof. vm_compute. reflexivity. Qed.

(** The first rule removes text and the parts around it join into a loop
    keyword, which the second rule then finds. *)
Example sanitize_splice_sample :
  sanitizeActionCode (lit "whfunction a(ile (x) { y(); }") = lit "if(x) { y(); }".
Proof. vm_compute. reflexivity. Qed.

Example replace_word_sample :
  replaceWith (matchWord (lit "TNT")) (fun _ => lit "X")
    (lit "TNT aTNT TNT_ (TNT) TNT")
  = lit "X aTNT TNT_ (X) X".
Proof. vm_compute. reflexivity. Qed.

Example extract_body_sample :
  extractFunctionBody (lit "function f(x) { if (a) { b } c } d")
  = lit "if (a) { b } c".
Proof. vm_compute. reflexivity. Qed.

Example rewrite_sample :
  preprocessActionCode (H := sampleHost)
    (lit "if (bordering (x , y,i, FIRE )) { gameImagedata32[i-1] = ANT; gameImagedata32[i + width] = FOO ; gameImagedata32[i+1] = WATER; }")
    (lit "ant") 77
  = Some (lit "if (adjacent(x, i, FIRE) || below(y, i, FIRE) || above(y, i, FIRE)) { gameImagedata32[i-1] = 77; gameImagedata32[i + width] = FIRE ; gameImagedata32[i+1] = WATER; }").
Proof. vm_compute. reflexivity. Qed.

Example round_sample :
  Math_round 2.5 = 3%Z /\ Math_round (-2.5) = (-2)%Z
  /\ Math_round 0.49999999999999994 = 0%Z /\ Math_round 204.00000000000003 = 204%Z.
Proof. repeat split; vm_compute; reflexivity. Qed.

Example pack_components_sample :
  getColorComponents (packColor 10 20 30) = (10, 20, 30)%Z.
Proof. vm_compute. reflexivity. Qed.

(** ** The matcher *)

Lemma star_shape f k s l :
  star f k s = Some l -> exists p ps, l = p :: ps.
Proof.
  revert l. induction s as [|c s IH]; intros l; simpl.
  - destruct (k []); simpl; [|discriminate]. intros [= <-]. eauto.
  - destruct (f c).
    + destruct (star f k s) as [[|q qs]|]; simpl.
      * destruct (k (c :: s)); simpl; [|discriminate]. intros [= <-]. eauto.
      * intros [= <-]. eauto.
      * destruct (k (c :: s)); simpl; [|discriminate]. intros [= <-]. eauto.
    + destruct (k (c :: s)); simpl; [|discriminate]. intros [= <-]. eauto.
Qed.

(** What [star] returns: the run it took, then what the continuation
    returned on the rest. *)
Lemma star_sound f k s l :
  star f k s = Some l ->
  exists p ps t, l = p :: ps /\ forallb f p = true /\ s = p ++ t /\ k t = Some ps.
Proof.
  revert l. induction s as [|c s IH]; intros l; simpl.
  - destruct (k []) eqn:E; simpl; [|discriminate]. intros [= <-].
    exists [], l0, []. auto.
  - assert (Hk : emptyPiece (k (c :: s)) = Some l ->
      exists p ps t, l = p :: ps /\ forallb f p = true /\ c :: s = p ++ t /\ k t = Some ps).
    { destruct (k (c :: s)) eqn:E; simpl; [|discriminate]. intros [= <-].
      exists [], l0, (c :: s). auto. }
    destruct (f c) eqn:Fc; [|exact Hk].
    destruct (star f k s) as [[|q qs]|] eqn:E; simpl; try exact Hk.
    intros [= <-]. destruct (IH _ eq_refl) as (p & ps & t & [= -> ->] & Hp & -> & Ht).
    exists (c :: p), ps, t. simpl. rewrite Fc, Hp. auto.
Qed.

(** The pieces [matchAt] returns are a text of the pattern at the head of
    the input. *)
Lemma matchAt_sound pat : forall s ps,
  matchAt pat s = Some ps -> matches pat ps /\ exists t, s = concat ps ++ t.
Proof.
  induction pat as [|a pat IH]; intros s ps; simpl.
  - intros [= <-]. split; [constructor|]. exists s. reflexivity.
  - destruct a as [c|f|f|f].
    + destruct s as [|x s]; [discriminate|].
      destruct (N.eqb_spec x c) as [->|]; [|discriminate].
      destruct (matchAt pat s) as [qs|] eqn:E; simpl; [|discriminate].
      intros [= <-]. destruct (IH _ _ E) as [Hm [t ->]].
      split; [constructor; simpl; auto|]. exists t. reflexivity.
    + destruct s as [|x s]; [discriminate|].
      destruct (f x) eqn:Fx; [|discriminate].
      destruct (matchAt pat s) as [qs|] eqn:E; simpl; [|discriminate].
      intros [= <-]. destruct (IH _ _ E) as [Hm [t ->]].
      split; [constructor; simpl; eauto|]. exists t. reflexivity.
    + intros Hs. destruct (star_sound _ _ _ _ Hs) as (p & qs & t & -> & Hp & -> & Ht).
      destruct (IH _ _ Ht) as [Hm [t' ->]].
      split; [constructor; simpl; auto|]. exists t'. simpl. now rewrite app_assoc.
    + destruct s as [|x s]; [discriminate|].
      destruct (f x) eqn:Fx; [|discriminate].
      destruct (star f (matchAt pat) s) as [[|q qs]|] eqn:E; simpl; try discriminate.
      intros [= <-]. destruct (star_sound _ _ _ _ E) as (p & qs' & t & [= -> ->] & Hp & -> & Ht).
      destruct (IH _ _ Ht) as [Hm [t' ->]].
      split.
      * constructor; [|exact Hm]. simpl. rewrite Fx, Hp. split; [discriminate|reflexivity].
      * exists t'. simpl. now rewrite app_assoc.
Qed.

Lemma star_some_k f k s : is_Some (k s) -> is_Some (star f k s).
Proof.
  intros [l Hl]. destruct s as [|c s]; simpl; rewrite ?Hl; simpl; eauto.
  destruct (f c); [|simpl; eauto].
  destruct (consPiece c (star f k s)); simpl; eauto.
Qed.

Lemma star_complete f k p t :
  forallb f p = true -> is_Some (k t) -> is_Some (star f k (p ++ t)).
Proof.
  intros Hp Hk. induction p as [|c p IH]; simpl.
  - now apply star_some_k.
  - simpl in Hp. apply andb_true_iff in Hp as [Fc Hp]. rewrite Fc.
    destruct (IH Hp) as [l Hl]. rewrite Hl.
    destruct (star_shape _ _ _ _ Hl) as (q & qs & ->). simpl. eauto.
Qed.

(** Backtracking finds a match wherever the input begins with a text of
    the pattern. *)
Lemma matchAt_complete pat ps t :
  matches pat ps -> is_Some (matchAt pat (concat ps ++ t)).
Proof.
  intros Hm. induction Hm as [|a p pat ps Ha Hm IH]; simpl; [eauto|].
  rewrite <- app_assoc.
  destruct a as [c|f|f|f]; simpl in Ha.
  - subst p. simpl. rewrite N.eqb_refl. destruct IH as [l ->]. simpl. eauto.
  - destruct Ha as (x & -> & Fx). simpl. rewrite Fx. destruct IH as [l ->]. simpl. eauto.
  - now apply star_complete.
  - destruct Ha as [Hne Hp]. destruct p as [|x p]; [congruence|].
    simpl in Hp. apply andb_true_iff in Hp as [Fx Hp]. simpl. rewrite Fx.
    destruct (star_complete f (matchAt pat) p (concat ps ++ t) Hp IH) as [l Hl].
    rewrite Hl. destruct (star_shape _ _ _ _ Hl) as (q & qs & ->). simpl. eauto.
Qed.

Lemma matchAt_headMatch pat s :
  is_Some (matchAt pat s) <-> headMatch pat s.
Proof.
  split.
  - intros [ps Hps]. destruct (matchAt_sound _ _ _ Hps) as [Hm [t ->]].
    exists ps, t. auto.
  - intros (ps & t & Hm & ->). now apply matchAt_complete.
Qed.

(** [occurs] decides [occ]. *)
Lemma occurs_occ pat s : occurs pat s = true <-> occ pat s.
Proof.
  induction s as [|c s IH]; simpl.
  - destruct (matchAt pat []) eqn:E.
    + split; [|auto]. intros _. exists [], []. split; [reflexivity|].
      apply matchAt_headMatch. rewrite E. eauto.
    + split; [discriminate|]. intros (a & t & Hs & Hh).
      symmetry in Hs. apply app_eq_nil in Hs as [-> ->].
      apply matchAt_headMatch in Hh. rewrite E in Hh. now destruct Hh.
  - destruct (matchAt pat (c :: s)) eqn:E.
    + split; [|auto]. intros _. exists [], (c :: s). split; [reflexivity|].
      apply matchAt_headMatch. rewrite E. eauto.
    + rewrite IH. split.
      * intros (a & t & -> & Hh). exists (c :: a), t. auto.
      * intros (a & t & Hs & Hh). destruct a as [|x a]; simpl in Hs.
        -- subst t. apply matchAt_headMatch in Hh. rewrite E in Hh. now destruct Hh.
        -- injection Hs as -> ->. exists a, t. auto.
Qed.

(** ** Scans *)

Lemma last_snoc_cons (l : str) c M : last (l ++ c :: M) = last (c :: M).
Proof.
  rewrite last_app. destruct (last (c :: M)) eqn:E; [reflexivity|].
  apply last_None in E. discriminate.
Qed.

(** After the characters of a match the scan resumes with the last of
    them as the character before. *)
Lemma replaceFrom_skip m rho M : forall prev t,
  replaceFrom m rho (length M) prev (M ++ t)
  = replaceFrom m rho 0 (last (option_list prev ++ M)) t.
Proof.
  induction M as [|c M IH]; intros prev t.
  - rewrite app_nil_r. simpl. destruct prev; reflexivity.
  - simpl. rewrite IH. simpl. f_equal. symmetry. apply last_snoc_cons.
Qed.

(** [replaceFrom] builds its result along a derivation of [scan]. *)
Lemma replaceFrom_scan m rho (Hm : proper m) : forall n s prev,
  (length s <= n)%nat -> scan m rho prev s (replaceFrom m rho 0 prev s).
Proof.
  induction n as [|n IH]; intros s prev Hn.
  - destruct s; [|simpl in Hn; lia]. simpl.
    destruct (m prev []) as [ps|] eqn:E; [|constructor].
    destruct (Hm _ _ _ E) as [Hne [t Ht]]. symmetry in Ht.
    apply app_eq_nil in Ht as [Ht _]. congruence.
  - destruct s as [|c s].
    + simpl. destruct (m prev []) as [ps|] eqn:E; [|constructor].
      destruct (Hm _ _ _ E) as [Hne [t Ht]]. symmetry in Ht.
      apply app_eq_nil in Ht as [Ht _]. congruence.
    + simpl in Hn. simpl. destruct (m prev (c :: s)) as [ps|] eqn:E.
      * destruct (Hm _ _ _ E) as [Hne [t Ht]].
        destruct (concat ps) as [|x M] eqn:EM; [congruence|].
        simpl in Ht. injection Ht as <- ->. simpl.
        rewrite replaceFrom_skip.
        pose proof (scan_match m rho prev ps t
          (replaceFrom m rho 0 (last (option_list prev ++ concat ps)) t)) as S.
        rewrite EM in S. rewrite last_snoc_cons in S. apply S.
        -- exact E.
        -- discriminate.
        -- apply IH. rewrite length_app in Hn. lia.
      * apply scan_copy; [exact E|]. apply IH. lia.
Qed.

Lemma replaceWith_scan m rho s :
  proper m -> scan m rho None s (replaceWith m rho s).
Proof. intros Hm. now apply (replaceFrom_scan m rho Hm (length s)). Qed.

Lemma consuming_nonempty Q ps :
  consuming Q = true -> matches Q ps -> concat ps <> [].
Proof.
  intros Hc Hm. induction Hm as [|a p Q ps Ha Hm IH]; [discriminate|].
  simpl in Hc. simpl. intros E. apply app_eq_nil in E as [-> E].
  destruct a; simpl in Hc, Ha.
  - discriminate Ha.
  - destruct Ha as (x & Hx & _). discriminate Hx.
  - exact (IH Hc E).
  - destruct Ha as [Hne _]. congruence.
Qed.

Lemma ofPattern_proper Q : consuming Q = true -> proper (ofPattern Q).
Proof.
  intros Hc prev s ps Hs. unfold ofPattern in Hs.
  destruct (matchAt_sound _ _ _ Hs) as [Hm Ht].
  split; [|exact Ht]. eapply consuming_nonempty; eauto.
Qed.

(** *** The overlap check is sound *)

Lemma cmpStar_sound f (k : str -> bool) (P : list str -> Prop) :
  (forall X, k X = false -> forall ps t b, P ps -> concat ps ++ t = X ++ b -> False) ->
  forall X, cmpStar f k X = false ->
  forall p ps t b, forallb f p = true -> P ps ->
    (p ++ concat ps) ++ t = X ++ b -> False.
Proof.
  intros Hk X. induction X as [|x X IH]; simpl; [discriminate|].
  intros Hx p ps t b Hp HP Heq.
  apply orb_false_iff in Hx as [Hk0 Hx].
  destruct p as [|y p]; simpl in *.
  - eapply (Hk _ Hk0); eauto.
  - injection Heq as -> Heq. apply andb_true_iff in Hp as [Fx Hp].
    rewrite Fx in Hx. simpl in Hx. eapply IH; eauto.
Qed.

(** Where [cmp] says no, no text of the pattern is a prefix of [X]
    followed by anything, and [X] is no prefix of such a text. *)
Lemma cmp_sound Q : forall X, cmp Q X = false ->
  forall ps t b, matches Q ps -> concat ps ++ t = X ++ b -> False.
Proof.
  induction Q as [|a Q IH]; intros X HX ps t b Hm Heq; [discriminate|].
  inversion Hm as [|a' p Q' ps' Ha Hm']; subst. simpl in Heq.
  destruct a as [c|f|f|f]; simpl in HX, Ha.
  - destruct X as [|x X]; [discriminate|]. subst p. simpl in Heq.
    injection Heq as <- Heq. rewrite N.eqb_refl in HX. eauto.
  - destruct X as [|x X]; [discriminate|]. destruct Ha as (y & -> & Fy).
    simpl in Heq. injection Heq as <- Heq. rewrite Fy in HX. eauto.
  - eapply (cmpStar_sound f (cmp Q) (matches Q)); eauto.
  - destruct X as [|x X]; [discriminate|]. destruct Ha as [Hne Hp].
    destruct p as [|y p]; [congruence|]. simpl in Heq, Hp.
    injection Heq as <- Heq. apply andb_true_iff in Hp as [Fy Hp].
    rewrite Fy in HX. simpl in HX.
    eapply (cmpStar_sound f (cmp Q) (matches Q)); eauto.
Qed.

Lemma relax_matches Q ps : matches Q ps -> matches (relax Q) ps.
Proof.
  intros Hm. induction Hm as [|a p Q ps Ha Hm IH]; simpl; constructor; auto.
  destruct a; simpl in *; auto. tauto.
Qed.

Lemma forallb_app_r (f : N -> bool) p q :
  forallb f (p ++ q) = true -> forallb f q = true.
Proof. rewrite forallb_app. intros H. now apply andb_true_iff in H. Qed.

(** The rest of a match behind any of its proper prefixes is a text of a
    tail of the relaxed pattern. *)
Lemma tail_split Q ps : matches Q ps -> forall a T,
  concat ps = a ++ T -> T <> [] ->
  exists k ps', (k < length Q)%nat /\ matches (skipn k (relax Q)) ps' /\ concat ps' = T.
Proof.
  intros Hm. induction Hm as [|q p Q ps Hq Hm IH]; intros a T Heq HT.
  - simpl in Heq. symmetry in Heq. apply app_eq_nil in Heq as [_ ->]. congruence.
  - simpl in Heq. apply app_eq_app in Heq as [l [[-> ->]|[-> Hl]]].
    + (* a ends inside p: p = a ++ l *)
      destruct l as [|x l].
      * (* boundary: T = concat ps *)
        rewrite app_nil_r in *. simpl in *.
        destruct (IH [] (concat ps) eq_refl HT) as (k & ps' & Hk & Hm' & Hc).
        exists (S k), ps'. simpl. split; [lia|]. auto.
      * exists 0%nat, ((x :: l) :: ps). simpl. split; [lia|]. split; [|reflexivity].
        constructor; [|now apply relax_matches].
        destruct q as [c|f|f|f]; simpl in *.
        -- destruct a; [exact Hq|]. injection Hq as _ Hq.
           apply app_eq_nil in Hq as [_ Hq]. discriminate.
        -- destruct Hq as (y & Hy & Fy). destruct a; [eauto|].
           injection Hy as _ Hy. apply app_eq_nil in Hy as [_ Hy]. discriminate.
        -- exact (forallb_app_r f a (x :: l) Hq).
        -- destruct Hq as [_ Hq]. exact (forallb_app_r f a (x :: l) Hq).
    + destruct (IH l T Hl HT) as (k & ps' & Hk & Hm' & Hc).
      exists (S k), ps'. simpl. split; [lia|]. auto.
Qed.

Lemma overlapFree_noOverlap Q R : overlapFree Q R = true -> noOverlap Q R.
Proof.
  intros H. apply andb_true_iff in H as [H1 _].
  intros a b ps t Hm Heq.
  destruct (le_lt_dec (length (concat ps)) (length a)) as [|Hlt]; [assumption|exfalso].
  apply app_eq_app in Heq as [l [[-> Ht]|[Hc Hb]]].
  - rewrite length_app in Hlt. lia.
  - destruct l as [|x l]; [rewrite app_nil_r in Hc; rewrite Hc in Hlt; lia|].
    destruct (tail_split Q ps Hm a (x :: l) Hc ltac:(discriminate)) as (k & ps' & Hk & Hm' & Hc').
    rewrite forallb_forall in H1.
    specialize (H1 k). rewrite in_seq in H1.
    assert (Hn : negb (cmp (skipn k (relax Q)) R) = true) by (apply H1; lia).
    apply negb_true_iff in Hn.
    eapply (cmp_sound _ _ Hn ps' t b Hm'). rewrite Hc'. symmetry. exact Hb.
Qed.

Lemma overlapFree_noInner Q R : overlapFree Q R = true -> noInner Q R.
Proof.
  intros H. apply andb_true_iff in H as [_ H2].
  intros R1 R2 b -> HR2 (ps & t & Hm & Heq).
  rewrite forallb_forall in H2. specialize (H2 (length R1)).
  rewrite in_seq in H2.
  assert (Hn : negb (cmp Q (skipn (length R1) (R1 ++ R2))) = true).
  { apply H2. rewrite length_app. destruct R2; [congruence|simpl; lia]. }
  rewrite skipn_app, Nat.sub_diag, skipn_all in Hn. simpl in Hn.
  apply negb_true_iff in Hn. eapply (cmp_sound _ _ Hn); eauto.
Qed.

(** ** Replacement and occurrences *)

Lemma headMatch_prefix Q p s s' :
  headMatch Q (p ++ s) ->
  (forall ps t, matches Q ps -> p ++ s = concat ps ++ t ->
     (length (concat ps) <= length p)%nat) ->
  headMatch Q (p ++ s').
Proof.
  intros (ps & t & Hm & Heq) Hlen.
  specialize (Hlen ps t Hm Heq).
  apply app_eq_app in Heq as [l [[-> Ht]|[Hc Hs]]].
  - exists ps, (l ++ s'). split; [exact Hm|]. now rewrite app_assoc.
  - rewrite Hc, length_app in Hlen. destruct l; [|simpl in Hlen; lia].
    rewrite app_nil_r in Hc. subst p. exists ps, s'. auto.
Qed.

(** A match of [Q] at the head of the output existed in the input. *)
Lemma scan_headMatch Q R m prev s o :
  noOverlap Q R ->
  scan m (fun _ => R) prev s o ->
  forall p, headMatch Q (p ++ o) -> headMatch Q (p ++ s).
Proof.
  intros HQ Hs. induction Hs as [prev|prev c s o Hn Hs IH|prev ps t o Hp Hne Hs IH];
    intros p Hh.
  - exact Hh.
  - change (p ++ c :: s) with (p ++ [c] ++ s). rewrite app_assoc.
    apply IH. rewrite <- app_assoc. exact Hh.
  - eapply headMatch_prefix; [exact Hh|].
    intros qs u Hm Heq. eapply HQ; eauto.
Qed.

Lemma occ_cons Q c s : occ Q s -> occ Q (c :: s).
Proof. intros (a & t & -> & Hh). exists (c :: a), t. auto. Qed.

Lemma occ_app Q a s : occ Q s -> occ Q (a ++ s).
Proof. induction a; simpl; auto using occ_cons. Qed.

(** Replacing by [R] brings no occurrence of [Q] into the text. *)
Lemma scan_preserves Q R m prev s o :
  noOverlap Q R -> noInner Q R ->
  scan m (fun _ => R) prev s o ->
  occ Q o -> occ Q s.
Proof.
  intros HQ HI Hs. induction Hs as [prev|prev c s o Hn Hs IH|prev ps t o Hp Hne Hs IH];
    intros (a & u & Heq & Hh).
  - exists a, u. auto.
  - destruct a as [|x a]; simpl in Heq.
    + subst u. exists [], (c :: s). split; [reflexivity|].
      apply (scan_headMatch Q R m prev (c :: s) (c :: o) HQ
               (scan_copy _ _ _ _ _ _ Hn Hs) []). exact Hh.
    + injection Heq as <- ->. apply occ_cons. apply IH. exists a, u. auto.
  - apply occ_app. apply app_eq_app in Heq as [l [[-> Hu]|[-> Ho]]].
    + destruct l as [|x l].
      * rewrite app_nil_r in *. simpl in Hu. subst u.
        apply IH. exists [], o. auto.
      * exfalso. eapply (HI a (x :: l) o eq_refl); [discriminate|].
        rewrite <- Hu. exact Hh.
    + apply IH. exists l, u. auto.
Qed.

(** Replacing the matches of [Q] leaves none. *)
Lemma scan_clean Q R prev s o :
  consuming Q = true ->
  noOverlap Q R -> noInner Q R ->
  scan (ofPattern Q) (fun _ => R) prev s o ->
  ~ occ Q o.
Proof.
  intros Hc HQ HI Hs.
  induction Hs as [prev|prev c s o Hn Hs IH|prev ps t o Hp Hne Hs IH];
    intros (a & u & Heq & Hh).
  - symmetry in Heq. apply app_eq_nil in Heq as [-> ->].
    destruct Hh as (ps & t & Hm & Heq). symmetry in Heq.
    apply app_eq_nil in Heq as [Heq _].
    exact (consuming_nonempty Q ps Hc Hm Heq).
  - destruct a as [|x a]; simpl in Heq.
    + subst u.
      assert (Hh' : headMatch Q ([] ++ c :: s)).
      { apply (scan_headMatch Q R (ofPattern Q) prev (c :: s) (c :: o) HQ
                 (scan_copy _ _ _ _ _ _ Hn Hs) []). exact Hh. }
      apply matchAt_headMatch in Hh'. unfold ofPattern in Hn. simpl in Hh'.
      rewrite Hn in Hh'. now destruct Hh'.
    + injection Heq as <- ->. apply IH. exists a, u. auto.
  - apply app_eq_app in Heq as [l [[-> Hu]|[-> Ho]]].
    + destruct l as [|x l].
      * rewrite app_nil_r in *. simpl in Hu. subst u.
        apply IH. exists [], o. auto.
      * eapply (HI a (x :: l) o eq_refl); [discriminate|].
        rewrite <- Hu. exact Hh.
    + apply IH. exists l, u. auto.
Qed.

(** Without an occurrence there is nothing to replace. *)
Lemma replaceFrom_absent Q rho : forall s prev,
  occurs Q s = false -> replaceFrom (ofPattern Q) rho 0 prev s = s.
Proof.
  induction s as [|c s IH]; intros prev; simpl; unfold ofPattern.
  - destruct (matchAt Q []); [discriminate|reflexivity].
  - destruct (matchAt Q (c :: s)); [discriminate|].
    intros Hs. f_equal. apply IH. exact Hs.
Qed.

Lemma replaceAll_absent Q R s : occurs Q s = false -> replaceAll Q R s = s.
Proof. apply replaceFrom_absent. Qed.

Lemma occurs_false Q s : occurs Q s = false <-> ~ occ Q s.
Proof.
  rewrite <- occurs_occ. destruct (occurs Q s); split; auto; try discriminate.
  intros H. now contradiction H.
Qed.

Lemma replaceAll_clean Q R s :
  consuming Q = true -> overlapFree Q R = true ->
  occurs Q (replaceAll Q R s) = false.
Proof.
  intros Hc Ho. apply occurs_false.
  eapply scan_clean; eauto using overlapFree_noOverlap, overlapFree_noInner.
  apply replaceWith_scan. now apply ofPattern_proper.
Qed.

Lemma replaceAll_preserves Q P R s :
  consuming P = true -> overlapFree Q R = true ->
  occurs Q s = false -> occurs Q (replaceAll P R s) = false.
Proof.
  intros Hc Ho. rewrite !occurs_false. intros Hs Hocc. apply Hs.
  eapply scan_preserves; eauto using overlapFree_noOverlap, overlapFree_noInner.
  apply replaceWith_scan. now apply ofPattern_proper.
Qed.

Lemma applyRules_preserves Q rs : forall s,
  forallb (fun r' => consuming (fst r') && overlapFree Q (snd r')) rs = true ->
  occurs Q s = false -> occurs Q (applyRules rs s) = false.
Proof.
  induction rs as [|r rs IH]; intros s H Hs; simpl in *; [exact Hs|].
  apply andb_true_iff in H as [H1 H2]. apply andb_true_iff in H1 as [Hc Ho].
  apply IH; [exact H2|]. now apply replaceAll_preserves.
Qed.

(** After the rules of a clean order none of their patterns occurs. *)
Lemma applyRules_clean rs : cleanOrder rs = true ->
  forall s, Forall (fun r => occurs (fst r) (applyRules rs s) = false) rs.
Proof.
  induction rs as [|r rs IH]; intros H s; [constructor|].
  simpl in H. apply andb_true_iff in H as [H H4].
  apply andb_true_iff in H as [H H3]. apply andb_true_iff in H as [H1 H2].
  constructor.
  - simpl. apply applyRules_preserves; [exact H3|]. now apply replaceAll_clean.
  - apply IH. exact H4.
Qed.

Lemma applyRules_absent rs s :
  Forall (fun r => occurs (fst r) s = false) rs -> applyRules rs s = s.
Proof.
  induction 1 as [|r rs Hr _ IH]; simpl; [reflexivity|].
  rewrite replaceAll_absent; assumption.
Qed.

Lemma sanitize_rules code :
  sanitizeActionCode code = applyRules laterRules (replaceAll reFunction [] code).
Proof. reflexivity. Qed.

(** The nine rules behind the first are in a clean order: 45 pairs of a
    pattern and a replacement text, each checked by [overlapFree]. *)
Lemma laterRules_cleanOrder : cleanOrder laterRules = true.
Proof. vm_compute. reflexivity. Qed.

Lemma sanitize_clean code :
  Forall (fun r => occurs (fst r) (sanitizeActionCode code) = false) laterRules.
Proof. rewrite sanitize_rules. apply applyRules_clean, laterRules_cleanOrder. Qed.

Lemma sanitize_fixed code :
  occurs reFunction (sanitizeActionCode code) = false ->
  sanitizeActionCode (sanitizeActionCode code) = sanitizeActionCode code.
Proof.
  intros Hf. rewrite (sanitize_rules (sanitizeActionCode code)).
  rewrite replaceAll_absent by exact Hf.
  apply applyRules_absent, sanitize_clean.
Qed.

(** ** Survival of a text *)

Lemma eqStr_eq a : forall b, eqStr a b = true <-> a = b.
Proof.
  induction a as [|x a IH]; intros [|y b]; simpl; split; try easy.
  - intros H. apply andb_true_iff in H as [H1 H2].
    apply N.eqb_eq in H1. apply IH in H2. congruence.
  - intros [= -> ->]. rewrite N.eqb_refl. now apply IH.
Qed.

Lemma startsWith_spec p : forall s,
  startsWith p s = true <-> exists t, s = p ++ t.
Proof.
  induction p as [|x p IH]; intros s; simpl.
  - split; eauto.
  - destruct s as [|y s]; simpl.
    + split; [discriminate|]. intros [t Ht]. discriminate.
    + rewrite andb_true_iff, N.eqb_eq, IH. split.
      * intros [-> [t ->]]. eauto.
      * intros [t [= -> ->]]. eauto.
Qed.

(** [includes] decides the presence of a factor. *)
Lemma includes_spec p : forall s,
  includes p s = true <-> exists a b, s = a ++ p ++ b.
Proof.
  induction s as [|c s IH]; simpl.
  - rewrite orb_false_r, startsWith_spec. split.
    + intros [t Ht]. exists [], t. exact Ht.
    + intros (a & b & H). symmetry in H. apply app_eq_nil in H as [-> H].
      exists b. symmetry. exact H.
  - rewrite orb_true_iff, startsWith_spec, IH. split.
    + intros [[t Ht]|(a & b & ->)].
      * exists [], t. exact Ht.
      * exists (c :: a), b. reflexivity.
    + intros (a & b & H). destruct a as [|x a]; simpl in H.
      * left. eauto.
      * injection H as <- ->. right. eauto.
Qed.

Lemma includes_app_l p a b : includes p a = true -> includes p (a ++ b) = true.
Proof.
  rewrite !includes_spec. intros (x & y & ->). exists x, (y ++ b).
  now rewrite <- !app_assoc.
Qed.

Lemma includes_app_r p a b : includes p b = true -> includes p (a ++ b) = true.
Proof.
  rewrite !includes_spec. intros (x & y & ->). exists (a ++ x), y.
  now rewrite <- !app_assoc.
Qed.

Lemma includes_nonempty p s : p <> [] -> includes p s = true -> s <> [].
Proof.
  intros Hp H. apply includes_spec in H as (a & b & ->).
  destruct a; [destruct p; [congruence|discriminate]|discriminate].
Qed.

(** Inside an occurrence of [K] the scan copies. *)
Lemma scan_inside m rho K prev s o :
  disjointFrom m K ->
  scan m rho prev s o ->
  forall K1 K2 b, K = K1 ++ K2 -> s = K2 ++ b -> exists o', o = K2 ++ o'.
Proof.
  intros HK Hs. induction Hs as [prev|prev c s o Hn Hs IH|prev ps t o Hp Hne Hs IH];
    intros K1 K2 b HK12 Heq.
  - symmetry in Heq. apply app_eq_nil in Heq as [-> _]. exists []. reflexivity.
  - destruct K2 as [|x K2]; [exists (c :: o); reflexivity|].
    simpl in Heq. injection Heq as <- ->.
    destruct (IH (K1 ++ [c]) K2 b) as [o' ->]; [now rewrite <- app_assoc|reflexivity|].
    exists o'. reflexivity.
  - destruct K2 as [|x K2]; [exists (rho ps ++ o); reflexivity|].
    exfalso. rewrite Heq in Hp.
    pose proof (HK prev [] K1 (x :: K2) b ps HK12 ltac:(discriminate) (or_introl eq_refl) Hp) as Hl.
    simpl in Hl. destruct (concat ps); [congruence|simpl in Hl; lia].
Qed.

(** An occurrence of [K] survives the replacement of the matches of [m]. *)
Lemma scan_keeps m rho K prev s o :
  disjointFrom m K ->
  scan m rho prev s o ->
  includes K s = true -> includes K o = true.
Proof.
  intros HK Hs Hi. apply includes_spec in Hi as (a & b & Heq).
  revert a Heq.
  induction Hs as [prev|prev c s o Hn Hs IH|prev ps t o Hp Hne Hs IH];
    intros a Heq.
  - apply includes_spec. exists a, b. exact Heq.
  - destruct a as [|x a]; simpl in Heq.
    + destruct (scan_inside m rho K prev (c :: s) (c :: o) HK
                  (scan_copy _ _ _ _ _ _ Hn Hs) [] K b eq_refl Heq) as [o' ->].
      apply includes_spec. exists [], o'. reflexivity.
    + injection Heq as <- ->.
      change (c :: o) with ([c] ++ o). apply includes_app_r. eapply IH. reflexivity.
  - destruct K as [|k K].
    + apply includes_spec. exists [], (rho ps ++ o). reflexivity.
    + apply includes_app_r. rewrite Heq in Hp.
      pose proof (HK prev a [] (k :: K) b ps eq_refl ltac:(discriminate)
                    (or_intror eq_refl) Hp) as Hl.
      apply app_eq_app in Heq as [l [[Hc Ht]|[Hc Hb]]].
      * rewrite Hc, length_app in Hl. destruct l; [|simpl in Hl; lia].
        eapply (IH []). simpl in Ht. simpl. symmetry. exact Ht.
      * eapply IH. exact Hb.
Qed.

Lemma overlapFree_disjoint Q K :
  overlapFree Q K = true -> disjointFrom (ofPattern Q) K.
Proof.
  intros Ho prev a K1 K2 b ps HK HK2 Hor Hm. unfold ofPattern in Hm.
  destruct (matchAt_sound _ _ _ Hm) as [Hps [t Ht]].
  destruct Hor as [->| ->].
  - exfalso. eapply (overlapFree_noInner Q K Ho K1 K2 b HK HK2).
    exists ps, t. auto.
  - simpl in HK. subst K2. eapply (overlapFree_noOverlap Q K Ho); eauto.
Qed.

Lemma matchWord_proper NAME : NAME <> [] -> proper (matchWord NAME).
Proof.
  intros Hne prev s ps. unfold matchWord.
  destruct (startsWith NAME s) eqn:E; simpl; [|discriminate].
  destruct (_ && _); [|discriminate]. intros [= <-].
  simpl. rewrite app_nil_r. split; [exact Hne|].
  now apply startsWith_spec.
Qed.

Lemma upperChar_not_lower c : isLower (upperChar c) = false.
Proof.
  unfold upperChar. destruct (isLower c) eqn:E; [|exact E].
  unfold isLower, inRange in *. apply andb_true_iff in E as [E1 E2].
  apply N.leb_le in E1, E2. apply andb_false_iff. left. apply N.leb_gt. lia.
Qed.

Lemma literalName_char NAME c :
  literalName NAME = true -> In c NAME -> isSyntaxCharacter c = false.
Proof.
  intros Hl Hc. unfold literalName in Hl. apply andb_true_iff in Hl as [_ Hl].
  rewrite forallb_forall in Hl. specialize (Hl c Hc).
  apply andb_true_iff in Hl as [_ Hl]. now apply negb_true_iff.
Qed.

Lemma upperCase_char particleName c :
  In c (toUpperCase particleName) -> isLower c = false.
Proof.
  unfold toUpperCase. intros Hc. apply in_map_iff in Hc as (c0 & <- & _).
  apply upperChar_not_lower.
Qed.

(** A match of the upper-case name shares no character with [if (]. *)
Lemma matchName_disjoint particleName :
  literalName (toUpperCase particleName) = true ->
  disjointFrom (matchWord (toUpperCase particleName)) conditional.
Proof.
  set (NAME := toUpperCase particleName).
  intros Hlit prev a K1 K2 b ps HK HK2 Hor. unfold matchWord.
  destruct (startsWith NAME (a ++ K2 ++ b)) eqn:E; simpl; [|discriminate].
  destruct (boundary prev _) eqn:B1; simpl; [|discriminate].
  destruct (boundary (last _) _) eqn:B2; [|discriminate].
  intros [= <-]. simpl. rewrite app_nil_r.
  destruct (le_lt_dec (length NAME) (length a)) as [|Hlt]; [assumption|exfalso].
  apply startsWith_spec in E as [t Ht].
  apply app_eq_app in Ht as [l [[Ha _]|[Hn Hb]]].
  - rewrite Ha, length_app in Hlt. lia.
  - destruct l as [|x l]; [rewrite Hn, app_nil_r in Hlt; lia|].
    destruct K2 as [|y K2]; [congruence|].
    simpl in Hb. injection Hb as -> Hb.
    assert (Hx : In x NAME) by (rewrite Hn; apply in_or_app; right; left; reflexivity).
    pose proof (upperCase_char particleName x Hx) as Hlow.
    pose proof (literalName_char NAME x Hlit Hx) as Hsyn.
    destruct Hor as [->| ->].
    + (* the name starts inside [if (] *)
      simpl in Hn. change conditional with [105; 102; 32; 40]%N in HK.
      destruct K1 as [|k1 [|k2 [|k3 [|k4 K1]]]]; simpl in HK.
      * assert (x = 105%N) by congruence. subst x. discriminate Hlow.
      * assert (x = 102%N) by congruence. subst x. discriminate Hlow.
      * assert (x = 32%N /\ K2 = [40%N]) as [-> ->] by (split; congruence).
        destruct l as [|z l].
        -- rewrite Hn in B2. simpl in B2. rewrite last_snoc in B2.
           discriminate B2.
        -- simpl in Hb. injection Hb as <- _.
           assert (Hz : In 40%N NAME) by (rewrite Hn; right; left; reflexivity).
           pose proof (literalName_char NAME _ Hlit Hz) as Hz'. discriminate Hz'.
      * assert (x = 40%N) by congruence. subst x. discriminate Hsyn.
      * assert (E : [] = K1 ++ x :: K2) by congruence.
        destruct K1; discriminate E.
    + (* the name runs into [if (] from the left *)
      change conditional with [105; 102; 32; 40]%N in HK. simpl in HK.
      assert (x = 105%N) by congruence. subst x. discriminate Hlow.
Qed.

Lemma replaceWith_keeps m rho K s :
  proper m -> disjointFrom m K ->
  includes K s = true -> includes K (replaceWith m rho s) = true.
Proof.
  intros Hm HK. eapply scan_keeps; [exact HK|]. now apply replaceWith_scan.
Qed.

Lemma replaceAll_keeps Q R K s :
  consuming Q = true -> overlapFree Q K = true ->
  includes K s = true -> includes K (replaceAll Q R s) = true.
Proof.
  intros Hc Ho. apply replaceWith_keeps.
  - now apply ofPattern_proper.
  - now apply overlapFree_disjoint.
Qed.

Lemma template_conditional code particleName elementColor :
  hasTemplate particleName = true ->
  includes conditional
    (enhanceCodeBasedOnName code particleName elementColor) = true.
Proof.
  unfold hasTemplate, enhanceCodeBasedOnName. cbv zeta.
  destruct (_ || _ || includes (lit "STRING") _).
  - intros _. unfold hairTemplate. apply includes_app_r, includes_app_r, includes_app_l.
    vm_compute. reflexivity.
  - destruct (_ || _ || _ || includes (lit "STEAM") _).
    + intros _. unfold gasTemplate. apply includes_app_r, includes_app_r.
      vm_compute. reflexivity.
    + destruct (_ || _ || _ || _ || includes (lit "BLOOD") _).
      * intros _. unfold liquidTemplate.
        do 4 apply includes_app_r. apply includes_app_l. vm_compute. reflexivity.
      * simpl. discriminate.
Qed.

(** ** The registry *)

Section RegistryFacts.
Context `{Host}.

(** The closing redraw changes no table; it decides between the colour and
    the error. *)
Lemma redraw_fst (st : State) c : fst (redrawAndReturn st c) = st.
Proof. unfold redrawAndReturn. destruct (Menu.updateCustomParticlesList st); reflexivity. Qed.

Lemma redraw_drawn (st : State) c :
  is_Some (Menu.updateCustomParticlesList st) ->
  redrawAndReturn st c = (st, inr c).
Proof. unfold redrawAndReturn. intros [l ->]. reflexivity. Qed.

Lemma redraw_not_drawn (st : State) c :
  Menu.updateCustomParticlesList st = None ->
  redrawAndReturn st c = (st, inl ListNotDrawn).
Proof. unfold redrawAndReturn. intros ->. reflexivity. Qed.

Lemma redraw_inr (st : State) c c' :
  snd (redrawAndReturn st c) = inr c' ->
  c' = c /\ is_Some (Menu.updateCustomParticlesList st).
Proof.
  unfold redrawAndReturn. destruct (Menu.updateCustomParticlesList st) eqn:E; simpl.
  - intros [= <-]. eauto.
  - discriminate.
Qed.

Lemma redraw_inl (st : State) c e :
  snd (redrawAndReturn st c) = inl e ->
  e = ListNotDrawn /\ Menu.updateCustomParticlesList st = None.
Proof.
  unfold redrawAndReturn. destruct (Menu.updateCustomParticlesList st) eqn:E; simpl.
  - discriminate.
  - intros [= <-]. auto.
Qed.

(** The list of buttons can be drawn when every stored description has a
    colour under its key. *)
Lemma list_is_drawn (st : State) :
  is_Some (Menu.updateCustomParticlesList st)
  <-> forall n p, customParticles st !! n = Some p ->
                  is_Some (customElementColors st !! n).
Proof.
  unfold Menu.updateCustomParticlesList.
  assert (Hb : forall n p, is_Some (Menu.particleButton st n p)
                           <-> is_Some (customElementColors st !! n)).
  { intros n p. unfold Menu.particleButton. destruct (color p) as [[r g] b].
    destruct (customElementColors st !! n); split; intros [x Hx]; eauto;
      discriminate. }
  destruct (bool_decide _) eqn:E.
  - apply bool_decide_eq_true in E. split; [|eauto].
    intros _ n p Hn. apply (Hb n p). exact (E n p Hn).
  - apply bool_decide_eq_false in E. split.
    + intros [x Hx]. discriminate.
    + intros Hall. exfalso. apply E. intros n p Hn. apply Hb. eauto.
Qed.

Lemma drawn_ext (st st' : State) :
  customParticles st' = customParticles st ->
  (forall n, is_Some (customElementColors st !! n) ->
             is_Some (customElementColors st' !! n)) ->
  is_Some (Menu.updateCustomParticlesList st) ->
  is_Some (Menu.updateCustomParticlesList st').
Proof.
  rewrite !list_is_drawn. intros Hp Hc Hd n p Hn. rewrite Hp in Hn. eauto.
Qed.

(** A new name whose fragment does not make a callable: the error, with the
    name and the menu name already entered. *)
Lemma register_new_failure (d : ParticleData) (st : State) :
  getElementColorFromName st (name d) = None ->
  buildAction safeActionCodeNew d (newElementColor d st) = None ->
  let st' := fst (registerCustomParticle d st) in
  snd (registerCustomParticle d st) = inl FailedToCreateAction
  /\ customElementColors st'
     = <[name d := newElementColor d st]> (customElementColors st)
  /\ menuNames st' = <[newElementColor d st := name d]> (menuNames st)
  /\ customElementActions st' = customElementActions st
  /\ elements st' = elements st
  /\ elementActions st' = elementActions st
  /\ nextCustomElementIdx st' = nextCustomElementIdx st.
Proof.
  intros Hnew Hfail. unfold registerCustomParticle, newElementColor in *.
  destruct (color d) as [[r g] b]. rewrite Hnew.
  destruct (inGameColor r g b (palette st)) as [c p]. simpl in Hfail.
  rewrite Hfail. simpl. auto 10.
Qed.

(** A new name whose fragment makes the callable [f]: the tables, and the
    outcome the closing redraw decides. *)
Lemma register_new_success (d : ParticleData) (st : State) f :
  getElementColorFromName st (name d) = None ->
  buildAction safeActionCodeNew d (newElementColor d st) = Some f ->
  let st' := fst (registerCustomParticle d st) in
  snd (registerCustomParticle d st)
  = snd (redrawAndReturn st' (newElementColor d st))
  /\ customElementColors st'
     = <[name d := newElementColor d st]> (customElementColors st)
  /\ menuNames st' = <[newElementColor d st := name d]> (menuNames st)
  /\ customElementActions st'
     = <[newElementColor d st := f]> (customElementActions st)
  /\ elements st' = elements st ++ [newElementColor d st]
  /\ elementActions st' = elementActions st ++ [f]
  /\ nextCustomElementIdx st' = (nextCustomElementIdx st + 1)%Z.
Proof.
  intros Hnew Hok. unfold registerCustomParticle, newElementColor in *.
  destruct (color d) as [[r g] b]. rewrite Hnew.
  destruct (inGameColor r g b (palette st)) as [c p]. simpl in Hok.
  rewrite Hok. rewrite !redraw_fst. simpl. auto 10.
Qed.

(** What a registration of a new name leaves beside the tables above. *)
Lemma register_new_rest (d : ParticleData) (st : State) :
  getElementColorFromName st (name d) = None ->
  let st' := fst (registerCustomParticle d st) in
  customParticles st' = customParticles st
  /\ initialized st' = initialized st
  /\ palette st'
     = (let '(r, g, b) := color d in snd (inGameColor r g b (palette st))).
Proof.
  intros Hnew. unfold registerCustomParticle.
  destruct (color d) as [[r g] b]. rewrite Hnew.
  destruct (inGameColor r g b (palette st)) as [c p].
  destruct (buildAction safeActionCodeNew _ c); rewrite ?redraw_fst; simpl; auto.
Qed.

(** A name that has the colour [c]. *)
Lemma register_known (d : ParticleData) (st : State) c :
  getElementColorFromName st (name d) = Some c ->
  registerCustomParticle d st =
  match buildAction safeActionCodeUpdate d c with
  | Some f =>
      redrawAndReturn
        {| customElementColors := customElementColors st;
           customElementActions := <[c := f]> (customElementActions st);
           nextCustomElementIdx := nextCustomElementIdx st;
           menuNames := menuNames st;
           elements := elements st;
           elementActions := elementActions st;
           customParticles := customParticles st;
           initialized := initialized st;
           palette := palette st |} c
  | None => (st, inl FailedToUpdateAction)
  end.
Proof.
  intros Hold. unfold registerCustomParticle.
  destruct (color d) as [[r g] b]. rewrite Hold. reflexivity.
Qed.

End RegistryFacts.

(** *** The colour adjuster *)

Lemma in_channels lo n c :
  (Z.of_nat lo <= c < Z.of_nat lo + Z.of_nat n)%Z -> In c (channels lo n).
Proof.
  intros Hc. unfold channels. apply in_map_iff. exists (Z.to_nat c).
  split; [lia|]. apply in_seq. lia.
Qed.

(** [Math.round(m * (255 / m) * 0.8)] is 204 for each of the 255 values of
    a positive channel, by evaluation in binary64. *)
Lemma saturate_max_table :
  forallb (fun m => (saturate m m =? 204)%Z) (channels 1 255) = true.
Proof. vm_compute. reflexivity. Qed.

(** Under a largest channel of 51 only 51 itself comes back unchanged. *)
Lemma saturate_51_table :
  forallb (fun c => negb (clampChannel (255 - saturate c 51) =? c)%Z || (c =? 51)%Z)
          (channels 0 52) = true.
Proof. vm_compute. reflexivity. Qed.

Lemma saturate_max m : (1 <= m <= 255)%Z -> saturate m m = 204%Z.
Proof.
  intros Hm. pose proof saturate_max_table as T. rewrite forallb_forall in T.
  apply Z.eqb_eq, T, in_channels. simpl. lia.
Qed.

Lemma saturate_51 c :
  (0 <= c <= 51)%Z -> clampChannel (255 - saturate c 51) = c -> c = 51%Z.
Proof.
  intros Hc Heq. pose proof saturate_51_table as T. rewrite forallb_forall in T.
  specialize (T c (in_channels 0 52 c ltac:(simpl; lia))).
  apply orb_true_iff in T as [T|T]; [|now apply Z.eqb_eq].
  apply negb_true_iff, Z.eqb_neq in T. contradiction.
Qed.

Lemma clampChannel_range c : inChannel (clampChannel c).
Proof. unfold inChannel, clampChannel. lia. Qed.

(** The general rule leaves only [51,51,51] in place. *)
Lemma shiftGeneral_fixed r g b :
  inChannel r -> inChannel g -> inChannel b ->
  (let '(r', g', b') := shiftGeneral (r, g, b) in
   (clampChannel r', clampChannel g', clampChannel b')) = (r, g, b) ->
  (r, g, b) = (51, 51, 51)%Z.
Proof.
  unfold inChannel, shiftGeneral. intros Hr Hg Hb.
  set (m := Z.max (Z.max r g) b).
  destruct (0 <? m)%Z eqn:Em.
  - apply Z.ltb_lt in Em. intros [= Er Eg Eb].
    assert (Hm : m = 51%Z).
    { assert (Hsat : saturate m m = 204%Z) by (apply saturate_max; lia).
      assert (Hcase : m = r \/ m = g \/ m = b) by lia.
      destruct Hcase as [E|[E|E]].
      - rewrite <- E in Er. rewrite Hsat in Er. unfold clampChannel in Er. lia.
      - rewrite <- E in Eg. rewrite Hsat in Eg. unfold clampChannel in Eg. lia.
      - rewrite <- E in Eb. rewrite Hsat in Eb. unfold clampChannel in Eb. lia. }
    rewrite Hm in Er, Eg, Eb.
    apply saturate_51 in Er; [|lia]. apply saturate_51 in Eg; [|lia].
    apply saturate_51 in Eb; [|lia]. congruence.
  - apply Z.ltb_ge in Em. intros [= Er Eg Eb]. unfold clampChannel in *. lia.
Qed.

(** ** The sanitizer *)

(** A text of a pattern begins with a text of each of its prefixes. *)
Lemma occ_pattern_prefix Q1 Q2 s : occ (Q1 ++ Q2) s -> occ Q1 s.
Proof.
  intros (a & t & -> & ps & u & Hm & ->).
  apply Forall2_app_inv_l in Hm as (ps1 & ps2 & H1 & H2 & ->).
  exists a, (concat (ps1 ++ ps2) ++ u). split; [reflexivity|].
  exists ps1, (concat ps2 ++ u). split; [exact H1|].
  now rewrite concat_app, <- app_assoc.
Qed.

(** The later rules write no [function]. *)
Lemma laterRules_write_no_function :
  forallb (fun r => consuming (fst r) && overlapFree (lits "function") (snd r))
          laterRules = true.
Proof. vm_compute. reflexivity. Qed.

(** On a fragment without the word [function] the sanitizer is idempotent. *)
Lemma sanitize_twice_without_function_word (code : str) :
  occurs (lits "function") code = false ->
  sanitizeActionCode (sanitizeActionCode code) = sanitizeActionCode code.
Proof.
  intros Hw. apply sanitize_fixed.
  assert (Hdef : forall s, occurs (lits "function") s = false ->
                           occurs reFunction s = false).
  { intros s Hs. apply occurs_false. apply occurs_false in Hs.
    intros Ho. apply Hs. exact (occ_pattern_prefix (lits "function") _ s Ho). }
  apply Hdef. rewrite sanitize_rules.
  apply applyRules_preserves; [exact laterRules_write_no_function|].
  rewrite replaceAll_absent; auto.
Qed.

(** *** C6 *)

Lemma literal_matches W : matches (map Lit W) (map (fun c => [c]) W).
Proof. induction W; simpl; constructor; simpl; auto. Qed.

Lemma concat_singletons (W : str) : concat (map (fun c => [c]) W) = W.
Proof. induction W; simpl; congruence. Qed.

Lemma keyword_call_occ W w a b :
  forallb isSpace w = true ->
  occ (map Lit W ++ [Star isSpace; Lit 40]) (a ++ W ++ w ++ [40%N] ++ b).
Proof.
  intros Hw. exists a, (W ++ w ++ [40%N] ++ b). split; [reflexivity|].
  exists (map (fun c => [c]) W ++ [w; [40%N]]), b. split.
  - apply Forall2_app; [apply literal_matches|].
    constructor; [exact Hw|]. constructor; [reflexivity|constructor].
  - rewrite concat_app, concat_singletons. simpl.
    rewrite <- ?app_assoc. reflexivity.
Qed.

(** C6: the output of [sanitizeActionCode] has no match of [/while\s*\(/]
    and none of [/for\s*\(/]: whatever the input, it cannot be cut into a
    text, the keyword [while] (or [for]), a run of white space and an
    opening parenthesis followed by the rest. *)
Theorem sanitized_has_no_loop (code : str) :
  occurs reWhile (sanitizeActionCode code) = false
  /\ occurs reFor (sanitizeActionCode code) = false
  /\ (forall a w b, forallb isSpace w = true ->
        sanitizeActionCode code <> a ++ lit "while" ++ w ++ lit "(" ++ b)
  /\ (forall a w b, forallb isSpace w = true ->
        sanitizeActionCode code <> a ++ lit "for" ++ w ++ lit "(" ++ b).
Proof.
  pose proof (sanitize_clean code) as Hc.
  inversion Hc as [|r1 l1 Hwhile Hc1]; subst.
  inversion Hc1 as [|r2 l2 Hfor _]; subst. simpl in Hwhile, Hfor.
  repeat split; auto.
  - intros a w b Hw Heq. apply occurs_false in Hwhile. apply Hwhile.
    rewrite Heq. apply (keyword_call_occ (lit "while") w a b Hw).
  - intros a w b Hw Heq. apply occurs_false in Hfor. apply Hfor.
    rewrite Heq. apply (keyword_call_occ (lit "for") w a b Hw).
Qed.

(** *** C5 *)




(** *** C7 *)

Lemma adjust_general (c : Color) name :
  isFireName name = false -> isWaterName name = false -> isPlantName name = false ->
  adjustColorForUniqueness c name =
  (let '(r', g', b') := shiftGeneral c in
   (clampChannel r', clampChannel g', clampChannel b')).
Proof. intros H1 H2 H3. unfold adjustColorForUniqueness. now rewrite H1, H2, H3. Qed.

(** C7, as the code has it: every channel of the adjusted colour is an
    integer in [0,255], and the adjusted colour is the input exactly when the
    input is the colour the applied rule leaves in place: [255,255,255] under
    the fire rule, [255,255,150] under the water rule, [255,100,255] under
    the plant rule, [51,51,51] under the general rule. *)
Theorem adjusted_color_range_and_fixed_point (r g b : Z) (name : str) :
  inChannel r -> inChannel g -> inChannel b ->
  (let '(r', g', b') := adjustColorForUniqueness (r, g, b) name in
   inChannel r' /\ inChannel g' /\ inChannel b')
  /\ (adjustColorForUniqueness (r, g, b) name = (r, g, b)
      <-> (r, g, b) = fixedColor name).
Proof.
  intros Hr Hg Hb. split.
  - unfold adjustColorForUniqueness.
    destruct (if isFireName name then _ else _) as [[r' g'] b'].
    auto using clampChannel_range.
  - unfold fixedColor.
    destruct (isFireName name) eqn:E1; [|destruct (isWaterName name) eqn:E2;
      [|destruct (isPlantName name) eqn:E3]].
    + unfold adjustColorForUniqueness. rewrite E1. unfold inChannel in *.
      simpl. unfold clampChannel. split; intros [= ? ? ?]; f_equal; try f_equal; lia.
    + unfold adjustColorForUniqueness. rewrite E1, E2. unfold inChannel in *.
      simpl. unfold clampChannel. split; intros [= ? ? ?]; f_equal; try f_equal; lia.
    + unfold adjustColorForUniqueness. rewrite E1, E2, E3. unfold inChannel in *.
      simpl. unfold clampChannel. split; intros [= ? ? ?]; f_equal; try f_equal; lia.
    + rewrite adjust_general by assumption. split.
      * now apply shiftGeneral_fixed.
      * intros [= -> -> ->]. vm_compute. reflexivity.
Qed.

Lemma adjusted_color_range_and_fixed_point_witness :
  (inChannel 255 /\ inChannel 60 /\ inChannel 30)
  /\ (let '(r', g', b') := adjustColorForUniqueness (255, 60, 30)%Z (lit "TNT") in
      inChannel r' /\ inChannel g' /\ inChannel b')
  /\ (adjustColorForUniqueness (255, 60, 30)%Z (lit "TNT") = (255, 60, 30)%Z
      <-> (255, 60, 30)%Z = fixedColor (lit "TNT")).
Proof.
  assert (H : inChannel 255 /\ inChannel 60 /\ inChannel 30)
    by (unfold inChannel; lia).
  split; [exact H|].
  destruct H as (H1 & H2 & H3).
  exact (adjusted_color_range_and_fixed_point 255 60 30 (lit "TNT") H1 H2 H3).
Defined.

(** C7 fails: white stays white under the fire rule. *)
Lemma adjusted_color_may_equal_input :
  adjustColorForUniqueness (255, 255, 255)%Z (lit "FIRE") = (255, 255, 255)%Z.
Proof. vm_compute. reflexivity. Qed.

(** *** C8 *)

(** C8, as the code has it: for [TNT] with colour [255,60,30] the validator
    answers invalid because of LAVA [245,110,40], at a distance below 60,
    and the adjuster, the name holding neither FIRE nor FLAME, applies the
    general rule, which gives [51,207,231]. *)
Theorem tnt_example_is_near_lava :
  validateUniqueParticle createTestParticle
  = Some {| isValid := false;
            message := TooSimilarTo (lit "LAVA") (245, 110, 40)%Z |}
  /\ PrimFloat.ltb (distance (255, 60, 30)%Z (245, 110, 40)%Z) 60 = true
  /\ isFireName (lit "TNT") = false
  /\ isWaterName (lit "TNT") = false
  /\ isPlantName (lit "TNT") = false
  /\ adjustColorForUniqueness (255, 60, 30)%Z (lit "TNT")
     = (let '(r, g, b) := shiftGeneral (255, 60, 30)%Z in
        (clampChannel r, clampChannel g, clampChannel b))
  /\ adjustColorForUniqueness (255, 60, 30)%Z (lit "TNT") = (51, 207, 231)%Z.
Proof. repeat split; vm_compute; reflexivity. Qed.

(** C8 fails: the distance from [255,60,30] to FIRE [255,0,10] is the square
    root of 4000, about 63.2 and not below 60, and the adjuster does not
    apply the fire rule to [TNT]. *)
Lemma tnt_example_is_not_near_fire :
  distance (255, 60, 30)%Z (255, 0, 10)%Z = PrimFloat.sqrt 4000
  /\ PrimFloat.ltb (distance (255, 60, 30)%Z (255, 0, 10)%Z) 60 = false
  /\ PrimFloat.ltb 63 (distance (255, 60, 30)%Z (255, 0, 10)%Z) = true
  /\ shiftFire (255, 60, 30)%Z = (255, 140, 150)%Z
  /\ adjustColorForUniqueness (255, 60, 30)%Z (lit "TNT") = (51, 207, 231)%Z.
Proof. repeat split; vm_compute; reflexivity. Qed.

(** *** C9 *)

Lemma enhance_independent code code' particleName elementColor :
  hasTemplate particleName = true ->
  enhanceCodeBasedOnName code particleName elementColor
  = enhanceCodeBasedOnName code' particleName elementColor.
Proof.
  unfold hasTemplate, enhanceCodeBasedOnName. cbv zeta.
  destruct (_ || _ || includes (lit "STRING") _); [reflexivity|].
  destruct (_ || _ || _ || includes (lit "STEAM") _); [reflexivity|].
  destruct (_ || _ || _ || _ || includes (lit "BLOOD") _); [reflexivity|].
  simpl. discriminate.
Qed.

Lemma explosion_keeps K code :
  includes K code = true -> includes K (explosionTemplate code) = true.
Proof.
  intros H. unfold explosionTemplate. now apply includes_app_r, includes_app_l.
Qed.

Section RewriterFacts.
Context `{Host}.

Lemma enhance_step code particleName elementColor :
  tooSimple code = true ->
  (if (length (trim code) <? 50)%nat
      || eqStr (trim code) (lit "doGravity(x, y, i, true, 0.9);")
   then
     if negb (eqStr (enhanceCodeBasedOnName code particleName elementColor) code)
     then enhanceCodeBasedOnName code particleName elementColor else code
   else code)
  = enhanceCodeBasedOnName code particleName elementColor.
Proof.
  intros H0. unfold tooSimple in H0. rewrite H0.
  destruct (eqStr _ code) eqn:E; simpl; [|reflexivity].
  apply eqStr_eq in E. congruence.
Qed.

(** On a fragment below the threshold the rewriter reads the template
    only. *)
Lemma preprocess_simple code code' particleName elementColor :
  tooSimple code = true -> tooSimple code' = true ->
  enhanceCodeBasedOnName code' particleName elementColor
  = enhanceCodeBasedOnName code particleName elementColor ->
  preprocessActionCode code' particleName elementColor
  = preprocessActionCode code particleName elementColor.
Proof.
  intros Hs Hs' Heq. unfold preprocessActionCode. cbv zeta.
  rewrite (enhance_step code), (enhance_step code') by assumption.
  rewrite Heq. reflexivity.
Qed.

Lemma preprocess_keeps K code particleName elementColor :
  literalName (toUpperCase particleName) = true ->
  disjointFrom (matchWord (toUpperCase particleName)) K ->
  overlapFree reBordering K = true ->
  overlapFree arrayAccessPattern K = true ->
  overlapFree (lits "THIS_ELEMENT_COLOR") K = true ->
  tooSimple code = true ->
  includes K (enhanceCodeBasedOnName code particleName elementColor) = true ->
  exists out,
    preprocessActionCode code particleName elementColor = Some out
    /\ includes K out = true.
Proof.
  intros Hplain Hname Hb Ha Ht Hsimple Hinc.
  unfold preprocessActionCode. cbv zeta.
  rewrite (enhance_step code) by assumption.
  unfold replaceParticleName. cbv zeta. rewrite Hplain.
  eexists. split; [reflexivity|].
  assert (Hne : toUpperCase particleName <> []).
  { unfold literalName in Hplain. destruct (toUpperCase particleName); discriminate. }
  set (c1 := replaceWith _ _ (enhanceCodeBasedOnName _ _ _)).
  assert (H1 : includes K c1 = true).
  { apply replaceWith_keeps; auto using matchWord_proper. }
  set (c2 := replaceAll reBordering _ c1).
  assert (H2 : includes K c2 = true).
  { apply replaceAll_keeps; auto. }
  set (c3 := replaceWith (ofPattern arrayAccessPattern) _ c2).
  assert (H3 : includes K c3 = true).
  { apply replaceWith_keeps; auto using overlapFree_disjoint.
    apply ofPattern_proper. reflexivity. }
  set (c4 := replaceAll (lits "THIS_ELEMENT_COLOR") _ c3).
  assert (H4 : includes K c4 = true).
  { apply replaceAll_keeps; auto. }
  destruct (isExplosiveName particleName); [|exact H4].
  destruct (_ && _); [|exact H4]. now apply explosion_keeps.
Qed.

(** C9, as the code has it: for a name of ASCII characters without a
    syntax character of the pattern grammar that holds one of the keywords
    [enhanceCodeBasedOnName] has a template for (HAIR, FUR, STRING; GAS,
    SMOKE, VAPOR, STEAM; WATER, LIQUID, OIL, JUICE, BLOOD), the rewriter
    answers every fragment below the threshold, and the degenerate gravity
    call, with one and the same text, which is not empty and holds the
    conditional [if (]. *)
Theorem rewrite_of_simple_fragment (code particleName : str) (elementColor : Z) :
  tooSimple code = true ->
  literalName (toUpperCase particleName) = true ->
  hasTemplate particleName = true ->
  exists out,
    preprocessActionCode code particleName elementColor = Some out
    /\ out <> []
    /\ includes conditional out = true
    /\ forall code', tooSimple code' = true ->
         preprocessActionCode code' particleName elementColor = Some out.
Proof.
  intros Hsimple Hplain Htemplate.
  destruct (preprocess_keeps conditional code particleName elementColor)
    as (out & Hout & Hinc); auto.
  - now apply matchName_disjoint.
  - now apply template_conditional.
  - exists out. repeat split; auto.
    + eapply includes_nonempty; [|exact Hinc]. discriminate.
    + intros code' Hs'. rewrite <- Hout. apply preprocess_simple; auto.
      now apply enhance_independent.
Qed.

End RewriterFacts.

Lemma rewrite_of_simple_fragment_witness :
  (tooSimple (lit "doGravity(x, y, i, true, 0.9);") = true
   /\ literalName (toUpperCase (lit "Smoke")) = true
   /\ hasTemplate (lit "Smoke") = true)
  /\ exists out,
       preprocessActionCode (H := sampleHost)
         (lit "doGravity(x, y, i, true, 0.9);") (lit "Smoke") 4284900966
       = Some out
       /\ out <> []
       /\ includes conditional out = true
       /\ forall code', tooSimple code' = true ->
            preprocessActionCode (H := sampleHost) code' (lit "Smoke") 4284900966
            = Some out.
Proof.
  assert (H : tooSimple (lit "doGravity(x, y, i, true, 0.9);") = true
              /\ literalName (toUpperCase (lit "Smoke")) = true
              /\ hasTemplate (lit "Smoke") = true)
    by (repeat split; vm_compute; reflexivity).
  split; [exact H|]. destruct H as (H1 & H2 & H3).
  exact (rewrite_of_simple_fragment (H := sampleHost)
           (lit "doGravity(x, y, i, true, 0.9);") (lit "Smoke") 4284900966
           H1 H2 H3).
Defined.

(** C9 fails: [ROCK] has no template; an empty fragment comes back empty,
    and the degenerate gravity call comes back as it is, without a
    conditional. *)
Lemma rewrite_may_be_empty :
  tooSimple [] = true
  /\ preprocessActionCode (H := sampleHost) [] (lit "ROCK") 4280163870 = Some []
  /\ tooSimple (lit "doGravity(x, y, i, true, 0.9);") = true
  /\ preprocessActionCode (H := sampleHost)
       (lit "doGravity(x, y, i, true, 0.9);") (lit "ROCK") 4280163870
     = Some (lit "doGravity(x, y, i, true, 0.9);")
  /\ includes (lit "if") (lit "doGravity(x, y, i, true, 0.9);") = false.
Proof. repeat split; vm_compute; reflexivity. Qed.

Section RegistryClaims.
Context `{Host}.

Lemma lookup_known (st : State) n c :
  getElementColorFromName st n = Some c -> customElementColors st !! n = Some c.
Proof.
  unfold getElementColorFromName.
  destruct (customElementColors st !! n) as [c'|]; [|discriminate].
  destruct (c' =? 0)%Z; [discriminate|]. congruence.
Qed.

(** A successful registration leaves the returned colour under the name. *)
Lemma register_stores_name (d : ParticleData) (st : State) c :
  snd (registerCustomParticle d st) = inr c ->
  customElementColors (fst (registerCustomParticle d st)) !! name d = Some c.
Proof.
  intros Hr. destruct (getElementColorFromName st (name d)) as [c0|] eqn:Ek.
  - rewrite (register_known d st c0 Ek) in *.
    destruct (buildAction safeActionCodeUpdate d c0); simpl in *; [|discriminate].
    apply redraw_inr in Hr as [-> _]. rewrite redraw_fst. simpl.
    now apply lookup_known.
  - destruct (buildAction safeActionCodeNew d (newElementColor d st)) as [f|] eqn:E.
    + destruct (register_new_success d st f Ek E) as (Hs & Hc & _).
      rewrite Hs in Hr. apply redraw_inr in Hr as [-> _].
      rewrite Hc. apply lookup_insert_eq.
    + destruct (register_new_failure d st Ek E) as (Hs & _). congruence.
Qed.

(** The colour a registration returns for a new name. *)
Lemma register_new_color (d : ParticleData) (st : State) c :
  getElementColorFromName st (name d) = None ->
  snd (registerCustomParticle d st) = inr c ->
  c = newElementColor d st.
Proof.
  intros Hnew Hr.
  destruct (buildAction safeActionCodeNew d (newElementColor d st)) as [f|] eqn:E.
  - destruct (register_new_success d st f Hnew E) as (Hs & _).
    rewrite Hs in Hr. now apply redraw_inr in Hr as [-> _].
  - destruct (register_new_failure d st Hnew E) as (Hs & _). congruence.
Qed.

Lemma upperChar_twice c : upperChar (upperChar c) = upperChar c.
Proof.
  unfold upperChar at 1. now rewrite upperChar_not_lower.
Qed.

Lemma toUpperCase_twice s : toUpperCase (toUpperCase s) = toUpperCase s.
Proof.
  unfold toUpperCase. rewrite map_map. apply map_ext, upperChar_twice.
Qed.

Lemma generated_fields particleName reply (st st' : State) d :
  generateParticle particleName reply st = (st', inr d) ->
  name d = toUpperCase particleName
  /\ customParticles st' !! particleName = Some d.
Proof.
  intros Hg. unfold generateParticle in Hg.
  destruct (negb (initialized st)); [discriminate|].
  destruct reply as [| | |raw]; try discriminate.
  destruct (_ || _ || _); [discriminate|].
  destruct (raw_name raw) as [|n|]; try discriminate.
  destruct (raw_color raw) as [| |r g b]; try discriminate.
  set (n2 := if negb (eqStr (toUpperCase n) (toUpperCase particleName))
             then toUpperCase particleName else toUpperCase n) in *.
  assert (Hn2 : n2 = toUpperCase particleName).
  { unfold n2. destruct (eqStr _ _) eqn:E; simpl; [|reflexivity].
    now apply eqStr_eq in E. }
  destruct (validateUniqueParticle _) as [v|]; [|discriminate].
  injection Hg as <- <-.
  destruct (negb (isValid v)); simpl; rewrite lookup_insert_eq; auto.
Qed.

(** What a submission registers is under the typed name, trimmed and in
    upper case. *)
Lemma submission_registers_typed_name input reply (st st' : State) c :
  handleParticleSubmission input reply st = (st', Registered c) ->
  customElementColors st' !! toUpperCase (trim input) = Some c.
Proof.
  unfold handleParticleSubmission.
  destruct (eqStr _ []); [discriminate|].
  destruct (negb (initialized st)); [discriminate|].
  destruct (generateParticle _ reply st) as [st1 [e|d]] eqn:Eg; [discriminate|].
  destruct (registerCustomParticle d st1) as [st2 [e|c2]] eqn:Er; [discriminate|].
  intros [= <- <-].
  destruct (generated_fields _ _ _ _ _ Eg) as [Hn _].
  rewrite toUpperCase_twice in Hn.
  rewrite <- Hn.
  pose proof (register_stores_name d st1 c2) as Hs. rewrite Er in Hs.
  now apply Hs.
Qed.

(** *** C2 *)






(** *** C3 *)

(** C3, as the code has it: registering a name that has a colour again,
    with a description whose fragment goes through the pipeline and compiles,
    puts the new callable under the colour and, when the list of buttons can
    be drawn, returns the colour (the redraw raises otherwise); with a
    description whose fragment does not compile, the call raises an error
    and changes nothing. Either way the name map, the menu names, the
    engine's element and action lists, both counters and the stored
    descriptions stay as they were, no other callable changes, and the name
    still leads to the colour. *)
Theorem reregistration_keeps_id (d : ParticleData) (st : State) (c : Z) :
  getElementColorFromName st (name d) = Some c ->
  let st' := fst (registerCustomParticle d st) in
  match buildAction safeActionCodeUpdate d c with
  | Some f =>
      customElementActions st' = <[c := f]> (customElementActions st)
      /\ (is_Some (Menu.updateCustomParticlesList st) ->
          snd (registerCustomParticle d st) = inr c)
      /\ (Menu.updateCustomParticlesList st = None ->
          snd (registerCustomParticle d st) = inl ListNotDrawn)
  | None =>
      registerCustomParticle d st = (st, inl FailedToUpdateAction)
  end
  /\ customElementColors st' = customElementColors st
  /\ menuNames st' = menuNames st
  /\ elements st' = elements st
  /\ elementActions st' = elementActions st
  /\ nextCustomElementIdx st' = nextCustomElementIdx st
  /\ palette st' = palette st
  /\ customParticles st' = customParticles st
  /\ (forall k, k <> c ->
        customElementActions st' !! k = customElementActions st !! k)
  /\ getElementColorFromName st' (name d) = Some c.
Proof.
  intros Hold. cbv zeta. rewrite (register_known d st c Hold).
  destruct (buildAction safeActionCodeUpdate d c) as [f|]; simpl.
  - set (st2 := {| customElementColors := customElementColors st;
                   customElementActions := <[c := f]> (customElementActions st);
                   nextCustomElementIdx := nextCustomElementIdx st;
                   menuNames := menuNames st;
                   elements := elements st;
                   elementActions := elementActions st;
                   customParticles := customParticles st;
                   initialized := initialized st;
                   palette := palette st |}).
    assert (E : Menu.updateCustomParticlesList st2
                = Menu.updateCustomParticlesList st) by reflexivity.
    rewrite redraw_fst. simpl. repeat split; auto.
    + intros Hd. rewrite redraw_drawn; [reflexivity|]. now rewrite E.
    + intros Hd. rewrite redraw_not_drawn; [reflexivity|]. now rewrite E.
    + intros k Hk. now rewrite lookup_insert_ne.
  - repeat split; auto.
Qed.

(** *** C4 *)

Lemma buildAction_parts wrap (d : ParticleData) c f :
  buildAction wrap d c = Some f ->
  exists frag g,
    processedFragment d c = Some frag
    /\ compileFunction (wrap frag) = Some g
    /\ f = createSafeParticleAction g (name d).
Proof.
  unfold buildAction. destruct (processedFragment d c) as [frag|]; [|discriminate].
  destruct (compileFunction (wrap frag)) as [g|] eqn:E; [|discriminate].
  intros [= <-]. eauto.
Qed.

(** The callable a successful registration has stored under the colour it
    returns, and the text it was compiled from. *)
Lemma register_stores_callable (d : ParticleData) (st : State) c :
  snd (registerCustomParticle d st) = inr c ->
  exists wrap f,
    (wrap = safeActionCodeNew \/ wrap = safeActionCodeUpdate)
    /\ buildAction wrap d c = Some f
    /\ customElementActions (fst (registerCustomParticle d st)) !! c = Some f.
Proof.
  intros Hr. destruct (getElementColorFromName st (name d)) as [c0|] eqn:Ek.
  - rewrite (register_known d st c0 Ek) in *.
    destruct (buildAction safeActionCodeUpdate d c0) as [f|] eqn:E;
      simpl in *; [|discriminate].
    apply redraw_inr in Hr as [-> _]. rewrite redraw_fst. simpl.
    exists safeActionCodeUpdate, f. rewrite lookup_insert_eq. auto.
  - pose proof (register_new_color d st c Ek Hr) as ->.
    destruct (buildAction safeActionCodeNew d (newElementColor d st)) as [f|] eqn:E.
    + destruct (register_new_success d st f Ek E) as (_ & _ & _ & Ha & _).
      exists safeActionCodeNew, f. rewrite Ha, lookup_insert_eq. auto.
    + destruct (register_new_failure d st Ek E) as (Hs & _). congruence.
Qed.

(** The two layers around a fragment, case by case. *)
Lemma layers_of_a_call (blk : Action) (n : str) (x y i : Z) (w : World) :
  let f := createSafeParticleAction (actionFunction blk) n in
  (forall w2 m w3,
      belowTenth w = false ->
      blk x y i (afterRandom w) = (w2, Throw m) ->
      doGravity x y i true 1.0 w2 = (w3, Normal) ->
      f x y i w = (w3, Normal))
  /\ (forall w2,
        belowTenth w = false ->
        blk x y i (afterRandom w) = (w2, Normal) ->
        f x y i w = (w2, Normal))
  /\ (forall w2,
        belowTenth w = false ->
        blk x y i (afterRandom w) = (w2, NoReturn) ->
        snd (f x y i w) = NoReturn)
  /\ (forall w2 m w3 m',
        belowTenth w = false ->
        blk x y i (afterRandom w) = (w2, Throw m) ->
        doGravity x y i true 1.0 w2 = (w3, Throw m') ->
        f x y i w = fallback n x y i w3)
  /\ (belowTenth w = true ->
      forall w2, doGravity x y i true 0.9 (afterRandom w) = (w2, Normal) ->
                 f x y i w = (w2, Normal)).
Proof.
  cbv zeta. unfold createSafeParticleAction, actionFunction, belowTenth, afterRandom.
  destruct (Math_random (snd w)) as [r e]. simpl.
  repeat split.
  - intros w2 m w3 -> -> ->. reflexivity.
  - intros w2 -> ->. reflexivity.
  - intros w2 -> ->. reflexivity.
  - intros w2 m w3 m' -> -> ->. reflexivity.
  - intros -> w2 ->. reflexivity.
Qed.

(** What the outer layer does with an exception of the function it wraps. *)
Lemma outer_layer (g : Action) (n : str) (x y i : Z) (w : World) :
  let f := createSafeParticleAction g n in
  (forall w', g x y i w = (w', Normal) -> f x y i w = (w', Normal))
  /\ (forall w', g x y i w = (w', NoReturn) -> snd (f x y i w) = NoReturn)
  /\ (forall w' m, g x y i w = (w', Throw m) ->
        f x y i w = fallback n x y i w'
        /\ (isExplosiveName n = true ->
              f x y i w = (writeCell i FIRE w', Normal)
              /\ ((0 <= i < Z.of_nat (length (fst w')))%Z ->
                  fst (fst (f x y i w)) !! Z.to_nat i = Some (FIRE mod 2 ^ 32)%Z))
        /\ (isExplosiveName n = false -> isLiquidName n = true ->
              f x y i w = doDensityLiquid x y i SAND 0.9 0.6 w')
        /\ (isExplosiveName n = false -> isLiquidName n = false ->
            isGasName n = true ->
              f x y i w = doRise x y i 0.9 0.6 w')
        /\ (isExplosiveName n = false -> isLiquidName n = false ->
            isGasName n = false ->
              f x y i w = doGravity x y i true 0.8 w'))
  /\ (forall m, snd (f x y i w) = Throw m ->
        isExplosiveName n = false
        /\ exists w' m', g x y i w = (w', Throw m')
                         /\ snd (fallback n x y i w') = Throw m).
Proof.
  cbv zeta. unfold createSafeParticleAction.
  destruct (g x y i w) as [w0 [|m0|]] eqn:E.
  - split; [intros w' [= <-]; reflexivity|]. split; [discriminate|].
    split; [discriminate|]. simpl. discriminate.
  - split; [discriminate|]. split; [discriminate|]. split.
    + intros w' m [= <- _]. split; [reflexivity|]. unfold fallback.
      split; [|split; [|split]].
      * intros ->. split; [reflexivity|]. intros Hi. simpl. unfold writeCell.
        destruct (0 <=? i)%Z eqn:Q; [|apply Z.leb_gt in Q; lia]. simpl.
        apply list_lookup_insert_eq. lia.
      * intros -> ->. reflexivity.
      * intros -> -> ->. reflexivity.
      * intros -> -> ->. reflexivity.
    + intros m Hm. split.
      * destruct (isExplosiveName n) eqn:Q; [|reflexivity].
        unfold fallback in Hm. rewrite Q in Hm. discriminate.
      * exists w0, m0. auto.
  - split; [discriminate|]. split; [intros w' [= <-]; reflexivity|].
    split; [discriminate|]. simpl. discriminate.
Qed.

(** C4, as the code has it: the callable a registration stores is the outer
    wrapper around the function compiled from the template. The wrapper
    hands no exception of that function to its caller: it answers one with
    the fallback chosen by the name (the cell is set to FIRE for a name
    with TNT, BOMB or EXPLO, else density flow for WATER or LIQUID, else
    rise for GAS or SMOKE, else gravity), so that what it throws, a
    primitive of its fallback has thrown, and never for an explosive; it
    does not return when the compiled function does not. The template has
    a [catch] of its own around the fragment: when the fragment is a list
    of statements, an exception it raises is caught there and answered
    with [doGravity(x, y, i, true, 1.0)], whatever the name, and does not
    reach the fallback chosen by the name; the call returns what the
    fragment returns, and does not return when the fragment does not. *)
Theorem registered_callable_is_layered
        (d : ParticleData) (st : State) (c : Z) :
  snd (registerCustomParticle d st) = inr c ->
  exists (f compiled : Action),
    customElementActions (fst (registerCustomParticle d st)) !! c = Some f
    /\ (forall x y i w,
          (forall w', compiled x y i w = (w', Normal) ->
                      f x y i w = (w', Normal))
          /\ (forall w', compiled x y i w = (w', NoReturn) ->
                         snd (f x y i w) = NoReturn)
          /\ (forall w' m,
                compiled x y i w = (w', Throw m) ->
                f x y i w = fallback (name d) x y i w'
                /\ (isExplosiveName (name d) = true ->
                      f x y i w = (writeCell i FIRE w', Normal)
                      /\ ((0 <= i < Z.of_nat (length (fst w')))%Z ->
                          fst (fst (f x y i w)) !! Z.to_nat i
                          = Some (FIRE mod 2 ^ 32)%Z))
                /\ (isExplosiveName (name d) = false ->
                    isLiquidName (name d) = true ->
                      f x y i w = doDensityLiquid x y i SAND 0.9 0.6 w')
                /\ (isExplosiveName (name d) = false ->
                    isLiquidName (name d) = false ->
                    isGasName (name d) = true ->
                      f x y i w = doRise x y i 0.9 0.6 w')
                /\ (isExplosiveName (name d) = false ->
                    isLiquidName (name d) = false ->
                    isGasName (name d) = false ->
                      f x y i w = doGravity x y i true 0.8 w'))
          /\ (forall m, snd (f x y i w) = Throw m ->
                isExplosiveName (name d) = false
                /\ exists w' m',
                     compiled x y i w = (w', Throw m')
                     /\ snd (fallback (name d) x y i w') = Throw m))
    /\ (forall frag blk,
          processedFragment d c = Some frag ->
          compiledAs (safeActionCodeNew frag) (actionFunction blk) ->
          compiledAs (safeActionCodeUpdate frag) (actionFunction blk) ->
          forall x y i w,
            compiled x y i w = actionFunction blk x y i w
            /\ (forall w2 m w3,
                  belowTenth w = false ->
                  blk x y i (afterRandom w) = (w2, Throw m) ->
                  doGravity x y i true 1.0 w2 = (w3, Normal) ->
                  f x y i w = (w3, Normal))
            /\ (forall w2 m w3 m',
                  belowTenth w = false ->
                  blk x y i (afterRandom w) = (w2, Throw m) ->
                  doGravity x y i true 1.0 w2 = (w3, Throw m') ->
                  f x y i w = fallback (name d) x y i w3)
            /\ (forall w2,
                  belowTenth w = false ->
                  blk x y i (afterRandom w) = (w2, Normal) ->
                  f x y i w = (w2, Normal))
            /\ (forall w2,
                  belowTenth w = false ->
                  blk x y i (afterRandom w) = (w2, NoReturn) ->
                  snd (f x y i w) = NoReturn)).
Proof.
  intros Hr.
  destruct (register_stores_callable d st c Hr) as (wrap & f & Hw & Hbuild & Hstored).
  destruct (buildAction_parts wrap d c f Hbuild) as (frag' & g & Hf' & Hg & ->).
  exists (createSafeParticleAction g (name d)), g.
  split; [exact Hstored|]. split.
  - intros x y i w. exact (outer_layer g (name d) x y i w).
  - intros frag blk Hfrag (g1 & Hg1 & Hb1) (g2 & Hg2 & Hb2) x y i w.
    rewrite Hfrag in Hf'. injection Hf' as <-.
    assert (Hb : forall x y i w, g x y i w = actionFunction blk x y i w).
    { destruct Hw as [-> | ->]; rewrite Hg in *.
      - injection Hg1 as <-. exact Hb1.
      - injection Hg2 as <-. exact Hb2. }
    assert (E : createSafeParticleAction g (name d) x y i w
                = createSafeParticleAction (actionFunction blk) (name d) x y i w).
    { unfold createSafeParticleAction. now rewrite Hb. }
    rewrite E. split; [apply Hb|].
    destruct (layers_of_a_call blk (name d) x y i w) as (L1 & L2 & L3 & L4 & _).
    cbv zeta in *. auto.
Qed.

(** C10: a description [generateParticle] returns carries the requested
    name in upper case, whatever name the response had; the description is
    stored under the requested name, and registering it puts its colour
    under the upper-case requested name. *)
Theorem generated_name_is_requested
        (particleName : str) (reply : ServiceReply) (st st' : State)
        (d : ParticleData) :
  generateParticle particleName reply st = (st', inr d) ->
  name d = toUpperCase particleName
  /\ customParticles st' !! particleName = Some d
  /\ (forall c, snd (registerCustomParticle d st') = inr c ->
        customElementColors (fst (registerCustomParticle d st'))
          !! toUpperCase particleName = Some c).
Proof.
  intros Hg. pose proof (generated_fields _ _ _ _ _ Hg) as Hname.
  destruct Hname as [Hn Hp]. repeat split; auto.
  intros c Hr. rewrite <- Hn. now apply register_stores_name.
Qed.

End RegistryClaims.

(** * Further properties of the code *)

(** ** Trimming *)

(** ** Trimming *)

Lemma dropSpace_split s :
  exists w, forallb isSpace w = true /\ s = w ++ dropSpace s.
Proof.
  induction s as [|c s IH]; simpl.
  - exists []. auto.
  - destruct (isSpace c) eqn:E.
    + destruct IH as (w & Hw & Es). exists (c :: w). simpl. rewrite E, Hw.
      split; [reflexivity | congruence].
    + exists []. auto.
Qed.

Lemma dropSpace_head s :
  match dropSpace s with [] => True | c :: _ => isSpace c = false end.
Proof.
  induction s as [|c s IH]; simpl; [exact I|].
  destruct (isSpace c) eqn:E; [exact IH | exact E].
Qed.

Lemma dropSpace_fixed c s : isSpace c = false -> dropSpace (c :: s) = c :: s.
Proof. intros E. simpl. rewrite E. reflexivity. Qed.

Lemma dropSpace_spaces w s :
  forallb isSpace w = true -> dropSpace (w ++ s) = dropSpace s.
Proof.
  induction w as [|c w IH]; simpl; [reflexivity|].
  intros Hw. apply andb_true_iff in Hw as [Hc Hw]. rewrite Hc. auto.
Qed.

Lemma dropSpace_nil s : dropSpace s = [] <-> forallb isSpace s = true.
Proof.
  induction s as [|c s IH]; simpl; [tauto|].
  destruct (isSpace c); simpl; [exact IH|]. split; discriminate.
Qed.

(** [trim s] is [s] without a run of white space at either end, and has no
    white space at either end itself. *)
Lemma trim_split s :
  exists w1 w2,
    forallb isSpace w1 = true /\ forallb isSpace w2 = true
    /\ s = w1 ++ trim s ++ w2
    /\ match trim s with [] => True | c :: _ => isSpace c = false end
    /\ match rev (trim s) with [] => True | c :: _ => isSpace c = false end.
Proof.
  unfold trim.
  destruct (dropSpace_split s) as (w1 & Hw1 & E1).
  destruct (dropSpace_split (rev (dropSpace s))) as (v & Hv & E2).
  pose proof (dropSpace_head (rev (dropSpace s))) as Hh.
  pose proof (dropSpace_head s) as Hs.
  set (u := dropSpace (rev (dropSpace s))) in *.
  assert (E3 : dropSpace s = rev u ++ rev v).
  { rewrite <- rev_app_distr, <- E2, rev_involutive. reflexivity. }
  exists w1, (rev v). repeat split.
  - exact Hw1.
  - rewrite forallb_forall in Hv |- *. intros x Hx. apply Hv.
    apply in_rev. exact Hx.
  - rewrite <- E3. exact E1.
  - rewrite E3 in Hs. destruct u as [|c u]; simpl; [exact I|].
    simpl in Hs. destruct (rev u ++ [c]) eqn:Eu.
    + destruct (rev u); discriminate.
    + simpl in Hs. exact Hs.
  - rewrite rev_involutive. exact Hh.
Qed.

Lemma trim_fixed s :
  match s with [] => True | c :: _ => isSpace c = false end ->
  match rev s with [] => True | c :: _ => isSpace c = false end ->
  trim s = s.
Proof.
  intros H1 H2. unfold trim.
  assert (E : dropSpace s = s).
  { destruct s; [reflexivity|]. apply dropSpace_fixed. exact H1. }
  rewrite E.
  assert (E2 : dropSpace (rev s) = rev s).
  { destruct (rev s); [reflexivity|]. apply dropSpace_fixed. exact H2. }
  rewrite E2. apply rev_involutive.
Qed.

Lemma trim_twice s : trim (trim s) = trim s.
Proof.
  destruct (trim_split s) as (w1 & w2 & _ & _ & _ & H1 & H2).
  apply trim_fixed; assumption.
Qed.

Lemma trim_nil s : trim s = [] <-> forallb isSpace s = true.
Proof.
  split.
  - intros E. destruct (trim_split s) as (w1 & w2 & H1 & H2 & Es & _).
    rewrite E in Es. rewrite Es. simpl. rewrite forallb_app, H1, H2. reflexivity.
  - intros Hs. unfold trim.
    apply dropSpace_nil in Hs. rewrite Hs. reflexivity.
Qed.

(** ** Numbers and their decimal text *)

Lemma digitsValue_numeral d : forall acc,
  Menu.digitsValue acc (lit (NilEmpty.string_of_uint d)) = uintValue acc d.
Proof.
  induction d; intros acc; simpl; try reflexivity; apply IHd.
Qed.

Lemma of_uint_acc_value d : forall acc,
  Z.pos (Pos.of_uint_acc d acc) = uintValue (Z.pos acc) d.
Proof.
  induction d; intros acc; simpl Pos.of_uint_acc; simpl uintValue;
    try reflexivity; rewrite IHd; f_equal; lia.
Qed.

Lemma of_uint_value d : Z.of_N (Pos.of_uint d) = uintValue 0 d.
Proof.
  induction d; simpl Pos.of_uint; simpl uintValue; try reflexivity;
    try apply IHd; simpl Z.of_N; apply of_uint_acc_value.
Qed.

Lemma numeral_head p :
  exists c s, lit (NilEmpty.string_of_uint (Pos.to_uint p)) = c :: s
              /\ isDigit c = true.
Proof.
  pose proof (Unsigned.of_to p) as E.
  destruct (Pos.to_uint p); simpl in E; try discriminate;
    simpl; eexists _, _; split; reflexivity.
Qed.

Lemma numeral_value p :
  Menu.digitsValue 0 (lit (NilEmpty.string_of_uint (Pos.to_uint p))) = Z.pos p.
Proof.
  rewrite digitsValue_numeral, <- of_uint_value, Unsigned.of_to. reflexivity.
Qed.

Lemma isDigit_cases c :
  isDigit c = true -> In c [48; 49; 50; 51; 52; 53; 54; 55; 56; 57]%N.
Proof.
  unfold isDigit, inRange. intros Hd.
  apply andb_true_iff in Hd as [H1 H2].
  apply N.leb_le in H1. apply N.leb_le in H2.
  assert (c = 48 \/ c = 49 \/ c = 50 \/ c = 51 \/ c = 52 \/ c = 53 \/ c = 54
          \/ c = 55 \/ c = 56 \/ c = 57)%N as Hc by lia.
  simpl. intuition auto.
Qed.

Lemma parseInt10_digits c s :
  isDigit c = true -> Menu.parseInt10 (c :: s) = Some (Menu.digitsValue 0 (c :: s)).
Proof.
  intros Hd. apply isDigit_cases in Hd. simpl in Hd.
  assert (forall v, Some (1 * v)%Z = Some v) as E by (intros v; f_equal; lia).
  repeat (destruct Hd as [<- | Hd]; [apply E|]). destruct Hd.
Qed.

Lemma parseInt10_toString z : Menu.parseInt10 (toString z) = Some z.
Proof.
  unfold toString. destruct z as [|p|p]; simpl Z.to_int.
  - reflexivity.
  - simpl NilEmpty.string_of_int.
    destruct (numeral_head p) as (c & s & E & Hd).
    pose proof (numeral_value p) as V. rewrite E in V |- *.
    rewrite parseInt10_digits by assumption. congruence.
  - simpl NilEmpty.string_of_int.
    destruct (numeral_head p) as (c & s & E & Hd).
    pose proof (numeral_value p) as V.
    change (lit (String "-" (NilEmpty.string_of_uint (Pos.to_uint p))))
      with (45%N :: lit (NilEmpty.string_of_uint (Pos.to_uint p))).
    rewrite E in V |- *.
    unfold Menu.parseInt10. cbn [dropSpace].
    change (isSpace 45) with false. cbv iota.
    rewrite Hd, V. reflexivity.
Qed.

Lemma toString_inj a b : toString a = toString b -> a = b.
Proof.
  intros E. pose proof (parseInt10_toString a) as Ha.
  rewrite E, parseInt10_toString in Ha. congruence.
Qed.

(** ** The key of the service *)

Lemma initOpenAI_blank key p :
  trim key = [] ->
  Settings.initOpenAI key p
  = ({| Settings.config := Settings.config p;
        Settings.statusMessage := Settings.statusMessage p;
        Settings.errorMessage := lit "Please enter a valid OpenAI API key";
        Settings.llmStatusDisplay := Settings.llmStatusDisplay p;
        Settings.openai_api_key := Settings.openai_api_key p |}, false).
Proof.
  intros E. unfold Settings.initOpenAI. rewrite E.
  rewrite orb_true_r. reflexivity.
Qed.

Lemma initOpenAI_key key p :
  trim key <> [] ->
  Settings.initOpenAI key p
  = ({| Settings.config :=
          {| Settings.apiKey := key; Settings.initialized := true |};
        Settings.statusMessage := lit "OpenAI integration initialized";
        Settings.errorMessage := Settings.errorMessage p;
        Settings.llmStatusDisplay := Settings.llmStatusDisplay p;
        Settings.openai_api_key := Settings.openai_api_key p |}, true).
Proof.
  intros E. unfold Settings.initOpenAI.
  assert (eqStr (trim key) [] = false) as ->.
  { destruct (eqStr (trim key) []) eqn:Q; [|reflexivity].
    apply eqStr_eq in Q. contradiction. }
  assert (eqStr key [] = false) as ->.
  { destruct key; [|reflexivity]. exfalso. apply E. reflexivity. }
  reflexivity.
Qed.

Lemma forallb_false (f : N -> bool) l :
  forallb f l = false -> exists c, In c l /\ f c = false.
Proof.
  induction l as [|x l IH]; simpl; [discriminate|].
  destruct (f x) eqn:E; simpl.
  - intros Hl. destruct (IH Hl) as (c & Hc & Hf). exists c. auto.
  - intros _. exists x. auto.
Qed.

Lemma trim_blank key :
  trim key = [] <-> ~ exists c, In c key /\ isSpace c = false.
Proof.
  rewrite trim_nil, forallb_forall. split.
  - intros Hall (c & Hc & Hs). rewrite (Hall c Hc) in Hs. discriminate.
  - intros Hn c Hc. destruct (isSpace c) eqn:E; [reflexivity|].
    exfalso. apply Hn. exists c. auto.
Qed.

(** X22: [initOpenAI] accepts a key exactly when it has a character that is
    not white space. An accepted key is stored as it was given and sets
    [config.initialized]; a refused one leaves [config] as it was and sets
    the error message. *)
Theorem key_is_accepted_unless_blank (key : str) (p : Settings.Page) :
  (snd (Settings.initOpenAI key p) = true
   <-> exists c, In c key /\ isSpace c = false)
  /\ (snd (Settings.initOpenAI key p) = true ->
        Settings.config (fst (Settings.initOpenAI key p))
        = {| Settings.apiKey := key; Settings.initialized := true |})
  /\ (snd (Settings.initOpenAI key p) = false ->
        Settings.config (fst (Settings.initOpenAI key p)) = Settings.config p
        /\ Settings.getErrorMessage (fst (Settings.initOpenAI key p))
           = lit "Please enter a valid OpenAI API key").
Proof.
  destruct (decide (trim key = [])) as [E | E].
  - rewrite (initOpenAI_blank key p E). simpl.
    split; [|split]; try discriminate; [|auto].
    split; [discriminate|]. intros Hc. apply trim_blank in E. contradiction.
  - rewrite (initOpenAI_key key p E). simpl.
    split; [|split]; try discriminate; [|auto].
    split; [|reflexivity]. intros _.
    destruct (forallb isSpace key) eqn:Q.
    + apply trim_nil in Q. contradiction.
    + apply forallb_false in Q. exact Q.
Qed.

(** X23: a key that was saved is found again when the page is loaded the next
    time: the stored text is the trimmed input, and [config] after the
    reload is [config] after the save. A blank input changes neither the
    stored key nor [config] and shows the error message. *)
Theorem saved_key_survives_reload (inputValue : str) (p : Settings.Page) :
  let p' := Settings.saveApiKey inputValue p in
  (trim inputValue <> [] ->
     Settings.openai_api_key p' = Some (trim inputValue)
     /\ Settings.config p'
        = {| Settings.apiKey := trim inputValue; Settings.initialized := true |}
     /\ Settings.config
          (Settings.loadStoredApiKey
             (Settings.initialPage (Settings.openai_api_key p')))
        = Settings.config p')
  /\ (trim inputValue = [] ->
        Settings.openai_api_key p' = Settings.openai_api_key p
        /\ Settings.config p' = Settings.config p
        /\ Settings.llmStatusDisplay p'
           = lit "Please enter a valid OpenAI API key").
Proof.
  intros p'. subst p'. unfold Settings.saveApiKey. split.
  - intros E. assert (E2 : trim (trim inputValue) <> []) by (rewrite trim_twice; exact E).
    rewrite (initOpenAI_key _ p E2). simpl.
    split; [reflexivity|]. split; [reflexivity|].
    unfold Settings.loadStoredApiKey. simpl.
    assert (eqStr (trim inputValue) [] = false) as ->.
    { destruct (eqStr (trim inputValue) []) eqn:Q; [|reflexivity].
      apply eqStr_eq in Q. contradiction. }
    simpl. rewrite (initOpenAI_key _ _ E2). reflexivity.
  - intros E. assert (E2 : trim (trim inputValue) = []) by (rewrite trim_twice; exact E).
    rewrite (initOpenAI_blank _ p E2). simpl. auto.
Qed.

(** ** The body of a function declaration *)

Lemma indexOf_char c a t :
  forallb (fun x => negb (x =? c)%N) a = true ->
  indexOf [c] (a ++ c :: t) = Some (length a).
Proof.
  induction a as [|x a IH]; simpl.
  - intros _. rewrite N.eqb_refl. reflexivity.
  - intros Ha. apply andb_true_iff in Ha as [Hx Ha].
    rewrite (IH Ha). apply negb_true_iff in Hx. rewrite N.eqb_sym in Hx.
    rewrite Hx. reflexivity.
Qed.

Lemma indexOf_none c s : includes [c] s = false -> indexOf [c] s = None.
Proof.
  induction s as [|x s IH]; intros Hn; [reflexivity|].
  change (includes [c] (x :: s))
    with (startsWith [c] (x :: s) || includes [c] s) in Hn.
  apply orb_false_iff in Hn as [H1 H2].
  change (indexOf [c] (x :: s))
    with (if startsWith [c] (x :: s) then Some 0%nat
          else option_map S (indexOf [c] s)).
  rewrite H1, (IH H2). reflexivity.
Qed.

Lemma closeBraceIndex_balanced body : forall d i rest,
  balanced d body = true ->
  closeBraceIndex (Z.of_nat d + 1) i (body ++ 125%N :: rest)
  = Some (i + length body)%nat.
Proof.
  induction body as [|c body IH]; intros d i rest Hb; simpl in Hb.
  - apply Nat.eqb_eq in Hb. subst d. simpl. f_equal. lia.
  - cbn [app closeBraceIndex length].
    destruct (c =? 123)%N eqn:E1.
    + apply N.eqb_eq in E1. subst c. change (123 =? 125)%N with false. cbv iota.
      replace (Z.of_nat d + 1 + 1 =? 0)%Z with false by (symmetry; apply Z.eqb_neq; lia).
      replace (Z.of_nat d + 1 + 1)%Z with (Z.of_nat (S d) + 1)%Z by lia.
      rewrite (IH (S d) (S i) rest Hb). f_equal. lia.
    + destruct (c =? 125)%N eqn:E2.
      * destruct d as [|d']; [discriminate|].
        replace (Z.of_nat (S d') + 1 - 1 =? 0)%Z with false
          by (symmetry; apply Z.eqb_neq; lia).
        replace (Z.of_nat (S d') + 1 - 1)%Z with (Z.of_nat d' + 1)%Z by lia.
        rewrite (IH d' (S i) rest Hb). f_equal. lia.
      * replace (Z.of_nat d + 1 =? 0)%Z with false
          by (symmetry; apply Z.eqb_neq; lia).
        rewrite (IH d (S i) rest Hb). f_equal. lia.
Qed.

Lemma closeBraceIndex_none s : forall d i,
  (0 < d)%Z ->
  forallb (fun x => negb (x =? 125)%N) s = true ->
  closeBraceIndex d i s = None.
Proof.
  induction s as [|c s IH]; intros d i Hd Hs; simpl; [reflexivity|].
  simpl in Hs. apply andb_true_iff in Hs as [Hc Hs].
  apply negb_true_iff in Hc. rewrite Hc.
  destruct (c =? 123)%N.
  - replace (d + 1 =? 0)%Z with false by (symmetry; apply Z.eqb_neq; lia).
    apply IH; [lia | exact Hs].
  - replace (d =? 0)%Z with false by (symmetry; apply Z.eqb_neq; lia).
    apply IH; [lia | exact Hs].
Qed.

(** X3: of a function declaration whose body has paired braces,
    [extractFunctionBody] returns the body between the first opening brace
    and the brace that closes it, trimmed: the header and what follows the
    closing brace are dropped. *)
Theorem function_body_is_extracted (header body rest : str) :
  forallb (fun x => negb (x =? 123)%N) header = true ->
  balanced 0 body = true ->
  extractFunctionBody
    (lit "function" ++ header ++ lit "{" ++ body ++ lit "}" ++ rest)
  = trim body.
Proof.
  intros Hh Hb. unfold extractFunctionBody.
  assert (Hs : startsWith (lit "function")
                 (lit "function" ++ header ++ lit "{" ++ body ++ lit "}" ++ rest)
               = true).
  { apply startsWith_spec. eexists. reflexivity. }
  rewrite Hs.
  assert (Hi : indexOf [123%N]
                 (lit "function" ++ header ++ lit "{" ++ body ++ lit "}" ++ rest)
               = Some (length (lit "function" ++ header))).
  { rewrite (app_assoc (lit "function") header).
    apply indexOf_char. rewrite forallb_app.
    apply andb_true_iff. split; [reflexivity | exact Hh]. }
  rewrite Hi.
  assert (Hk : skipn (length (lit "function" ++ header) + 1)
                 (lit "function" ++ header ++ lit "{" ++ body ++ lit "}" ++ rest)
               = body ++ 125%N :: rest).
  { rewrite (app_assoc (lit "function") header).
    rewrite (app_assoc (lit "function" ++ header) (lit "{")).
    replace (length (lit "function" ++ header) + 1)%nat
      with (length ((lit "function" ++ header) ++ lit "{"))
      by (rewrite length_app; reflexivity).
    rewrite skipn_app, skipn_all, Nat.sub_diag. reflexivity. }
  rewrite Hk.
  rewrite (closeBraceIndex_balanced body 0 _ rest Hb).
  f_equal. unfold substring. rewrite Hk.
  replace (length (lit "function" ++ header) + 1 + length body
           - (length (lit "function" ++ header) + 1))%nat
    with (length body) by lia.
  rewrite firstn_app, firstn_all, Nat.sub_diag. simpl. apply app_nil_r.
Qed.

(** [function_body_is_extracted] at a sample input. *)
Lemma function_body_is_extracted_witness :
  (forallb (fun x => negb (x =? 123)%N) (lit " act(x, y, i) ") = true
   /\ balanced 0 (lit " if (a) { b(); } ") = true)
  /\ extractFunctionBody
       (lit "function" ++ lit " act(x, y, i) " ++ lit "{"
        ++ lit " if (a) { b(); } " ++ lit "}" ++ lit " act();")
     = trim (lit " if (a) { b(); } ").
Proof.
  split; [split; reflexivity|].
  apply (function_body_is_extracted (lit " act(x, y, i) ")
           (lit " if (a) { b(); } ") (lit " act();")); reflexivity.
Defined.

(** X4: [extractFunctionBody] returns its argument as it is when the text
    does not begin with the word [function], when it has no opening brace,
    and when no closing brace follows the first opening one. *)
Theorem text_without_a_body_is_kept (actionCode : str) :
  (startsWith (lit "function") actionCode = false ->
     extractFunctionBody actionCode = actionCode)
  /\ (includes (lit "{") actionCode = false ->
        extractFunctionBody actionCode = actionCode)
  /\ (forall a b, actionCode = a ++ lit "{" ++ b ->
        forallb (fun x => negb (x =? 123)%N) a = true ->
        forallb (fun x => negb (x =? 125)%N) b = true ->
        extractFunctionBody actionCode = actionCode).
Proof.
  unfold extractFunctionBody. split; [|split].
  - intros ->. reflexivity.
  - intros Hn. destruct (startsWith (lit "function") actionCode); [|reflexivity].
    change (lit "{") with [123%N] in Hn.
    rewrite (indexOf_none 123%N actionCode Hn). reflexivity.
  - intros a b -> Ha Hb.
    destruct (startsWith (lit "function") (a ++ lit "{" ++ b)); [|reflexivity].
    change (lit "{" ++ b) with (123%N :: b).
    rewrite (indexOf_char 123%N a b Ha).
    replace (length a + 1)%nat with (length (a ++ [123%N]))
      by (rewrite length_app; reflexivity).
    change (a ++ 123%N :: b) with (a ++ [123%N] ++ b).
    rewrite (app_assoc a [123%N] b), skipn_app, skipn_all, Nat.sub_diag.
    simpl. rewrite (closeBraceIndex_none b 1 _ ltac:(lia) Hb). reflexivity.
Qed.

(** ** Colour components *)

Lemma getColorComponents_arith c :
  getColorComponents c
  = (c mod 256, (c / 256) mod 256, (c / 65536) mod 256)%Z.
Proof.
  unfold getColorComponents.
  rewrite !Z.shiftr_land.
  change (Z.shiftr 65280 8) with (Z.ones 8).
  change (Z.shiftr 16711680 16) with (Z.ones 8).
  change 255%Z with (Z.ones 8).
  rewrite !Z.land_ones by lia.
  rewrite !Z.shiftr_div_pow2 by lia.
  reflexivity.
Qed.

(** X13: the components of any element colour are channel values, and a
    colour packed as red + 256 green + 65536 blue under any higher bits is
    read back channel by channel. *)
Theorem components_of_a_packed_color (elementColor r g b high : Z) :
  (let '(r', g', b') := getColorComponents elementColor in
   inChannel r' /\ inChannel g' /\ inChannel b')
  /\ (inChannel r -> inChannel g -> inChannel b ->
        getColorComponents (r + 256 * g + 65536 * b + 16777216 * high)
        = (r, g, b)).
Proof.
  split.
  - rewrite getColorComponents_arith. unfold inChannel.
    pose proof (Z.mod_pos_bound elementColor 256).
    pose proof (Z.mod_pos_bound (elementColor / 256) 256).
    pose proof (Z.mod_pos_bound (elementColor / 65536) 256).
    lia.
  - unfold inChannel. intros Hr Hg Hb.
    rewrite getColorComponents_arith.
    assert (E1 : ((r + 256 * g + 65536 * b + 16777216 * high) mod 256 = r)%Z).
    { replace (r + 256 * g + 65536 * b + 16777216 * high)%Z
        with (r + (g + 256 * b + 65536 * high) * 256)%Z by lia.
      rewrite Z.mod_add by lia. apply Z.mod_small. lia. }
    assert (E2 : ((r + 256 * g + 65536 * b + 16777216 * high) / 256
                  = g + 256 * b + 65536 * high)%Z).
    { replace (r + 256 * g + 65536 * b + 16777216 * high)%Z
        with (r + (g + 256 * b + 65536 * high) * 256)%Z by lia.
      rewrite Z.div_add by lia. rewrite Z.div_small by lia. lia. }
    assert (E3 : ((r + 256 * g + 65536 * b + 16777216 * high) / 65536
                  = b + 256 * high)%Z).
    { replace (r + 256 * g + 65536 * b + 16777216 * high)%Z
        with ((r + 256 * g) + (b + 256 * high) * 65536)%Z by lia.
      rewrite Z.div_add by lia. rewrite Z.div_small by lia. lia. }
    rewrite E1, E2, E3.
    replace (g + 256 * b + 65536 * high)%Z with (g + (b + 256 * high) * 256)%Z by lia.
    rewrite Z.mod_add by lia. rewrite (Z.mod_small g) by lia.
    replace (b + 256 * high)%Z with (b + high * 256)%Z by lia.
    rewrite Z.mod_add by lia. rewrite (Z.mod_small b) by lia.
    reflexivity.
Qed.

(** ** The categories of the prompt *)

Lemma upperChar_lowerChar c : upperChar (lowerChar c) = upperChar c.
Proof.
  unfold lowerChar. destruct (isUpper c) eqn:E; [|reflexivity].
  unfold isUpper, inRange in E. apply andb_true_iff in E as [E1 E2].
  apply N.leb_le in E1, E2. unfold upperChar, isLower, inRange.
  assert ((97 <=? c + 32)%N && (c + 32 <=? 122)%N = true) as ->.
  { apply andb_true_iff. split; apply N.leb_le; lia. }
  assert ((97 <=? c)%N && (c <=? 122)%N = false) as ->.
  { apply andb_false_iff. left. apply N.leb_gt. lia. }
  lia.
Qed.

Lemma toUpperCase_toLowerCase s : toUpperCase (toLowerCase s) = toUpperCase s.
Proof.
  unfold toUpperCase, toLowerCase. rewrite map_map.
  apply map_ext. intros c. apply upperChar_lowerChar.
Qed.

(** X21: the category the prompt is written for follows the same keywords as
    the wrapper's fallback, in the same order: a name the fallback treats as
    explosive is in the category [explosive], one it treats as a liquid is
    [explosive] or [liquid], one it treats as a gas is [explosive], [liquid]
    or [gas]. The category does not depend on the case of the letters. *)
Theorem category_agrees_with_fallback (particleName : str) :
  (isExplosiveName particleName = true ->
     categorizeParticleType particleName = explosive)
  /\ (isLiquidName particleName = true ->
        categorizeParticleType particleName = explosive
        \/ categorizeParticleType particleName = liquid)
  /\ (isGasName particleName = true ->
        categorizeParticleType particleName = explosive
        \/ categorizeParticleType particleName = liquid
        \/ categorizeParticleType particleName = gas)
  /\ categorizeParticleType (toUpperCase particleName)
     = categorizeParticleType particleName
  /\ categorizeParticleType (toLowerCase particleName)
     = categorizeParticleType particleName.
Proof.
  split; [|split; [|split; [|split]]].
  - unfold isExplosiveName, categorizeParticleType. cbv zeta. intros Hx.
    apply orb_true_iff in Hx as [Hx | Hx];
      [apply orb_true_iff in Hx as [Hx | Hx]|]; rewrite Hx;
      rewrite ?orb_true_r; reflexivity.
  - unfold isLiquidName, categorizeParticleType. cbv zeta. intros Hx.
    match goal with
    | |- context [if ?c then explosive else _] => destruct c
    end; [left; reflexivity | right].
    apply orb_true_iff in Hx as [Hx | Hx]; rewrite Hx;
      rewrite ?orb_true_r; reflexivity.
  - unfold isGasName, categorizeParticleType. cbv zeta. intros Hx.
    match goal with
    | |- context [if ?c then explosive else _] => destruct c
    end; [left; reflexivity | right].
    match goal with
    | |- context [if ?c then liquid else _] => destruct c
    end; [left; reflexivity | right].
    apply orb_true_iff in Hx as [Hx | Hx]; rewrite Hx;
      rewrite ?orb_true_r; reflexivity.
  - unfold categorizeParticleType. cbv zeta.
    rewrite toUpperCase_twice. reflexivity.
  - unfold categorizeParticleType. cbv zeta.
    rewrite toUpperCase_toLowerCase. reflexivity.
Qed.

(** ** Sessions: the tables over a sequence of events *)

Section SessionFacts.
Context `{Host}.

Lemma unknown_name (st : State) n :
  getElementColorFromName st n = None ->
  customElementColors st !! n = None \/ customElementColors st !! n = Some 0%Z.
Proof.
  unfold getElementColorFromName.
  destruct (customElementColors st !! n) as [c|]; [|auto].
  destruct (c =? 0)%Z eqn:E; [|discriminate].
  apply Z.eqb_eq in E. subst c. auto.
Qed.

Lemma is_Some_insert {K A} `{Countable K} (m : gmap K A) k v k' :
  is_Some (m !! k') -> is_Some (<[k := v]> m !! k').
Proof.
  intros Hs. destruct (decide (k = k')) as [-> | Hne].
  - rewrite lookup_insert_eq. eauto.
  - rewrite lookup_insert_ne by exact Hne. exact Hs.
Qed.

Lemma grownBy_nil (st st' : State) :
  elements st' = elements st ->
  elementActions st' = elementActions st ->
  nextCustomElementIdx st' = nextCustomElementIdx st ->
  grownBy st st' [].
Proof.
  intros He Hf Hi. unfold grownBy. rewrite He, Hf, Hi, app_nil_r. simpl.
  split; [reflexivity|]. split; [|split; [lia | constructor]].
  exists []. rewrite app_nil_r. auto.
Qed.

(** One registration, whatever its outcome. *)
Lemma register_step (d : ParticleData) (st : State) :
  let st' := fst (registerCustomParticle d st) in
  extends st st'
  /\ customParticles st' = customParticles st
  /\ is_Some (customElementColors st' !! name d)
  /\ exists ids, grownBy st st' ids
       /\ (forall c, In c ids ->
             snd (registerCustomParticle d st) = inr c
             \/ snd (registerCustomParticle d st) = inl ListNotDrawn)
       /\ (forall c, getElementColorFromName st (name d) = Some c -> ids = []).
Proof.
  intros st'. subst st'.
  destruct (getElementColorFromName st (name d)) as [c0|] eqn:Ek.
  - rewrite (register_known d st c0 Ek).
    pose proof (lookup_known st _ _ Ek) as Hl.
    destruct (buildAction safeActionCodeUpdate d c0) as [f|];
      rewrite ?redraw_fst; simpl.
    + split; [|split; [|split]].
      * unfold extends, getElementColorFromName. simpl.
        repeat split; auto. intros c. apply is_Some_insert.
      * reflexivity.
      * rewrite Hl. eauto.
      * exists []. split; [|split].
        -- apply grownBy_nil; reflexivity.
        -- intros c [].
        -- reflexivity.
    + split; [|split; [|split]].
      * unfold extends. repeat split; auto.
      * reflexivity.
      * rewrite Hl. eauto.
      * exists []. split; [|split].
        -- apply grownBy_nil; reflexivity.
        -- intros c [].
        -- reflexivity.
  - pose proof (unknown_name st _ Ek) as Hu.
    assert (Hext : forall (st' : State),
              customElementColors st'
              = <[name d := newElementColor d st]> (customElementColors st) ->
              (forall n c, getElementColorFromName st n = Some c ->
                           getElementColorFromName st' n = Some c)
              /\ (forall n, is_Some (customElementColors st !! n) ->
                            is_Some (customElementColors st' !! n))).
    { intros st' Hc. split.
      - intros n c Hn.
        assert (n <> name d) as Hne.
        { intros ->. rewrite Ek in Hn. discriminate. }
        unfold getElementColorFromName in *. rewrite Hc.
        rewrite lookup_insert_ne by congruence. exact Hn.
      - intros n. rewrite Hc. apply is_Some_insert. }
    destruct (register_new_rest d st Ek) as (Hp1 & Hp2 & _).
    destruct (buildAction safeActionCodeNew d (newElementColor d st)) as [f|] eqn:E.
    + destruct (register_new_success d st f Ek E)
        as (Hs & Hc & Hm & Ha & He & Hf & Hi).
      destruct (Hext _ Hc) as [Hx1 Hx2].
      split; [|split; [|split]].
      * unfold extends. repeat split; auto.
        -- intros c. rewrite Ha. apply is_Some_insert.
        -- intros c. rewrite Hm. apply is_Some_insert.
      * exact Hp1.
      * rewrite Hc, lookup_insert_eq. eauto.
      * exists [newElementColor d st]. split; [|split].
        -- unfold grownBy. rewrite He, Hf, Hi, Ha, Hm. simpl.
           repeat split; auto.
           ++ exists [f]. auto.
           ++ constructor; [|constructor].
              rewrite !lookup_insert_eq. eauto.
        -- intros c [<- | []]. rewrite Hs. unfold redrawAndReturn.
           destruct (Menu.updateCustomParticlesList _); simpl; auto.
        -- discriminate.
    + destruct (register_new_failure d st Ek E)
        as (Hs & Hc & Hm & Ha & He & Hf & Hi).
      destruct (Hext _ Hc) as [Hx1 Hx2].
      split; [|split; [|split]].
      * unfold extends. repeat split; auto.
        -- intros c. rewrite Ha. auto.
        -- intros c. rewrite Hm. apply is_Some_insert.
      * exact Hp1.
      * rewrite Hc, lookup_insert_eq. eauto.
      * exists []. split; [|split].
        -- apply grownBy_nil; assumption.
        -- intros c [].
        -- discriminate.
Qed.

(** [generateParticle] writes [customParticles[particleName]] and nothing
    else, and writes nothing when it fails. *)
Lemma generate_step particleName reply (st : State) :
  let st' := fst (generateParticle particleName reply st) in
  customElementColors st' = customElementColors st
  /\ customElementActions st' = customElementActions st
  /\ nextCustomElementIdx st' = nextCustomElementIdx st
  /\ menuNames st' = menuNames st
  /\ elements st' = elements st
  /\ elementActions st' = elementActions st
  /\ initialized st' = initialized st
  /\ (forall k, k <> particleName ->
        customParticles st' !! k = customParticles st !! k)
  /\ (forall e, snd (generateParticle particleName reply st) = inl e -> st' = st)
  /\ (forall d, snd (generateParticle particleName reply st) = inr d ->
        customParticles st' = <[particleName := d]> (customParticles st)).
Proof.
  intros st'. subst st'. unfold generateParticle.
  destruct (negb (initialized st)); [simpl; repeat split; auto; discriminate|].
  destruct reply as [| | |raw]; try (simpl; repeat split; auto; discriminate).
  destruct (_ || _ || _); [simpl; repeat split; auto; discriminate|].
  destruct (raw_name raw) as [|n|]; try (simpl; repeat split; auto; discriminate).
  destruct (raw_color raw) as [| |r g b];
    try (simpl; repeat split; auto; discriminate).
  destruct (validateUniqueParticle _) as [v|];
    [|simpl; repeat split; auto; discriminate].
  simpl. repeat split; auto; try discriminate.
  - intros k Hk. rewrite lookup_insert_ne by congruence. reflexivity.
  - intros d [= <-]. reflexivity.
Qed.

End SessionFacts.

Section SessionFacts2.
Context `{Host}.

Lemma extends_refl (st : State) : extends st st.
Proof. unfold extends. auto 10. Qed.

Lemma extends_trans (st1 st2 st3 : State) :
  extends st1 st2 -> extends st2 st3 -> extends st1 st3.
Proof.
  unfold extends. intros (A1 & A2 & A3 & A4 & A5) (B1 & B2 & B3 & B4 & B5).
  repeat split; auto. congruence.
Qed.

Lemma grownBy_trans (st1 st2 st3 : State) ids1 ids2 :
  grownBy st1 st2 ids1 -> grownBy st2 st3 ids2 -> extends st2 st3 ->
  grownBy st1 st3 (ids1 ++ ids2).
Proof.
  unfold grownBy.
  intros (E1 & (fs1 & F1 & L1) & N1 & A1) (E2 & (fs2 & F2 & L2) & N2 & A2)
         (_ & _ & X3 & X4 & _).
  split; [|split; [|split]].
  - rewrite E2, E1, app_assoc. reflexivity.
  - exists (fs1 ++ fs2). rewrite F2, F1, app_assoc, !length_app. auto.
  - rewrite N2, N1, length_app. lia.
  - apply Forall_app. split; [|exact A2].
    eapply Forall_impl; [exact A1|]. intros c [Ha Hm]. auto.
Qed.

Lemma generate_extends particleName reply (st : State) :
  extends st (fst (generateParticle particleName reply st))
  /\ grownBy st (fst (generateParticle particleName reply st)) [].
Proof.
  destruct (generate_step particleName reply st)
    as (Hc & Ha & Hi & Hm & He & Hf & Hini & _).
  split.
  - unfold extends, getElementColorFromName. rewrite Hc, Ha, Hm, Hini. auto 10.
  - apply grownBy_nil; assumption.
Qed.

(** The state after a submission is the state [registerCustomParticle]
    leaves, called on what [generateParticle] stored, or the state before. *)
Lemma submission_cases input reply (st : State) :
  handleParticleSubmission input reply st = (st, NothingSubmitted)
  \/ (exists e, handleParticleSubmission input reply st = (st, GenerationFailed e))
  \/ (exists d,
        generateParticle (toUpperCase (trim input)) reply st
        = (fst (generateParticle (toUpperCase (trim input)) reply st), inr d)
        /\ name d = toUpperCase (trim input)
        /\ initialized st = true
        /\ fst (handleParticleSubmission input reply st)
           = fst (registerCustomParticle d
                    (fst (generateParticle (toUpperCase (trim input)) reply st)))
        /\ snd (handleParticleSubmission input reply st)
           = match snd (registerCustomParticle d
                          (fst (generateParticle (toUpperCase (trim input)) reply st))) with
             | inr c => Registered c
             | inl e => RegistrationFailed e
             end).
Proof.
  unfold handleParticleSubmission.
  destruct (eqStr _ []); [auto|].
  destruct (initialized st) eqn:Ei; simpl; [|auto].
  destruct (generateParticle _ reply st) as [st1 [e|d]] eqn:Eg.
  - right. left. exists e.
    pose proof (generate_step (toUpperCase (trim input)) reply st) as G.
    rewrite Eg in G. simpl in G. destruct G as (_ & _ & _ & _ & _ & _ & _ & _ & G & _).
    rewrite (G e eq_refl). reflexivity.
  - right. right. exists d. simpl.
    destruct (generated_fields _ _ _ _ _ Eg) as [Hn _].
    rewrite toUpperCase_twice in Hn.
    split; [reflexivity|]. split; [exact Hn|]. split; [reflexivity|].
    destruct (registerCustomParticle d st1) as [st2 [e|c]]; simpl; auto.
Qed.

Lemma handle_step (st : State) (e : Event) :
  extends st (handle st e) /\ exists ids, grownBy st (handle st e) ids.
Proof.
  destruct e as [input reply|]; simpl.
  - destruct (submission_cases input reply st) as [E | [(e & E) | (d & Eg & Hn & Hi & E & _)]].
    + rewrite E. simpl. split; [apply extends_refl|].
      exists []. apply grownBy_nil; reflexivity.
    + rewrite E. simpl. split; [apply extends_refl|].
      exists []. apply grownBy_nil; reflexivity.
    + rewrite E.
      destruct (generate_extends (toUpperCase (trim input)) reply st) as [X G].
      destruct (register_step d (fst (generateParticle (toUpperCase (trim input)) reply st)))
        as (X2 & _ & _ & ids & G2 & _).
      split; [eapply extends_trans; eassumption|].
      exists ([] ++ ids). eapply grownBy_trans; eassumption.
  - unfold clickTestButton.
    destruct (register_step createTestParticle st) as (X2 & _ & _ & ids & G2 & _).
    split; [exact X2|]. exists ids. exact G2.
Qed.

Lemma run_step (es : list Event) : forall st : State,
  extends st (run es st) /\ exists ids, grownBy st (run es st) ids.
Proof.
  induction es as [|e es IH]; intros st.
  - split; [apply extends_refl|]. exists []. apply grownBy_nil; reflexivity.
  - change (run (e :: es) st) with (run es (handle st e)).
    destruct (handle_step st e) as (X1 & ids1 & G1).
    destruct (IH (handle st e)) as (X2 & ids2 & G2).
    split; [eapply extends_trans; eassumption|].
    exists (ids1 ++ ids2). eapply grownBy_trans; eassumption.
Qed.

Lemma handle_list (st : State) (e : Event) :
  is_Some (Menu.updateCustomParticlesList st) ->
  is_Some (Menu.updateCustomParticlesList (handle st e)).
Proof.
  rewrite !list_is_drawn. intros Hl.
  destruct e as [input reply|]; simpl.
  - destruct (submission_cases input reply st) as [E | [(e & E) | (d & Eg & Hn & Hi & E & _)]];
      [rewrite E; exact Hl | rewrite E; exact Hl |].
    rewrite E.
    set (NAME := toUpperCase (trim input)) in *.
    destruct (generate_step NAME reply st)
      as (Hc & _ & _ & _ & _ & _ & _ & Hk & _ & Hd).
    destruct (register_step d (fst (generateParticle NAME reply st)))
      as ((_ & X2 & _) & Hp & Hs & _).
    intros n p. rewrite Hp. intros Hn'.
    destruct (decide (n = NAME)) as [-> | Hne].
    + rewrite Hn in Hs. exact Hs.
    + rewrite (Hk n Hne) in Hn'. apply X2. rewrite Hc. eapply Hl. exact Hn'.
  - unfold clickTestButton.
    destruct (register_step createTestParticle st) as ((_ & X2 & _) & Hp & _).
    intros n p. rewrite Hp. intros Hn'. apply X2. eapply Hl. exact Hn'.
Qed.

End SessionFacts2.

Section SessionClaims.
Context `{Host}.

(** X10: over any sequence of submissions and test clicks the engine's two
    tables grow together: [elements] and [elementActions] get the same
    number of entries at their ends and lose none, the counter rises by that
    number, and every id that was added has a callable in
    [customElementActions] and a menu name. *)
Theorem engine_tables_grow_in_step (es : list Event) (st : State) :
  exists ids fs,
    elements (run es st) = elements st ++ ids
    /\ elementActions (run es st) = elementActions st ++ fs
    /\ length fs = length ids
    /\ nextCustomElementIdx (run es st)
       = (nextCustomElementIdx st + Z.of_nat (length ids))%Z
    /\ Forall (fun c => is_Some (customElementActions (run es st) !! c)
                        /\ is_Some (menuNames (run es st) !! c)) ids.
Proof.
  destruct (run_step es st) as (_ & ids & He & (fs & Hf & Hl) & Hn & Ha).
  exists ids, fs. auto.
Qed.

(** X11: a name that has a colour keeps it: no submission and no test click,
    of this name or of another, with whatever outcome, changes the colour
    [getElementColorFromName] gives for it. *)
Theorem registered_name_keeps_its_color
        (es : list Event) (st : State) (n : str) (c : Z) :
  getElementColorFromName st n = Some c ->
  getElementColorFromName (run es st) n = Some c.
Proof.
  destruct (run_step es st) as ((Hk & _) & _). apply Hk.
Qed.

(** X18: if the list of buttons can be drawn (every stored description has a
    colour under its key), it can be drawn after any sequence of
    submissions and test clicks: [updateCustomParticlesList] does not
    raise. *)
Theorem particle_list_stays_drawable (es : list Event) (st : State) :
  is_Some (Menu.updateCustomParticlesList st) ->
  is_Some (Menu.updateCustomParticlesList (run es st)).
Proof.
  revert st. induction es as [|e es IH]; intros st Hl; [exact Hl|].
  change (run (e :: es) st) with (run es (handle st e)).
  apply IH. apply handle_list. exact Hl.
Qed.

(** X19: in the list [updateCustomParticlesList] draws, the button of a
    stored particle carries the key as its caption, selects the colour
    registered under the key and has the decimal text of that colour as its
    id, which [parseInt] reads back; another button has the same id exactly
    when it selects the same colour. *)
Theorem drawn_button_selects_the_registered_color
        (st : State) (n : str) (p : ParticleData) :
  is_Some (Menu.updateCustomParticlesList st) ->
  customParticles st !! n = Some p ->
  exists bs b c,
    Menu.updateCustomParticlesList st = Some bs
    /\ customElementColors st !! n = Some c
    /\ bs !! n = Some (b, c)
    /\ Menu.textContent b = n
    /\ Menu.id b = toString c
    /\ Menu.clickMenuButton b = Some c
    /\ forall n2 b2 c2, bs !! n2 = Some (b2, c2) ->
         (Menu.id b2 = Menu.id b <-> c2 = c).
Proof.
  intros Hl Hp. pose proof Hl as Hd. rewrite list_is_drawn in Hd.
  destruct (Hd n p Hp) as [c Hc]. destruct Hl as [bs Hbs].
  assert (Hlook : forall k, bs !! k
                  = customParticles st !! k ≫= Menu.particleButton st k).
  { intros k. unfold Menu.updateCustomParticlesList in Hbs. cbv zeta in Hbs.
    destruct (bool_decide _); [|discriminate]. injection Hbs as <-.
    apply map_lookup_imap. }
  assert (Hb : bs !! n
               = Some ({| Menu.textContent := n;
                          Menu.style_color :=
                            (let '(r, g, b) := color p in
                             Menu.ensureVisibleColor r g b);
                          Menu.id := toString c |}, c)).
  { rewrite Hlook, Hp. simpl. unfold Menu.particleButton.
    destruct (color p) as [[r g] b]. rewrite Hc. reflexivity. }
  eexists bs, _, c. split; [exact Hbs|]. split; [exact Hc|].
  split; [exact Hb|]. simpl. split; [reflexivity|]. split; [reflexivity|].
  split; [apply parseInt10_toString|].
  intros n2 b2 c2 H2. rewrite Hlook in H2.
  destruct (customParticles st !! n2) as [p2|]; [|discriminate]. simpl in H2.
  unfold Menu.particleButton in H2. destruct (color p2) as [[r2 g2] b2'].
  destruct (customElementColors st !! n2) as [c2'|]; [|discriminate].
  injection H2 as <- <-. simpl. split.
  - apply toString_inj.
  - intros ->. reflexivity.
Qed.

(** X17: a name that was registered with a colour other than [0] and is
    submitted again, in any spelling that trims and upper-cases to the same
    text and after any other events, is not added to the engine's tables a
    second time, and the submission returns the colour of the first one if
    it returns one. *)
Theorem resubmitted_name_keeps_its_id
        (input input2 : str) (reply reply2 : ServiceReply) (es : list Event)
        (st : State) (c : Z) :
  snd (handleParticleSubmission input reply st) = Registered c ->
  c <> 0%Z ->
  toUpperCase (trim input2) = toUpperCase (trim input) ->
  let st1 := run es (fst (handleParticleSubmission input reply st)) in
  elements (fst (handleParticleSubmission input2 reply2 st1)) = elements st1
  /\ nextCustomElementIdx (fst (handleParticleSubmission input2 reply2 st1))
     = nextCustomElementIdx st1
  /\ forall c2,
       snd (handleParticleSubmission input2 reply2 st1) = Registered c2 ->
       c2 = c.
Proof.
  intros Hr Hc Hn st1.
  assert (Hk : getElementColorFromName st1 (toUpperCase (trim input2)) = Some c).
  { destruct (run_step es (fst (handleParticleSubmission input reply st))) as ((Hkeep & _) & _). apply Hkeep.
    unfold getElementColorFromName.
    rewrite Hn.
    rewrite (submission_registers_typed_name input reply st
               (fst (handleParticleSubmission input reply st)) c).
    - destruct (c =? 0)%Z eqn:E; [|reflexivity]. apply Z.eqb_eq in E. contradiction.
    - rewrite <- Hr. apply surjective_pairing. }
  destruct (submission_cases input2 reply2 st1)
    as [E | [(e & E) | (d & Eg & Hd & Hi & E & Es)]].
  - rewrite E. simpl. repeat split; auto. discriminate.
  - rewrite E. simpl. repeat split; auto. discriminate.
  - rewrite E, Es.
    set (st2 := fst (generateParticle (toUpperCase (trim input2)) reply2 st1)) in *.
    destruct (generate_step (toUpperCase (trim input2)) reply2 st1)
      as (Gc & _ & Gi & _ & Ge & _).
    fold st2 in Gc, Gi, Ge.
    assert (Hk2 : getElementColorFromName st2 (name d) = Some c).
    { unfold getElementColorFromName. rewrite Gc, Hd. exact Hk. }
    rewrite (register_known d st2 c Hk2).
    destruct (buildAction safeActionCodeUpdate d c); simpl.
    + rewrite redraw_fst. simpl. repeat split; auto.
      intros c2 Hc2.
      destruct (snd (redrawAndReturn _ c)) as [e|c3] eqn:Q; [discriminate|].
      injection Hc2 as <-. now apply redraw_inr in Q as [-> _].
    + repeat split; auto. discriminate.
Qed.

End SessionClaims.

(** ** Generation and submission *)

Lemma adjust_range (c : Color) name :
  let '(r, g, b) := adjustColorForUniqueness c name in
  inChannel r /\ inChannel g /\ inChannel b.
Proof.
  unfold adjustColorForUniqueness.
  destruct (if isFireName name then shiftFire c
            else if isWaterName name then shiftWater c
            else if isPlantName name then shiftPlant c
            else shiftGeneral c) as [[r g] b].
  repeat split; apply clampChannel_range.
Qed.

Section GenerationClaims.
Context `{Host}.

(** X15: a description [generateParticle] returns has its three channels in
    0..255 whatever numbers the response held: they are the clamped channels
    of the response or their adjustment. Its fragment is the truthy
    [action_code] of the response, and it is the one value stored, under the
    requested name; a failure stores nothing. No other table changes. *)
Theorem generated_description_is_well_formed
        (particleName : str) (reply : ServiceReply) (st : State) :
  let st' := fst (generateParticle particleName reply st) in
  (forall e, snd (generateParticle particleName reply st) = inl e -> st' = st)
  /\ (forall d, snd (generateParticle particleName reply st) = inr d ->
        (let '(r, g, b) := color d in
         inChannel r /\ inChannel g /\ inChannel b)
        /\ truthy (action_code d) = true
        /\ (exists raw r g b,
              reply = Parsed raw /\ raw_color raw = Triple r g b
              /\ action_code d = raw_action_code raw
              /\ (color d = (clampChannel r, clampChannel g, clampChannel b)
                  \/ color d
                     = adjustColorForUniqueness
                         (clampChannel r, clampChannel g, clampChannel b)
                         (toUpperCase particleName)))
        /\ customParticles st' = <[particleName := d]> (customParticles st))
  /\ customElementColors st' = customElementColors st
  /\ customElementActions st' = customElementActions st
  /\ menuNames st' = menuNames st
  /\ elements st' = elements st
  /\ elementActions st' = elementActions st
  /\ nextCustomElementIdx st' = nextCustomElementIdx st.
Proof.
  intros st'. subst st'.
  destruct (generate_step particleName reply st)
    as (Hc & Ha & Hi & Hm & He & Hf & _ & _ & Hfail & Hok).
  split; [exact Hfail|]. split; [|auto 10].
  intros d Hd. split; [|split; [|split; [|exact (Hok d Hd)]]].
  - revert Hd. unfold generateParticle.
    destruct (negb (initialized st)); [discriminate|].
    destruct reply as [| | |raw]; try discriminate.
    destruct (_ || _ || _); [discriminate|].
    destruct (raw_name raw) as [|n|]; try discriminate.
    destruct (raw_color raw) as [| |r g b]; try discriminate.
    destruct (validateUniqueParticle _) as [v|]; [|discriminate].
    simpl. intros [= <-].
    destruct (negb (isValid v)); simpl.
    + apply adjust_range.
    + repeat split; apply clampChannel_range.
  - revert Hd. unfold generateParticle.
    destruct (negb (initialized st)); [discriminate|].
    destruct reply as [| | |raw]; try discriminate.
    destruct (_ || _ || negb (truthy (raw_action_code raw))) eqn:E; [discriminate|].
    apply orb_false_iff in E as [_ E]. apply negb_false_iff in E.
    destruct (raw_name raw) as [|n|]; try discriminate.
    destruct (raw_color raw) as [| |r g b]; try discriminate.
    destruct (validateUniqueParticle _) as [v|]; [|discriminate].
    simpl. intros [= <-].
    destruct (negb (isValid v)); simpl; exact E.
  - revert Hd. unfold generateParticle.
    destruct (negb (initialized st)); [discriminate|].
    destruct reply as [| | |raw]; try discriminate.
    destruct (_ || _ || _); [discriminate|].
    destruct (raw_name raw) as [|n|] eqn:En; try discriminate.
    destruct (raw_color raw) as [| |r g b] eqn:Ec; try discriminate.
    set (n2 := if negb (eqStr (toUpperCase n) (toUpperCase particleName))
               then toUpperCase particleName else toUpperCase n) in *.
    assert (Hn2 : n2 = toUpperCase particleName).
    { unfold n2. destruct (eqStr _ _) eqn:E; simpl; [|reflexivity].
      now apply eqStr_eq in E. }
    destruct (validateUniqueParticle _) as [v|]; [|discriminate].
    simpl. intros [= <-].
    exists raw, r, g, b. split; [reflexivity|]. split; [exact Ec|].
    destruct (negb (isValid v)); simpl; (split; [reflexivity|]).
    + right. rewrite Hn2. reflexivity.
    + left. reflexivity.
Qed.

Lemma blank_name input :
  eqStr (toUpperCase (trim input)) [] = true <-> forallb isSpace input = true.
Proof.
  rewrite eqStr_eq, <- trim_nil. unfold toUpperCase.
  split.
  - intros E. destruct (trim input); [reflexivity | discriminate].
  - intros ->. reflexivity.
Qed.

(** X16: a submission of white space only, or made before the key is set,
    does nothing; one whose generation fails leaves the registry as it was;
    one whose registration fails has stored the description all the same,
    and its name has a colour; when the error is that of the inner [try],
    the element and action lists are as before. The error of the closing
    redraw does not arise from a registry whose list can be drawn. *)
Theorem unfinished_submission (input : str) (reply : ServiceReply) (st : State) :
  let r := handleParticleSubmission input reply st in
  (forallb isSpace input = true -> r = (st, NothingSubmitted))
  /\ (initialized st = false -> r = (st, NothingSubmitted))
  /\ (snd r = NothingSubmitted -> fst r = st)
  /\ (forall e, snd r = GenerationFailed e -> fst r = st)
  /\ (forall e, snd r = RegistrationFailed e ->
        is_Some (customParticles (fst r) !! toUpperCase (trim input))
        /\ is_Some (customElementColors (fst r) !! toUpperCase (trim input))
        /\ (e <> ListNotDrawn ->
            elements (fst r) = elements st
            /\ elementActions (fst r) = elementActions st)
        /\ (is_Some (Menu.updateCustomParticlesList st) -> e <> ListNotDrawn)).
Proof.
  intros r. subst r. split; [|split].
  - intros Hb. apply blank_name in Hb. unfold handleParticleSubmission.
    rewrite Hb. reflexivity.
  - intros Hi. unfold handleParticleSubmission. rewrite Hi.
    destruct (eqStr _ []); reflexivity.
  - destruct (submission_cases input reply st)
      as [E | [(e & E) | (d & Eg & Hd & Hi & E & Es)]].
    + rewrite E. simpl. repeat split; auto; discriminate.
    + rewrite E. simpl. repeat split; auto; discriminate.
    + rewrite E, Es.
      set (NAME := toUpperCase (trim input)) in *.
      set (st1 := fst (generateParticle NAME reply st)) in *.
      destruct (generate_step NAME reply st)
        as (Gc & _ & _ & _ & Ge & Gf & _ & Gk & _ & Gd).
      fold st1 in Gc, Ge, Gf, Gk, Gd.
      assert (Hsd : snd (generateParticle NAME reply st) = inr d)
        by (rewrite Eg; reflexivity).
      destruct (register_step d st1)
        as ((_ & Hkeep & _) & Hp & Hs & ids & Hg & Hids & _).
      destruct (snd (registerCustomParticle d st1)) as [e|c] eqn:Er.
      * split; [discriminate|]. split; [discriminate|]. intros e' [= <-].
        rewrite Hp, (Gd d Hsd), lookup_insert_eq. split; [eauto|].
        rewrite Hd in Hs. split; [exact Hs|]. split.
        -- intros Hne.
           destruct ids as [|c ids].
           ++ destruct Hg as (He & (fs & Hf & Hl) & _).
              destruct fs; [|discriminate].
              rewrite He, Hf, !app_nil_r. auto.
           ++ destruct (Hids c (or_introl eq_refl)) as [Q | Q];
                [discriminate | congruence].
        -- intros Hdraw ->.
           assert (Hd2 : is_Some (Menu.updateCustomParticlesList
                                    (fst (registerCustomParticle d st1)))).
           { apply list_is_drawn. intros n p Hn. rewrite Hp, (Gd d Hsd) in Hn.
             destruct (decide (n = NAME)) as [-> | Hne].
             - exact Hs.
             - rewrite lookup_insert_ne in Hn by congruence.
               apply Hkeep. rewrite Gc.
               rewrite list_is_drawn in Hdraw. exact (Hdraw n p Hn). }
           destruct (getElementColorFromName st1 (name d)) as [c0|] eqn:Ek.
           ++ rewrite (register_known d st1 c0 Ek) in Er, Hd2.
              destruct (buildAction safeActionCodeUpdate d c0);
                [|discriminate].
              rewrite redraw_fst in Hd2.
              rewrite (redraw_drawn _ _ Hd2) in Er. discriminate.
           ++ destruct (buildAction safeActionCodeNew d (newElementColor d st1))
                as [f|] eqn:Eb.
              ** destruct (register_new_success d st1 f Ek Eb) as (Q & _).
                 rewrite Q, (redraw_drawn _ _ Hd2) in Er. discriminate.
              ** destruct (register_new_failure d st1 Ek Eb) as (Q & _).
                 congruence.
      * repeat split; discriminate.
Qed.

(** X12: a new name whose registration fails in the inner [try] is never
    added to the engine's tables by a later registration of the same name,
    when its colour is not [0]: the later registration takes the name for a
    known one, so [elements], [elementActions] and the counter stay as they
    were before the failure, and the colour it returns is the one the
    failure left. *)
Theorem failed_name_never_reaches_the_engine (d d2 : ParticleData) (st : State) e :
  getElementColorFromName st (name d) = None ->
  snd (registerCustomParticle d st) = inl e ->
  e <> ListNotDrawn ->
  newElementColor d st <> 0%Z ->
  name d2 = name d ->
  let st1 := fst (registerCustomParticle d st) in
  let st2 := fst (registerCustomParticle d2 st1) in
  getElementColorFromName st1 (name d) = Some (newElementColor d st)
  /\ elements st2 = elements st
  /\ elementActions st2 = elementActions st
  /\ nextCustomElementIdx st2 = nextCustomElementIdx st
  /\ forall c, snd (registerCustomParticle d2 st1) = inr c ->
       c = newElementColor d st
       /\ is_Some (customElementActions st2 !! c).
Proof.
  intros Hnew Hfail Hinner Hc Hn st1 st2. subst st1 st2.
  destruct (buildAction safeActionCodeNew d (newElementColor d st)) as [f|] eqn:E.
  { destruct (register_new_success d st f Hnew E) as (Hs & _).
    rewrite Hs in Hfail. apply redraw_inl in Hfail as [-> _]. contradiction. }
  destruct (register_new_failure d st Hnew E) as (_ & Hcol & _ & _ & He & Hf & Hi).
  set (st1 := fst (registerCustomParticle d st)) in *.
  assert (Hk : getElementColorFromName st1 (name d) = Some (newElementColor d st)).
  { unfold getElementColorFromName. rewrite Hcol, lookup_insert_eq.
    destruct (newElementColor d st =? 0)%Z eqn:Q; [|reflexivity].
    apply Z.eqb_eq in Q. contradiction. }
  split; [exact Hk|].
  rewrite <- Hn in Hk. rewrite (register_known d2 st1 _ Hk).
  destruct (buildAction safeActionCodeUpdate d2 (newElementColor d st)); simpl.
  - rewrite redraw_fst. simpl.
    split; [exact He|]. split; [exact Hf|]. split; [exact Hi|].
    intros c Hr. apply redraw_inr in Hr as [-> _].
    split; [reflexivity|]. rewrite lookup_insert_eq. eauto.
  - split; [exact He|]. split; [exact Hf|]. split; [exact Hi|]. discriminate.
Qed.

End GenerationClaims.

(** ** What the sanitizer leaves *)

Lemma matches_literal W : forall ps, matches (map Lit W) ps -> concat ps = W.
Proof.
  induction W as [|c W IH]; intros ps Hm; inversion Hm as [|a p Q ps' Hp Hms]; subst.
  - reflexivity.
  - simpl in Hp. subst p. simpl. f_equal. apply IH. exact Hms.
Qed.

(** A literal pattern occurs where [includes] finds its text. *)
Lemma occurs_literal W s : occurs (map Lit W) s = includes W s.
Proof.
  destruct (includes W s) eqn:E.
  - apply occurs_occ. apply includes_spec in E as (a & b & ->).
    exists a, (W ++ b). split; [reflexivity|].
    exists (map (fun c => [c]) W), b. split; [apply literal_matches|].
    rewrite concat_singletons. reflexivity.
  - apply occurs_false. intros (a & t & -> & ps & u & Hm & ->).
    apply matches_literal in Hm. rewrite Hm in E.
    assert (includes W (a ++ W ++ u) = true) as Ht
      by (apply includes_spec; eauto).
    congruence.
Qed.

Lemma keyword_gap_occ W1 W2 w a b :
  w <> [] -> forallb isSpace w = true ->
  occ (map Lit W1 ++ [Plus isSpace] ++ map Lit W2) (a ++ W1 ++ w ++ W2 ++ b).
Proof.
  intros Hn Hw. exists a, (W1 ++ w ++ W2 ++ b). split; [reflexivity|].
  exists (map (fun c => [c]) W1 ++ [w] ++ map (fun c => [c]) W2), b. split.
  - apply Forall2_app; [apply literal_matches|].
    apply Forall2_app; [|apply literal_matches].
    constructor; [split; assumption | constructor].
  - rewrite !concat_app, !concat_singletons. simpl.
    rewrite app_nil_r, <- ?app_assoc. reflexivity.
Qed.

(** X1: whatever the input, the output of [sanitizeActionCode] has no call
    of [eval] (in any spacing), no [new Function], and none of the texts
    [setTimeout], [setInterval], [window.], [document.] and [globalThis.]. *)
Theorem sanitized_has_no_escape (code : str) :
  let out := sanitizeActionCode code in
  includes (lit "setTimeout") out = false
  /\ includes (lit "setInterval") out = false
  /\ includes (lit "window.") out = false
  /\ includes (lit "document.") out = false
  /\ includes (lit "globalThis.") out = false
  /\ occurs reEval out = false
  /\ occurs reNewFunction out = false
  /\ (forall a w b, forallb isSpace w = true ->
        out <> a ++ lit "eval" ++ w ++ lit "(" ++ b)
  /\ (forall a w b, w <> [] -> forallb isSpace w = true ->
        out <> a ++ lit "new" ++ w ++ lit "Function" ++ b).
Proof.
  intros out. subst out.
  pose proof (sanitize_clean code) as Hc. unfold laterRules in Hc.
  repeat match type of Hc with
         | Forall _ (_ :: _) =>
             let H1 := fresh "R" in
             let H2 := fresh "Hc" in
             inversion Hc as [|? ? H1 H2]; subst; clear Hc; rename H2 into Hc;
             simpl in H1
         end.
  rewrite <- !occurs_literal.
  repeat split; try assumption.
  - intros a w b Hw Heq. apply occurs_false in R1. apply R1.
    rewrite Heq. apply (keyword_call_occ (lit "eval") w a b Hw).
  - intros a w b Hn Hw Heq. apply occurs_false in R2. apply R2.
    rewrite Heq. apply (keyword_gap_occ (lit "new") (lit "Function") w a b Hn Hw).
Qed.

(** X2: a fragment is a fixed point of [sanitizeActionCode] when it has no
    match of any of the ten patterns, and a fixed point has no match of the
    nine patterns behind the first. *)
Theorem sanitizer_fixed_points (code : str) :
  (occurs reFunction code = false ->
   forallb (fun r => negb (occurs (fst r) code)) laterRules = true ->
   sanitizeActionCode code = code)
  /\ (sanitizeActionCode code = code ->
      forallb (fun r => negb (occurs (fst r) code)) laterRules = true).
Proof.
  split.
  - intros Hf Hl. rewrite sanitize_rules, replaceAll_absent by exact Hf.
    apply applyRules_absent. apply Forall_forall. intros r Hr.
    apply list_elem_of_In in Hr. rewrite forallb_forall in Hl. specialize (Hl r Hr).
    now apply negb_true_iff in Hl.
  - intros Hfix. pose proof (sanitize_clean code) as Hc. rewrite Hfix in Hc.
    apply forallb_forall. intros r Hr. rewrite Forall_forall in Hc.
    apply list_elem_of_In in Hr. rewrite (Hc r Hr). reflexivity.
Qed.

(** ** What the rewriter leaves *)

Lemma piece_chars a p c : pieceOk a p -> In c p -> accepts a c = true.
Proof.
  destruct a as [x|f|f|f]; simpl.
  - intros -> [<- | []]. apply N.eqb_refl.
  - intros (y & -> & Fy) [<- | []]. exact Fy.
  - intros Hp Hc. rewrite forallb_forall in Hp. auto.
  - intros [_ Hp] Hc. rewrite forallb_forall in Hp. auto.
Qed.

Lemma matches_chars Q ps c :
  matches Q ps -> In c (concat ps) -> foreign Q c = true -> False.
Proof.
  intros Hm. induction Hm as [|a p Q ps Ha Hm IH]; simpl; [tauto|].
  intros Hc Hf. apply andb_true_iff in Hf as [Hfa Hf].
  apply in_app_or in Hc as [Hc | Hc]; [|auto].
  rewrite (piece_chars a p c Ha Hc) in Hfa. discriminate.
Qed.

Lemma matches_has_literal Q ps c :
  matches Q ps -> In (Lit c) Q -> In c (concat ps).
Proof.
  intros Hm. induction Hm as [|a p Q ps Ha Hm IH]; simpl; [tauto|].
  intros [-> | Hq]; apply in_or_app.
  - left. simpl in Ha. subst p. left. reflexivity.
  - right. auto.
Qed.

(** A text none of whose characters the pattern can consume is apart from
    every match. *)
Lemma foreign_text Q R :
  consuming Q = true -> R <> [] -> forallb (foreign Q) R = true ->
  noOverlap Q R /\ noInner Q R.
Proof.
  intros Hc Hne Hf. rewrite forallb_forall in Hf. split.
  - intros a b ps t Hm Heq.
    destruct (le_lt_dec (length (concat ps)) (length a)) as [|Hlt]; [assumption|exfalso].
    apply app_eq_app in Heq as [l [[-> Ht]|[Hcp Hb]]].
    + rewrite length_app in Hlt. lia.
    + destruct l as [|x l]; [rewrite app_nil_r in Hcp; rewrite Hcp in Hlt; lia|].
      destruct R as [|y R]; [congruence|]. simpl in Hb. injection Hb as -> Hb.
      apply (matches_chars Q ps x Hm).
      * rewrite Hcp. apply in_or_app. right. left. reflexivity.
      * apply Hf. left. reflexivity.
  - intros R1 R2 b -> HR2 (ps & t & Hm & Heq).
    destruct R2 as [|x R2]; [congruence|].
    pose proof (consuming_nonempty Q ps Hc Hm) as Hn.
    destruct (concat ps) as [|y M] eqn:EM; [congruence|].
    simpl in Heq. injection Heq as <- Heq.
    apply (matches_chars Q ps x Hm).
    + rewrite EM. left. reflexivity.
    + apply Hf. apply in_or_app. right. left. reflexivity.
Qed.

Lemma noOverlap_extend Q R R' : noOverlap Q R -> noOverlap Q (R ++ R').
Proof.
  intros Hn a b ps t Hm Heq. apply (Hn a (R' ++ b) ps t Hm).
  rewrite <- Heq, <- app_assoc. reflexivity.
Qed.

(** No match starts inside a text that lacks a character every match has
    and ends with a character no match has. *)
Lemma noInner_barrier Q X c0 z :
  In (Lit c0) Q -> ~ In c0 X -> foreign Q z = true -> noInner Q (X ++ [z]).
Proof.
  intros Hq Hx Hz R1 R2 b HR HR2 (ps & t & Hm & Heq).
  pose proof (matches_has_literal Q ps c0 Hm Hq) as Hin.
  assert (exists R2', R2 = R2' ++ [z] /\ X = R1 ++ R2') as (R2' & -> & ->).
  { destruct (exists_last HR2) as (R2' & y & ->).
    rewrite app_assoc in HR. apply app_inj_tail in HR as [-> ->]. eauto. }
  rewrite <- app_assoc in Heq.
  apply app_eq_app in Heq as [l [[E1 E2]|[E1 E2]]].
  - apply Hx. apply in_or_app. right. rewrite E1.
    apply in_or_app. left. exact Hin.
  - destruct l as [|y l].
    + rewrite app_nil_r in E1. apply Hx. apply in_or_app. right.
      rewrite <- E1. exact Hin.
    + simpl in E2. injection E2 as <- _.
      apply (matches_chars Q ps z Hm); [|exact Hz].
      rewrite E1. apply in_or_app. right. left. reflexivity.
Qed.

(** An occurrence in a wrapped text is an occurrence in the text, when the
    wrapping is apart from the matches. *)
Lemma occ_wrapped Q pre s post :
  consuming Q = true -> noInner Q pre -> noInner Q post -> noOverlap Q post ->
  occ Q (pre ++ s ++ post) -> occ Q s.
Proof.
  intros Hc Hpre Hpost Hov (a & t & Heq & Hh).
  assert (Hne : t <> []).
  { intros ->. destruct Hh as (ps & u & Hm & Hu). symmetry in Hu.
    apply app_eq_nil in Hu as [Hu _].
    exact (consuming_nonempty Q ps Hc Hm Hu). }
  assert (Hin : forall l2 l, s = l ++ l2 -> headMatch Q (l2 ++ post) -> occ Q s).
  { intros l2 l -> (ps & u & Hm & Hu).
    pose proof (Hov l2 [] ps u Hm) as Hlen. rewrite app_nil_r in Hlen.
    specialize (Hlen Hu).
    apply app_eq_app in Hu as [l3 [[E1 E2]|[E1 E2]]].
    - exists l, l2. split; [reflexivity|]. exists ps, l3. auto.
    - rewrite E1, length_app in Hlen. destruct l3; [|simpl in Hlen; lia].
      rewrite app_nil_r in E1. exists l, l2. split; [reflexivity|].
      exists ps, []. rewrite app_nil_r. auto. }
  apply app_eq_app in Heq as [l [[E1 E2]|[E1 E2]]].
  - (* pre = a ++ l, t = l ++ s ++ post *)
    destruct l as [|x l].
    + simpl in E2. subst t. apply (Hin s []); [reflexivity | exact Hh].
    + exfalso. apply (Hpre a (x :: l) (s ++ post) E1); [discriminate|].
      rewrite <- E2. exact Hh.
  - (* a = pre ++ l, s ++ post = l ++ t *)
    apply app_eq_app in E2 as [l2 [[E3 E4]|[E3 E4]]].
    + (* s = l ++ l2, t = l2 ++ post *)
      subst t. apply (Hin l2 l E3 Hh).
    + (* l = s ++ l2, post = l2 ++ t *)
      destruct l2 as [|x l2].
      * simpl in E4. subst t. apply (Hin [] s); [now rewrite app_nil_r | exact Hh].
      * exfalso. apply (Hpost (x :: l2) t [] E4 Hne). rewrite app_nil_r. exact Hh.
Qed.

Lemma explosionTemplate_wrap code :
  explosionTemplate code = explosionHead ++ code ++ explosionTail.
Proof. reflexivity. Qed.

(** Replacement by a callback: what it writes is apart from the matches of
    [Q]. *)
Lemma scan_headMatch_by Q m rho prev s o :
  (forall prev s ps, m prev s = Some ps -> noOverlap Q (rho ps)) ->
  scan m rho prev s o ->
  forall p, headMatch Q (p ++ o) -> headMatch Q (p ++ s).
Proof.
  intros HQ Hs. induction Hs as [prev|prev c s o Hn Hs IH|prev ps t o Hp Hne Hs IH];
    intros p Hh.
  - exact Hh.
  - change (p ++ c :: s) with (p ++ [c] ++ s). rewrite app_assoc.
    apply IH. rewrite <- app_assoc. exact Hh.
  - eapply headMatch_prefix; [exact Hh|].
    intros qs u Hm Heq. eapply (HQ _ _ _ Hp); eauto.
Qed.

Lemma scan_preserves_by Q m rho prev s o :
  (forall prev s ps, m prev s = Some ps ->
     noOverlap Q (rho ps) /\ noInner Q (rho ps)) ->
  scan m rho prev s o ->
  occ Q o -> occ Q s.
Proof.
  intros HQ Hs.
  assert (HO : forall prev s ps, m prev s = Some ps -> noOverlap Q (rho ps))
    by (intros; eapply HQ; eauto).
  induction Hs as [prev|prev c s o Hn Hs IH|prev ps t o Hp Hne Hs IH];
    intros (a & u & Heq & Hh).
  - exists a, u. auto.
  - destruct a as [|x a]; simpl in Heq.
    + subst u. exists [], (c :: s). split; [reflexivity|].
      apply (scan_headMatch_by Q m rho prev (c :: s) (c :: o) HO
               (scan_copy _ _ _ _ _ _ Hn Hs) []). exact Hh.
    + injection Heq as <- ->. apply occ_cons. apply IH. exists a, u. auto.
  - apply occ_app. apply app_eq_app in Heq as [l [[Hr Hu]|[Ha Ho]]].
    + destruct l as [|x l].
      * simpl in Hu. subst u. apply IH. exists [], o. auto.
      * exfalso. destruct (HQ _ _ _ Hp) as [_ HI].
        eapply (HI a (x :: l) o Hr); [discriminate|].
        rewrite <- Hu. exact Hh.
    + apply IH. exists l, u. auto.
Qed.

Lemma numeral_chars d c :
  In c (lit (NilEmpty.string_of_uint d)) -> isDigit c = true.
Proof.
  induction d; simpl; try tauto; intros [<- | Hc]; auto.
Qed.

(** The text of a number is not empty and is made of digits and the minus
    sign. *)
Lemma toString_chars z :
  toString z <> [] /\ forall c, In c (toString z) -> In c (lit "-0123456789").
Proof.
  assert (Hd : forall c, isDigit c = true -> In c (lit "-0123456789")).
  { intros c Hc. apply isDigit_cases in Hc. simpl in Hc. simpl. tauto. }
  unfold toString. destruct z as [|p|p]; simpl Z.to_int; simpl NilEmpty.string_of_int.
  - split; [discriminate|]. intros c [<- | []]. simpl. auto.
  - split.
    + destruct (numeral_head p) as (c & s & -> & _). discriminate.
    + intros c Hc. apply Hd. eapply numeral_chars. exact Hc.
  - split; [discriminate|]. intros c [<- | Hc]; [simpl; auto|].
    apply Hd. eapply numeral_chars. exact Hc.
Qed.

Lemma number_is_foreign Q z :
  consuming Q = true ->
  forallb (foreign Q) (lit "-0123456789") = true ->
  noOverlap Q (toString z) /\ noInner Q (toString z).
Proof.
  intros Hc Hf. destruct (toString_chars z) as [Hne Hch].
  apply foreign_text; [exact Hc | exact Hne |].
  apply forallb_forall. intros c Hin. rewrite forallb_forall in Hf. auto.
Qed.

Lemma matches_nth Q ps : matches Q ps ->
  forall i a, nth_error Q i = Some a -> pieceOk a (nth i ps []).
Proof.
  intros Hm. induction Hm as [|q p Q ps Hq Hm IH]; intros i a Hi.
  - destruct i; discriminate.
  - destruct i as [|i]; simpl in *; [congruence | auto].
Qed.

Lemma matches_cons_lit c Q ps :
  matches (Lit c :: Q) ps -> exists ps', ps = [c] :: ps' /\ matches Q ps'.
Proof.
  intros Hm. inversion Hm as [|a p Q' ps' Hp Hm']; subst.
  simpl in Hp. subst p. eauto.
Qed.

Lemma matches_snoc_lit Q c ps :
  matches (Q ++ [Lit c]) ps -> exists ps', ps = ps' ++ [[c]] /\ matches Q ps'.
Proof.
  intros Hm. apply Forall2_app_inv_l in Hm as (ps1 & ps2 & H1 & H2 & ->).
  inversion H2 as [|a p Q' ps' Hp Hm']; subst. inversion Hm'; subst.
  simpl in Hp. subst p. eauto.
Qed.

(** [s.replace(p, r)] with a string pattern changes nothing or one
    occurrence. *)
Lemma replaceFirst_cases p r : forall s,
  replaceFirst p r s = s
  \/ exists a b, s = a ++ p ++ b /\ replaceFirst p r s = a ++ r ++ b.
Proof.
  induction s as [|c s IH].
  - simpl. destruct (startsWith p []) eqn:E; [|auto].
    right. apply startsWith_spec in E as (t & Ht).
    symmetry in Ht. apply app_eq_nil in Ht as [-> ->].
    exists [], []. simpl. rewrite app_nil_r. auto.
  - cbn [replaceFirst]. destruct (startsWith p (c :: s)) eqn:E.
    + right. apply startsWith_spec in E as (t & Ht). exists [], t.
      rewrite Ht. simpl. split; [reflexivity|].
      rewrite skipn_app, skipn_all, Nat.sub_diag. reflexivity.
    + destruct IH as [-> | (a & b & Hs & ->)]; [auto|].
      right. exists (c :: a), b. rewrite Hs. auto.
Qed.

(** What [arrayAccessReplacer] writes for a match: a text that begins with
    [ga], ends with [;] and has no parenthesis. *)
Lemma replacer_shape elementColor ps :
  matches arrayAccessPattern ps ->
  exists X, arrayAccessReplacer elementColor ps = 103%N :: 97%N :: X ++ [59%N]
            /\ ~ In 40%N X.
Proof.
  intros Hm.
  assert (Hno : ~ In 40%N (concat ps)).
  { intros Hin. apply (matches_chars _ _ _ Hm Hin). reflexivity. }
  pose proof (matches_nth _ _ Hm 25%nat (Plus isUpperOrUnderscore) eq_refl) as Hname.
  simpl in Hname. destruct Hname as [Hne Hup].
  set (mid := removelast (skipn 2 arrayAccessPattern)).
  assert (EQ : arrayAccessPattern = Lit 103 :: Lit 97 :: mid ++ [Lit 59])
    by reflexivity.
  clearbody mid. rewrite EQ in Hm. clear EQ.
  apply matches_cons_lit in Hm as (ps1 & -> & Hm).
  apply matches_cons_lit in Hm as (ps2 & -> & Hm).
  apply matches_snoc_lit in Hm as (psm & -> & Hm).
  assert (Ec : concat ([103%N] :: [97%N] :: psm ++ [[59%N]])
               = 103%N :: 97%N :: concat psm ++ [59%N]).
  { simpl. rewrite concat_app. simpl. reflexivity. }
  rewrite Ec in Hno.
  assert (Hno' : ~ In 40%N (concat psm)).
  { intros Hin. apply Hno. right. right. apply in_or_app. auto. }
  assert (Hshape : forall nm r, nm <> [] ->
            (forall c, In c nm -> isUpperOrUnderscore c = true) ->
            ~ In 40%N r ->
            exists X, replaceFirst nm r
                        (103%N :: 97%N :: concat psm ++ [59%N])
                      = 103%N :: 97%N :: X ++ [59%N] /\ ~ In 40%N X).
  { intros nm r Hnm Hu Hr.
    destruct (replaceFirst_cases nm r
                (103%N :: 97%N :: concat psm ++ [59%N]))
      as [-> | (a & b & Hs & ->)]; [eauto|].
    destruct nm as [|e0 en]; [congruence|].
    assert (He0 : isUpperOrUnderscore e0 = true) by (apply Hu; left; reflexivity).
    destruct a as [|x a].
    { simpl in Hs. injection Hs as <- _. discriminate He0. }
    simpl in Hs. injection Hs as <- Hs.
    destruct a as [|x a].
    { simpl in Hs. injection Hs as <- _. discriminate He0. }
    simpl in Hs. injection Hs as <- Hs.
    destruct (decide (b = [])) as [-> | Hb].
    { exfalso. rewrite app_nil_r in Hs.
      destruct (@exists_last _ (e0 :: en) ltac:(discriminate)) as (en' & z & Ez).
      rewrite Ez in Hs.
      rewrite app_assoc in Hs. apply app_inj_tail in Hs as [_ Hz].
      assert (isUpperOrUnderscore z = true) as Hzu.
      { apply Hu. rewrite Ez. apply in_or_app. right. left. reflexivity. }
      subst z. discriminate Hzu. }
    destruct (exists_last Hb) as (b' & z & ->).
    assert (Hs' : concat psm ++ [59%N] = (a ++ (e0 :: en) ++ b') ++ [z]).
    { rewrite Hs, <- !app_assoc. reflexivity. }
    clear Hs. apply app_inj_tail in Hs' as [Hs ->].
    exists (a ++ r ++ b'). split.
    - simpl. rewrite <- !app_assoc. reflexivity.
    - intros Hin. apply in_app_or in Hin as [Hin | Hin].
      + apply Hno'. rewrite Hs. apply in_or_app. left. exact Hin.
      + apply in_app_or in Hin as [Hin | Hin]; [auto|].
        apply Hno'. rewrite Hs. apply in_or_app. right.
        apply in_or_app. right. exact Hin. }
  assert (Hu : forall c, In c (nth 25 ([103%N] :: [97%N] :: psm ++ [[59%N]]) []) ->
                         isUpperOrUnderscore c = true).
  { intros c Hc. rewrite forallb_forall in Hup. auto. }
  unfold arrayAccessReplacer. cbv zeta. rewrite Ec.
  match goal with
  | |- context [if ?c then _ else _] => destruct c
  end; [eauto|].
  match goal with
  | |- context [if ?c then _ else _] => destruct c eqn:Et
  end.
  - apply eqStr_eq in Et.
    apply (Hshape (lit "THIS_ELEMENT_COLOR"));
      [discriminate
      | intros c Hc; apply Hu; exact (eq_ind_r (fun t => In c t) Hc Et) |].
    intros Hin. apply (proj2 (toString_chars elementColor)) in Hin.
    simpl in Hin. intuition discriminate.
  - match goal with
    | |- context [if ?c then _ else _] => destruct c
    end; [eauto|].
    apply Hshape; [exact Hne | exact Hu |].
    simpl. intuition discriminate.
Qed.

Lemma bordering_checks :
  consuming reBordering = true
  /\ overlapFree reBordering
       (lit "adjacent(x, i, FIRE) || below(y, i, FIRE) || above(y, i, FIRE)") = true
  /\ overlapFree reBordering [103; 97]%N = true
  /\ foreign reBordering 59 = true
  /\ forallb (foreign reBordering) (lit "-0123456789") = true
  /\ overlapFree reBordering explosionHead = true
  /\ overlapFree reBordering explosionTail = true.
Proof. repeat split; lazy; reflexivity. Qed.

Lemma placeholder_checks :
  consuming (lits "THIS_ELEMENT_COLOR") = true
  /\ forallb (foreign (lits "THIS_ELEMENT_COLOR")) (lit "-0123456789") = true
  /\ overlapFree (lits "THIS_ELEMENT_COLOR") explosionHead = true
  /\ overlapFree (lits "THIS_ELEMENT_COLOR") explosionTail = true.
Proof. repeat split; lazy; reflexivity. Qed.

Lemma bordering_has_parenthesis : In (Lit 40) reBordering.
Proof. unfold reBordering. apply in_or_app. right. simpl. auto. Qed.

Lemma replacer_apart elementColor prev s ps :
  ofPattern arrayAccessPattern prev s = Some ps ->
  noOverlap reBordering (arrayAccessReplacer elementColor ps)
  /\ noInner reBordering (arrayAccessReplacer elementColor ps).
Proof.
  intros Hs. unfold ofPattern in Hs. apply matchAt_sound in Hs as [Hm _].
  destruct (replacer_shape elementColor ps Hm) as (X & -> & HX).
  destruct bordering_checks as (_ & _ & Hga & Hsemi & _).
  split.
  - change (103%N :: 97%N :: X ++ [59%N]) with ([103%N; 97%N] ++ (X ++ [59%N])).
    apply noOverlap_extend. apply overlapFree_noOverlap. exact Hga.
  - change (103%N :: 97%N :: X ++ [59%N]) with ((103%N :: 97%N :: X) ++ [59%N]).
    apply (noInner_barrier reBordering _ 40%N 59%N);
      [exact bordering_has_parenthesis | | exact Hsemi].
    simpl. intros [E | [E | E]]; [discriminate | discriminate | auto].
Qed.

Lemma wrapped_clean Q code :
  consuming Q = true ->
  overlapFree Q explosionHead = true -> overlapFree Q explosionTail = true ->
  occurs Q code = false -> occurs Q (explosionTemplate code) = false.
Proof.
  intros Hc Hh Ht. rewrite !occurs_false. intros Hn Ho. apply Hn.
  rewrite explosionTemplate_wrap in Ho.
  apply (occ_wrapped Q explosionHead code explosionTail Hc); auto using
    overlapFree_noInner, overlapFree_noOverlap.
Qed.

Lemma bordering_call_occ a b :
  occ reBordering (a ++ lit "bordering(x, y, i, FIRE)" ++ b).
Proof.
  exists a, (lit "bordering(x, y, i, FIRE)" ++ b). split; [reflexivity|].
  destruct (matchAt reBordering (lit "bordering(x, y, i, FIRE)")) as [ps|] eqn:E;
    [|lazy in E; discriminate].
  apply matchAt_sound in E as (Hm & t & Ht).
  exists ps, (t ++ b). split; [exact Hm|]. rewrite Ht, <- app_assoc. reflexivity.
Qed.

Section RewriterOutput.
Context `{Host}.

(** X5: no call [bordering(x, y, i, FIRE)], in any spacing, is left in what
    [preprocessActionCode] returns: the calls are replaced by the three
    directional checks, and neither the rewriting of the neighbour writes,
    nor the colour written for the placeholder, nor the explosion wrapper
    brings one back. *)
Theorem rewritten_has_no_bordering_call
        (code particleName : str) (elementColor : Z) (out : str) :
  preprocessActionCode code particleName elementColor = Some out ->
  occurs reBordering out = false
  /\ includes (lit "bordering(x, y, i, FIRE)") out = false.
Proof.
  intros Hp.
  assert (Hocc : occurs reBordering out = false).
  { unfold preprocessActionCode in Hp. cbv zeta in Hp.
    destruct (replaceParticleName particleName _) as [code1|]; [|discriminate].
    destruct bordering_checks as (Hc & Hrep & _ & _ & Hnum & Hhead & Htail).
    set (code2 := replaceAll reBordering _ code1) in Hp.
    assert (H2 : occurs reBordering code2 = false)
      by (apply replaceAll_clean; assumption).
    set (code3 := replaceWith (ofPattern arrayAccessPattern)
                    (arrayAccessReplacer elementColor) code2) in Hp.
    assert (H3 : occurs reBordering code3 = false).
    { apply occurs_false. apply occurs_false in H2. intros Ho. apply H2.
      eapply (scan_preserves_by reBordering _ _ None code2 code3
                (replacer_apart elementColor)); [|exact Ho].
      apply replaceWith_scan. apply ofPattern_proper. reflexivity. }
    set (code4 := replaceAll (lits "THIS_ELEMENT_COLOR")
                    (toString elementColor) code3) in Hp.
    assert (H4 : occurs reBordering code4 = false).
    { apply occurs_false. apply occurs_false in H3. intros Ho. apply H3.
      destruct (number_is_foreign reBordering elementColor Hc Hnum) as [N1 N2].
      eapply (scan_preserves reBordering (toString elementColor) _ None code3 code4
                N1 N2); [|exact Ho].
      apply replaceWith_scan. apply ofPattern_proper. reflexivity. }
    injection Hp as <-.
    destruct (isExplosiveName particleName); [|exact H4].
    destruct (negb _ && negb _); [|exact H4].
    apply wrapped_clean; assumption. }
  split; [exact Hocc|].
  destruct (includes _ out) eqn:E; [|reflexivity].
  apply includes_spec in E as (a & b & ->).
  apply occurs_false in Hocc. exfalso. apply Hocc. apply bordering_call_occ.
Qed.

(** X6: the placeholder [THIS_ELEMENT_COLOR], which stands for the particle
    while the fragment is rewritten, is never left in what
    [preprocessActionCode] returns. *)
Theorem rewritten_has_no_placeholder
        (code particleName : str) (elementColor : Z) (out : str) :
  preprocessActionCode code particleName elementColor = Some out ->
  includes (lit "THIS_ELEMENT_COLOR") out = false.
Proof.
  intros Hp. rewrite <- occurs_literal.
  change (map Lit (lit "THIS_ELEMENT_COLOR")) with (lits "THIS_ELEMENT_COLOR").
  unfold preprocessActionCode in Hp. cbv zeta in Hp.
  destruct (replaceParticleName particleName _) as [code1|]; [|discriminate].
  destruct placeholder_checks as (Hc & Hnum & Hhead & Htail).
  set (code3 := replaceWith (ofPattern arrayAccessPattern) _ _) in Hp.
  set (code4 := replaceAll (lits "THIS_ELEMENT_COLOR")
                  (toString elementColor) code3) in Hp.
  assert (H4 : occurs (lits "THIS_ELEMENT_COLOR") code4 = false).
  { apply occurs_false.
    destruct (number_is_foreign (lits "THIS_ELEMENT_COLOR") elementColor Hc Hnum)
      as [N1 N2].
    eapply (scan_clean _ (toString elementColor) None code3 code4 Hc N1 N2).
    apply replaceWith_scan. apply ofPattern_proper. exact Hc. }
  injection Hp as <-.
  destruct (isExplosiveName particleName); [|exact H4].
  destruct (negb _ && negb _); [|exact H4].
  apply wrapped_clean; assumption.
Qed.

(** X7: what [preprocessActionCode] returns for a name with [TNT], [BOMB] or
    [EXPLO] has the text [FIRE] or the text [fire]: a fragment with neither
    is put inside the explosion check, which tests the neighbours for
    [FIRE]. *)
Theorem explosive_fragment_mentions_fire
        (code particleName : str) (elementColor : Z) (out : str) :
  isExplosiveName particleName = true ->
  preprocessActionCode code particleName elementColor = Some out ->
  includes (lit "FIRE") out = true \/ includes (lit "fire") out = true.
Proof.
  intros Hx Hp. unfold preprocessActionCode in Hp. cbv zeta in Hp.
  destruct (replaceParticleName particleName _) as [code1|]; [|discriminate].
  rewrite Hx in Hp.
  set (code4 := replaceAll (lits "THIS_ELEMENT_COLOR") _ _) in Hp.
  destruct (includes (lit "FIRE") code4) eqn:E1; simpl in Hp.
  - injection Hp as <-. auto.
  - destruct (includes (lit "fire") code4) eqn:E2; simpl in Hp;
      injection Hp as <-; [auto|].
    left. rewrite explosionTemplate_wrap. apply includes_app_l. reflexivity.
Qed.

End RewriterOutput.

(** ** Neighbour writes *)

Lemma space_not_capital x : isSpace x = true -> isUpperOrUnderscore x = false.
Proof.
  intros Hx. unfold isUpperOrUnderscore, isUpper, inRange.
  unfold isSpace, inRange in Hx.
  repeat match type of Hx with
         | (_ || _) = true => apply orb_true_iff in Hx as [Hx | Hx]
         end;
    repeat match type of Hx with
           | (_ && _) = true => apply andb_true_iff in Hx as [Hx Hx']
           end;
    repeat match goal with
           | H : (_ <=? _)%N = true |- _ => apply N.leb_le in H
           | H : (_ =? _)%N = true |- _ => apply N.eqb_eq in H
           end;
    apply orb_false_iff; (split; [|apply N.eqb_neq; lia]);
    apply andb_false_iff;
    (destruct (N.leb_spec 65 x) as [L | L];
       [right; apply N.leb_gt; lia | left; reflexivity]).
Qed.

Lemma firstn_snoc {A} (l : list A) d : forall i,
  (i < length l)%nat -> firstn (S i) l = firstn i l ++ [nth i l d].
Proof.
  induction l as [|x l IH]; intros i Hi; simpl in Hi; [lia|].
  destruct i as [|i]; [reflexivity|].
  change (firstn (S (S i)) (x :: l)) with (x :: firstn (S i) l).
  rewrite IH by lia. reflexivity.
Qed.

Lemma split_at {A} (l : list A) d i :
  (i < length l)%nat -> l = firstn i l ++ [nth i l d] ++ skipn (S i) l.
Proof.
  intros Hi. rewrite app_assoc, <- firstn_snoc by exact Hi.
  symmetry. apply firstn_skipn.
Qed.

Lemma replaceFirst_at p r b : p <> [] -> forall a,
  (forall a1 a2, a = a1 ++ a2 -> a2 <> [] -> startsWith p (a2 ++ p ++ b) = false) ->
  replaceFirst p r (a ++ p ++ b) = a ++ r ++ b.
Proof.
  intros Hp. induction a as [|x a IH]; intros Ha.
  - destruct p as [|c p]; [congruence|]. simpl app.
    cbn [replaceFirst].
    assert (startsWith (c :: p) (c :: p ++ b) = true) as ->.
    { apply startsWith_spec. exists b. reflexivity. }
    change (c :: p ++ b) with ((c :: p) ++ b).
    rewrite skipn_app, skipn_all, Nat.sub_diag. reflexivity.
  - simpl app. cbn [replaceFirst].
    pose proof (Ha [] (x :: a) eq_refl ltac:(discriminate)) as E.
    simpl app in E. rewrite E.
    f_equal. apply IH. intros a1 a2 -> Hne.
    apply (Ha (x :: a1) a2 eq_refl Hne).
Qed.

(** An identifier in capitals that does not occur in a text ending with a
    character that is no capital is replaced where it stands behind the
    text. *)
Lemma replaceFirst_behind p r a z b :
  p <> [] -> forallb isUpperOrUnderscore p = true ->
  isUpperOrUnderscore z = false ->
  includes p (a ++ [z]) = false ->
  replaceFirst p r ((a ++ [z]) ++ p ++ b) = (a ++ [z]) ++ r ++ b.
Proof.
  intros Hp Hup Hz Hin. apply replaceFirst_at; [exact Hp|].
  intros a1 a2 Ha Hne.
  destruct (startsWith p (a2 ++ p ++ b)) eqn:E; [exfalso | reflexivity].
  apply startsWith_spec in E as (t & Ht).
  destruct (exists_last Hne) as (a2' & z' & ->).
  rewrite app_assoc in Ha. apply app_inj_tail in Ha as [-> <-].
  apply app_eq_app in Ht as [l [[E1 E2]|[E1 E2]]].
  - assert (includes p ((a1 ++ a2') ++ [z]) = true); [|congruence].
    apply includes_spec. exists a1, l. rewrite <- app_assoc, E1. reflexivity.
  - rewrite forallb_forall in Hup.
    assert (isUpperOrUnderscore z = true); [|congruence].
    apply Hup. rewrite E1. apply in_or_app. left. apply in_or_app. right.
    left. reflexivity.
Qed.

(** X8: in a neighbour write [gameImagedata32[i ± offset] = NAME;] the
    callback of the rewriter leaves [FIRE], [BACKGROUND] and the names of
    the game's elements as they are, writes the particle's colour for the
    placeholder and [FIRE] for every other name; this holds when the name
    does not occur in the statement before the place it is assigned. *)
Theorem neighbour_write_is_redirected
        (elementColor : Z) (s : str) (ps : list str) :
  matchAt arrayAccessPattern s = Some ps ->
  let elementName := nth 25 ps [] in
  let before := concat (firstn 25 ps) in
  let after := concat (skipn 26 ps) in
  concat ps = before ++ elementName ++ after
  /\ elementName <> []
  /\ forallb isUpperOrUnderscore elementName = true
  /\ (includes elementName before = false ->
        arrayAccessReplacer elementColor ps
        = before ++ assigned elementColor elementName ++ after).
Proof.
  intros Hs. apply matchAt_sound in Hs as [Hm _].
  assert (Hlen : length ps = 28%nat).
  { apply Forall2_length in Hm. rewrite <- Hm. reflexivity. }
  pose proof (matches_nth _ _ Hm 23%nat (Lit 61) eq_refl) as H23.
  pose proof (matches_nth _ _ Hm 24%nat (Star isSpace) eq_refl) as H24.
  pose proof (matches_nth _ _ Hm 25%nat (Plus isUpperOrUnderscore) eq_refl) as H25.
  simpl in H23, H24, H25. destruct H25 as [Hne Hup].
  intros elementName before after.
  assert (Hsplit : concat ps = before ++ elementName ++ after).
  { rewrite (split_at ps [] 25) at 1 by lia.
    rewrite !concat_app. simpl. rewrite app_nil_r. reflexivity. }
  split; [exact Hsplit|]. split; [exact Hne|]. split; [exact Hup|].
  intros Hin.
  assert (Hbefore : exists a z, before = a ++ [z] /\ isUpperOrUnderscore z = false).
  { unfold before. rewrite (firstn_snoc ps [] 24) by lia.
    rewrite (firstn_snoc ps [] 23) by lia.
    rewrite !concat_app. simpl. rewrite !app_nil_r, H23.
    destruct (decide (nth 24 ps [] = [])) as [Ew | Ew].
    { rewrite Ew, app_nil_r. eexists _, _. split; reflexivity. }
    destruct (exists_last Ew) as (l & x & Ex). rewrite Ex in *.
    exists (concat (firstn 23 ps) ++ [61%N] ++ l), x.
    split; [rewrite <- !app_assoc; reflexivity|].
    apply forallb_app_r in H24. simpl in H24.
    apply andb_true_iff in H24 as [Hx _].
    apply space_not_capital. exact Hx. }
  destruct Hbefore as (a & z & Hb & Hz).
  assert (Hrep : forall r, replaceFirst elementName r (concat ps)
                           = before ++ r ++ after).
  { intros r. rewrite Hsplit, Hb. apply replaceFirst_behind; auto.
    rewrite <- Hb. exact Hin. }
  unfold arrayAccessReplacer, assigned. cbv zeta. fold elementName.
  destruct (eqStr elementName (lit "FIRE") || eqStr elementName (lit "BACKGROUND"));
    [exact Hsplit|].
  destruct (eqStr elementName (lit "THIS_ELEMENT_COLOR")) eqn:Et.
  - apply eqStr_eq in Et. rewrite <- Et. apply Hrep.
  - destruct (isKnownElement elementName); [exact Hsplit | apply Hrep].
Qed.

(** [neighbour_write_is_redirected] at a sample input. *)
Lemma neighbour_write_is_redirected_witness :
  matchAt arrayAccessPattern (lit "gameImagedata32[i + width] = SLIME ; x")
  = Some sampleWrite
  /\ includes (nth 25 sampleWrite []) (concat (firstn 25 sampleWrite)) = false
  /\ arrayAccessReplacer 77 sampleWrite
     = lit "gameImagedata32[i + width] = FIRE ;".
Proof.
  split; [lazy; reflexivity|]. split; [lazy; reflexivity|].
  destruct (neighbour_write_is_redirected 77
              (lit "gameImagedata32[i + width] = SLIME ; x") sampleWrite
              ltac:(lazy; reflexivity)) as (_ & _ & _ & Hr).
  rewrite Hr; lazy; reflexivity.
Defined.

(** ** The colour of a caption *)

Lemma round_aux_unsigned m e l :
  unsigned (binary_round_aux prec emax false m e l) = true.
Proof.
  unfold binary_round_aux.
  destruct (shr_fexp prec emax m e l) as [mrs e'].
  destruct (shr_fexp prec emax _ e' loc_Exact) as [mrs' e''].
  destruct (shr_m mrs'); [reflexivity | | reflexivity].
  destruct (e'' <=? emax - prec)%Z; reflexivity.
Qed.

Lemma mul_unsigned x y :
  unsigned (Prim2SF x) = true -> unsigned (Prim2SF y) = true ->
  unsigned (Prim2SF (x * y)) = true.
Proof.
  rewrite mul_spec. unfold SF64mul, SFmul.
  destruct (Prim2SF x) as [sx| sx| |sx mx ex], (Prim2SF y) as [sy| sy| |sy my ey];
    simpl; try reflexivity; intros Hx Hy;
    try (apply negb_true_iff in Hx; subst sx);
    try (apply negb_true_iff in Hy; subst sy);
    try reflexivity.
  apply round_aux_unsigned.
Qed.

Lemma div_unsigned x y :
  unsigned (Prim2SF x) = true -> unsigned (Prim2SF y) = true ->
  unsigned (Prim2SF (x / y)) = true.
Proof.
  rewrite div_spec. unfold SF64div, SFdiv.
  destruct (Prim2SF x) as [sx| sx| |sx mx ex], (Prim2SF y) as [sy| sy| |sy my ey];
    simpl; try reflexivity; intros Hx Hy;
    try (apply negb_true_iff in Hx; subst sx);
    try (apply negb_true_iff in Hy; subst sy);
    try reflexivity.
  match goal with
  | |- context [SFdiv_core_binary ?p ?q ?a ?b ?c ?d] =>
      destruct (SFdiv_core_binary p q a b c d) as [[mz ez] lz]
  end.
  apply round_aux_unsigned.
Qed.

Lemma not_below_one_unsigned x :
  (x <? 1)%float = false -> unsigned (Prim2SF x) = true.
Proof.
  rewrite ltb_spec.
  change (Prim2SF 1) with (S754_finite false 4503599627370496 (-52)).
  destruct (Prim2SF x) as [s|s| |s m e]; [| | reflexivity |].
  - intros Hlt. cbv [SFltb SFcompare] in Hlt. discriminate Hlt.
  - destruct s; [|reflexivity].
    intros Hlt. cbv [SFltb SFcompare] in Hlt. discriminate Hlt.
  - destruct s; [|reflexivity].
    intros Hlt. cbv [SFltb SFcompare] in Hlt. discriminate Hlt.
Qed.

Lemma Math_round_unsigned x : unsigned (Prim2SF x) = true -> (0 <= Math_round x)%Z.
Proof.
  unfold Math_round. destruct (Prim2SF x) as [s|s| |s m e]; simpl; try lia.
  intros Hs. apply negb_true_iff in Hs. subst s.
  destruct (0 <=? e)%Z eqn:E.
  - apply Z.leb_le in E. apply Z.mul_nonneg_nonneg; [lia|].
    apply Z.pow_nonneg. lia.
  - apply Z.leb_gt in E. apply Z.div_pos.
    + assert (0 <= 2 ^ (- e))%Z by (apply Z.pow_nonneg; lia). lia.
    + apply Z.pow_pos_nonneg; lia.
Qed.

Lemma channel_unsigned_table :
  forallb (fun c => unsigned (Prim2SF (ofZ c))) (channels 0 256) = true.
Proof. vm_compute. reflexivity. Qed.

Lemma channel_unsigned c : inChannel c -> unsigned (Prim2SF (ofZ c)) = true.
Proof.
  intros Hc. pose proof channel_unsigned_table as T.
  rewrite forallb_forall in T. apply T. apply in_channels. unfold inChannel in Hc.
  simpl. lia.
Qed.

Lemma zero_times x : Math_round (ofZ 0 * x) = 0%Z.
Proof.
  unfold Math_round. rewrite mul_spec.
  change (Prim2SF (ofZ 0)) with (S754_zero false).
  unfold SF64mul, SFmul. destruct (Prim2SF x); reflexivity.
Qed.

(** X20: for channels in 0..255, the channels [ensureVisibleColor] writes are
    in 0..255 again and the text is [rgb(r, g, b)] of them; a channel that
    is [0] stays [0], so black is returned as black. *)
Theorem visible_color_is_a_color (r g b : Z) :
  inChannel r -> inChannel g -> inChannel b ->
  let '(r', g', b') := Menu.visibleChannels r g b in
  inChannel r' /\ inChannel g' /\ inChannel b'
  /\ Menu.ensureVisibleColor r g b = Menu.rgb r' g' b'
  /\ (r = 0%Z -> r' = 0%Z) /\ (g = 0%Z -> g' = 0%Z) /\ (b = 0%Z -> b' = 0%Z).
Proof.
  intros Hr Hg Hb. unfold Menu.ensureVisibleColor.
  destruct (Menu.visibleChannels r g b) as [[r' g'] b'] eqn:E.
  unfold Menu.visibleChannels in E. cbv zeta in E.
  set (brightness := ((ofZ r * 299 + ofZ g * 587 + ofZ b * 114) / 1000)%float) in E.
  destruct (brightness <? 100)%float.
  - set (factor := (100 / (if (brightness <? 1)%float then 1 else brightness))%float) in E.
    assert (Hf : unsigned (Prim2SF factor) = true).
    { unfold factor. apply div_unsigned; [reflexivity|].
      destruct (brightness <? 1)%float eqn:Q; [reflexivity|].
      apply not_below_one_unsigned. exact Q. }
    assert (Hc : forall c, inChannel c ->
                   inChannel (Z.min 255 (Math_round (ofZ c * factor)))).
    { intros c Hc. unfold inChannel.
      pose proof (Math_round_unsigned (ofZ c * factor)
                    (mul_unsigned _ _ (channel_unsigned c Hc) Hf)). lia. }
    injection E as <- <- <-.
    repeat split; try (apply Hc; assumption); try reflexivity;
      intros ->; rewrite zero_times; reflexivity.
  - injection E as <- <- <-. unfold inChannel in *. repeat split; auto; lia.
Qed.

(** [visible_color_is_a_color] at a sample input. *)
Lemma visible_color_is_a_color_witness :
  (inChannel 10 /\ inChannel 20 /\ inChannel 30)
  /\ (let '(r', g', b') := Menu.visibleChannels 10 20 30 in
      inChannel r' /\ inChannel g' /\ inChannel b'
      /\ Menu.ensureVisibleColor 10 20 30 = Menu.rgb r' g' b'
      /\ (10 = 0 -> r' = 0)%Z /\ (20 = 0 -> g' = 0)%Z /\ (30 = 0 -> b' = 0)%Z).
Proof.
  split; [unfold inChannel; lia|].
  apply (visible_color_is_a_color 10 20 30); unfold inChannel; lia.
Defined.

(** ** The element menu *)

(** X14: [addCustomElementToMenu] puts the new button behind all the others:
    at the end of the last row when that row has room, the rows before it
    staying as they are, and in a row of its own, behind all the rows, when
    there is no row or the last row is full. No row grows over
    [ELEMENT_MENU_ELEMENTS_PER_ROW] buttons; a click on the button selects
    the element colour back from the id. Without the table nothing is
    done. *)
Theorem menu_button_is_appended
        (perRow : nat) (elementName : str) (elementColor : Z)
        (rows : list (list Menu.Button)) :
  (0 < perRow)%nat ->
  Forall (fun row => (length row <= perRow)%nat) rows ->
  exists rows',
    Menu.addCustomElementToMenu perRow elementName elementColor (Some rows)
    = Some rows'
    /\ concat rows' = concat rows ++ [menuButton elementName elementColor]
    /\ Forall (fun row => (length row <= perRow)%nat) rows'
    /\ (length rows <= length rows' <= length rows + 1)%nat
    /\ (forall rows0 lastRow,
          rows = rows0 ++ [lastRow] -> (length lastRow < perRow)%nat ->
          rows' = rows0 ++ [lastRow ++ [menuButton elementName elementColor]])
    /\ (forall rows0 lastRow,
          rows = rows0 ++ [lastRow] -> (perRow <= length lastRow)%nat ->
          rows' = rows ++ [[menuButton elementName elementColor]])
    /\ (rows = [] -> rows' = [[menuButton elementName elementColor]])
    /\ Menu.clickMenuButton (menuButton elementName elementColor)
       = Some elementColor
    /\ Menu.addCustomElementToMenu perRow elementName elementColor None = None.
Proof.
  intros Hp Hrows. unfold Menu.addCustomElementToMenu, menuButton.
  destruct (getColorComponents elementColor) as [[r g] b].
  set (button := {| Menu.textContent := elementName;
                    Menu.style_color := Menu.rgb r g b;
                    Menu.id := toString elementColor |}).
  assert (Hclick : Menu.clickMenuButton button = Some elementColor)
    by apply parseInt10_toString.
  destruct (last rows) as [lastRow|] eqn:El.
  - apply last_Some in El as (rows0 & ->).
    apply Forall_app in Hrows as [H0 H1].
    destruct (perRow <=? length lastRow)%nat eqn:Ef.
    + apply Nat.leb_le in Ef.
      eexists. split; [reflexivity|]. rewrite !concat_app, !length_app. simpl.
      split; [now rewrite !app_nil_r|]. split.
      { apply Forall_app. split; [apply Forall_app; auto|].
        constructor; [simpl; lia | constructor]. }
      split; [lia|]. split.
      { intros r0 l0 E Hl. apply app_inj_tail in E as [_ <-]. lia. }
      split; [reflexivity|]. split.
      { intros E. destruct rows0; discriminate E. }
      auto.
    + apply Nat.leb_gt in Ef. rewrite removelast_last.
      eexists. split; [reflexivity|]. rewrite !concat_app, !length_app. simpl.
      rewrite !app_nil_r, <- app_assoc.
      split; [reflexivity|]. split.
      { apply Forall_app. split; [exact H0|].
        constructor; [rewrite length_app; simpl; lia | constructor]. }
      split; [lia|]. split.
      { intros r0 l0 E _. apply app_inj_tail in E as [<- <-]. reflexivity. }
      split.
      { intros r0 l0 E Hl. apply app_inj_tail in E as [_ <-]. lia. }
      split.
      { intros E. destruct rows0; discriminate E. }
      auto.
  - assert (rows = []) as ->.
    { destruct rows as [|row rows] using rev_ind; [reflexivity|].
      rewrite last_snoc in El. discriminate. }
    eexists. split; [reflexivity|]. simpl.
    split; [reflexivity|]. split.
    { constructor; [simpl; lia | constructor]. }
    split; [lia|]. split.
    { intros r0 l0 E. destruct r0; discriminate E. }
    split.
    { intros r0 l0 E. destruct r0; discriminate E. }
    auto.
Qed.

(** ** The fallback of an explosive *)

Section WrapperCells.
Context `{Host}.

(** X9: when the callable of an explosive-named particle throws, the wrapper
    writes [FIRE] (as a 32-bit value) into the cell [i] of the buffer the
    callable left and touches nothing else: the buffer keeps its length and
    every other cell, the engine's state is kept, and an index outside the
    buffer changes nothing. *)
Theorem explosive_fallback_writes_one_cell
        (actionFn : Action) (particleName : str) (x y i : Z)
        (w w' : World) (e : str) :
  isExplosiveName particleName = true ->
  actionFn x y i w = (w', Throw e) ->
  let out := fst (createSafeParticleAction actionFn particleName x y i w) in
  snd out = snd w'
  /\ length (fst out) = length (fst w')
  /\ (forall k : nat, Z.of_nat k <> i -> fst out !! k = fst w' !! k)
  /\ ((0 <= i < Z.of_nat (length (fst w')))%Z ->
        fst out !! Z.to_nat i = Some (FIRE mod 2 ^ 32)%Z)
  /\ ((i < 0 \/ Z.of_nat (length (fst w')) <= i)%Z -> out = w').
Proof.
  intros Hx Ha out. subst out. unfold createSafeParticleAction.
  rewrite Ha. simpl. unfold fallback. rewrite Hx. unfold writeCell.
  destruct (0 <=? i)%Z eqn:E.
  - apply Z.leb_le in E. simpl. split; [reflexivity|].
    split; [apply length_insert|]. split; [|split].
    + intros k Hk. apply list_lookup_insert_ne. lia.
    + intros Hi. apply list_lookup_insert_eq. lia.
    + intros [Hi | Hi]; [lia|]. destruct w' as [buf est]. simpl in *.
      f_equal. apply list_insert_ge. lia.
  - apply Z.leb_gt in E. split; [reflexivity|]. split; [reflexivity|].
    split; [reflexivity|]. split; [lia|]. reflexivity.
Qed.

End WrapperCells.


(** ** The text handed to [JSON.parse] *)

Lemma firstMatch_skip {R} (m : str -> option R) a : forall s,
  (forall a1 a2, a = a1 ++ a2 -> a2 <> [] -> m (a2 ++ s) = None) ->
  Response.firstMatch m (a ++ s) = Response.firstMatch m s.
Proof.
  induction a as [|x a IH]; intros s Ha; [reflexivity|].
  simpl app. cbn [Response.firstMatch].
  pose proof (Ha [] (x :: a) eq_refl ltac:(discriminate)) as E.
  simpl app in E. rewrite E. apply IH.
  intros a1 a2 -> Hne. apply (Ha (x :: a1) a2 eq_refl Hne).
Qed.

Lemma firstMatch_here {R} (m : str -> option R) s r :
  m s = Some r -> Response.firstMatch m s = Some r.
Proof. intros E. destruct s; simpl; rewrite E; reflexivity. Qed.

Lemma firstMatch_none {R} (m : str -> option R) : forall s,
  (forall a t, s = a ++ t -> m t = None) -> Response.firstMatch m s = None.
Proof.
  induction s as [|x s IH]; intros Hs.
  - simpl. rewrite (Hs [] [] eq_refl). reflexivity.
  - cbn [Response.firstMatch]. rewrite (Hs [] (x :: s) eq_refl).
    apply IH. intros a t ->. apply (Hs (x :: a) t eq_refl).
Qed.

Lemma firstMatch_some {R} (m : str -> option R) : forall s r,
  Response.firstMatch m s = Some r -> exists a t, s = a ++ t /\ m t = Some r.
Proof.
  induction s as [|x s IH]; intros r; cbn [Response.firstMatch].
  - destruct (m []) eqn:E; [|discriminate]. intros [= <-]. exists [], []. auto.
  - destruct (m (x :: s)) eqn:E.
    + intros [= <-]. exists [], (x :: s). auto.
    + intros Hr. destruct (IH r Hr) as (a & t & -> & Ht).
      exists (x :: a), t. auto.
Qed.

Lemma text_head {R} c t (k : str -> str -> option R) matched x s :
  x <> c -> Response.text (c :: t) k matched (x :: s) = None.
Proof.
  intros Hx. unfold Response.text.
  change (startsWith (c :: t) (x :: s)) with ((c =? x)%N && startsWith t s).
  destruct (c =? x)%N eqn:E; [|reflexivity].
  apply N.eqb_eq in E. congruence.
Qed.

(** *** The object pattern *)

Lemma greedyAny_none : forall s m,
  forallb (fun x => negb (x =? 125)%N) s = true ->
  Response.greedyAny closing m s = None.
Proof.
  induction s as [|x s IH]; intros m Hs.
  - reflexivity.
  - simpl in Hs. apply andb_true_iff in Hs as [Hx Hs].
    cbn [Response.greedyAny]. rewrite (IH _ Hs).
    unfold closing. apply text_head. apply negb_true_iff in Hx.
    apply N.eqb_neq in Hx. exact Hx.
Qed.

Lemma greedyAny_last b : forallb (fun x => negb (x =? 125)%N) b = true ->
  forall mid m,
  Response.greedyAny closing m (mid ++ 125%N :: b) = Some (m ++ mid ++ [125%N]).
Proof.
  intros Hb. induction mid as [|c mid IH]; intros m.
  - simpl app. cbn [Response.greedyAny].
    rewrite (greedyAny_none b _ Hb). reflexivity.
  - simpl app. cbn [Response.greedyAny]. rewrite IH.
    rewrite <- app_assoc. reflexivity.
Qed.

Lemma greedyAny_shape : forall s m r,
  Response.greedyAny closing m s = Some r -> exists x, r = m ++ x ++ [125%N].
Proof.
  induction s as [|c s IH]; intros m r; cbn [Response.greedyAny].
  - discriminate.
  - destruct (Response.greedyAny closing (m ++ [c]) s) as [r'|] eqn:E.
    + intros [= <-]. destruct (IH _ _ E) as (x & ->).
      exists (c :: x). rewrite <- app_assoc. reflexivity.
    + unfold closing, Response.text.
      destruct (startsWith (lit "}") (c :: s)); [|discriminate].
      intros [= <-]. exists []. reflexivity.
Qed.

Lemma object_shape s m :
  Response.firstMatch Response.object s = Some m ->
  exists x, m = 123%N :: x ++ [125%N].
Proof.
  intros Hm. apply firstMatch_some in Hm as (a & t & _ & Ht).
  unfold Response.object, Response.text in Ht.
  destruct (startsWith (lit "{") t); [|discriminate].
  apply greedyAny_shape in Ht as (x & ->). exists x. reflexivity.
Qed.

Lemma object_span a mid b :
  forallb (fun x => negb (x =? 123)%N) a = true ->
  forallb (fun x => negb (x =? 125)%N) b = true ->
  Response.firstMatch Response.object (a ++ 123%N :: mid ++ 125%N :: b)
  = Some (123%N :: mid ++ [125%N]).
Proof.
  intros Ha Hb. rewrite firstMatch_skip.
  - apply firstMatch_here. unfold Response.object, Response.text.
    cbn [startsWith lit]. simpl startsWith.
    change (skipn (length (lit "{")) (123%N :: mid ++ 125%N :: b))
      with (mid ++ 125%N :: b).
    fold closing. rewrite (greedyAny_last b Hb). reflexivity.
  - intros a1 a2 -> Hne. destruct a2 as [|x a2]; [congruence|].
    apply forallb_app_r in Ha. simpl in Ha. apply andb_true_iff in Ha as [Hx _].
    apply negb_true_iff, N.eqb_neq in Hx.
    simpl app. unfold Response.object. apply text_head. exact Hx.
Qed.

Lemma braces_fixed x :
  trim (123%N :: x ++ [125%N]) = 123%N :: x ++ [125%N]
  /\ startsWith (lit "{") (123%N :: x ++ [125%N]) = true
  /\ endsWith (lit "}") (123%N :: x ++ [125%N]) = true
  /\ startsWith (lit "```") (123%N :: x ++ [125%N]) = false.
Proof.
  split; [|split; [|split]]; try reflexivity.
  - apply trim_fixed; [reflexivity|].
    change (123%N :: x ++ [125%N]) with ((123%N :: x) ++ [125%N]).
    rewrite rev_app_distr. reflexivity.
  - unfold endsWith.
    change (123%N :: x ++ [125%N]) with ((123%N :: x) ++ [125%N]).
    rewrite rev_app_distr. reflexivity.
Qed.

(** *** The fences *)

Lemma fenced_needs_fence fence s :
  startsWith (lit "```") fence = true ->
  includes (lit "```") s = false ->
  Response.firstMatch (Response.fenced fence) s = None.
Proof.
  intros Hf Hs. apply firstMatch_none. intros a t ->.
  unfold Response.fenced, Response.text.
  destruct (startsWith fence t) eqn:E; [|reflexivity].
  exfalso. apply startsWith_spec in E as (u & ->).
  apply startsWith_spec in Hf as (v & ->).
  assert (includes (lit "```") (a ++ (lit "```" ++ v) ++ u) = true); [|congruence].
  apply includes_spec. exists a, (v ++ u). rewrite <- app_assoc. reflexivity.
Qed.

Lemma spaces_success {R} (k : str -> str -> option R) w s r :
  forallb isSpace w = true ->
  match s with [] => True | c :: _ => isSpace c = false end ->
  forall matched,
  k (matched ++ w) s = Some r -> Response.spaces k matched (w ++ s) = Some r.
Proof.
  intros Hw Hs. induction w as [|c w IH]; intros matched Hk.
  - rewrite app_nil_r in Hk. simpl app.
    destruct s as [|x s]; [exact Hk|]. cbn [Response.spaces]. rewrite Hs. exact Hk.
  - simpl in Hw. apply andb_true_iff in Hw as [Hc Hw].
    simpl app. cbn [Response.spaces]. rewrite Hc.
    rewrite (IH Hw (matched ++ [c])); [reflexivity|].
    rewrite <- app_assoc. exact Hk.
Qed.

Lemma spaces_none {R} (k : str -> str -> option R) : forall s matched,
  (forall w s', s = w ++ s' -> forallb isSpace w = true ->
                k (matched ++ w) s' = None) ->
  Response.spaces k matched s = None.
Proof.
  induction s as [|c s IH]; intros matched Hk.
  - simpl. rewrite <- (app_nil_r matched). apply (Hk [] []); reflexivity.
  - cbn [Response.spaces].
    assert (E0 : k matched (c :: s) = None).
    { rewrite <- (app_nil_r matched). apply (Hk [] (c :: s)); reflexivity. }
    destruct (isSpace c) eqn:Ec; [|exact E0].
    rewrite IH; [exact E0|].
    intros w s' -> Hw. rewrite <- app_assoc. apply (Hk (c :: w) s'); [reflexivity|].
    simpl. rewrite Ec. exact Hw.
Qed.

Lemma lazyAny_skip {R} (k : str -> str -> str -> option R) g : forall group matched s,
  (forall g1 g2, g = g1 ++ g2 -> g2 <> [] ->
     k (group ++ g1) (matched ++ g1) (g2 ++ s) = None) ->
  Response.lazyAny k group matched (g ++ s)
  = Response.lazyAny k (group ++ g) (matched ++ g) s.
Proof.
  induction g as [|c g IH]; intros group matched s Hg.
  - rewrite !app_nil_r. reflexivity.
  - simpl app.
    pose proof (Hg [] (c :: g) eq_refl ltac:(discriminate)) as E.
    rewrite !app_nil_r in E. simpl app in E.
    cbn [Response.lazyAny]. rewrite E.
    rewrite IH.
    + rewrite <- !app_assoc. reflexivity.
    + intros g1 g2 -> Hne. rewrite <- !app_assoc.
      apply (Hg (c :: g1) g2 eq_refl Hne).
Qed.

Lemma lazyAny_here {R} (k : str -> str -> str -> option R) group matched s r :
  k group matched s = Some r -> Response.lazyAny k group matched s = Some r.
Proof. intros E. destruct s; simpl; rewrite E; reflexivity. Qed.

(** No closing fence is found before the end of a text without a backtick
    that ends with a character other than white space. *)
Lemma closingFence_none group matched g2 z rest :
  forallb (fun x => negb (x =? 96)%N) (g2 ++ [z]) = true ->
  isSpace z = false ->
  closingFence group matched ((g2 ++ [z]) ++ rest) = None.
Proof.
  intros Hg Hz. unfold closingFence. apply spaces_none.
  intros w s' Hs Hw.
  assert (Hhead : exists x t, s' = x :: t /\ x <> 96%N).
  { apply app_eq_app in Hs as [l [[E1 E2]|[E1 E2]]].
    - (* w is inside g2 ++ [z] *)
      destruct l as [|x l].
      + exfalso. rewrite app_nil_r in E1. subst w.
        apply forallb_app_r in Hw. simpl in Hw. rewrite Hz in Hw. discriminate.
      + exists x, (l ++ rest). split; [exact E2|].
        rewrite E1 in Hg. apply forallb_app_r in Hg.
        simpl in Hg. apply andb_true_iff in Hg as [Hx _].
        apply negb_true_iff, N.eqb_neq in Hx. exact Hx.
    - exfalso. rewrite E1 in Hw. rewrite forallb_app in Hw.
      apply andb_true_iff in Hw as [Hw _].
      apply forallb_app_r in Hw. simpl in Hw. rewrite Hz in Hw. discriminate. }
  destruct Hhead as (x & t & -> & Hx).
  apply text_head. exact Hx.
Qed.

Lemma piece_refl s : piece s s.
Proof. exists [], []. now rewrite app_nil_r. Qed.

Lemma piece_trans a b c : piece a b -> piece b c -> piece a c.
Proof.
  intros (x & y & ->) (u & v & ->). exists (u ++ x), (y ++ v).
  now rewrite <- !app_assoc.
Qed.

Lemma piece_trim s : piece (trim s) s.
Proof. destruct (trim_split s) as (w1 & w2 & _ & _ & E & _). now exists w1, w2. Qed.

Lemma piece_In j s c : piece j s -> In c j -> In c s.
Proof. intros (a & b & ->) H. rewrite !in_app_iff. auto. Qed.

Lemma spaces_some {R} (k : str -> str -> option R) : forall s matched r,
  Response.spaces k matched s = Some r ->
  exists w s', s = w ++ s' /\ k (matched ++ w) s' = Some r.
Proof.
  induction s as [|c s IH]; intros matched r; cbn [Response.spaces].
  - intros E. exists [], []. split; [reflexivity | now rewrite app_nil_r].
  - destruct (isSpace c).
    + destruct (Response.spaces k (matched ++ [c]) s) as [r'|] eqn:E.
      * intros [= <-]. destruct (IH _ _ E) as (w & s' & -> & Hk).
        exists (c :: w), s'. rewrite <- app_assoc in Hk. auto.
      * intros Hk. exists [], (c :: s). split; [reflexivity | now rewrite app_nil_r].
    + intros Hk. exists [], (c :: s). split; [reflexivity | now rewrite app_nil_r].
Qed.

Lemma lazyAny_some {R} (k : str -> str -> str -> option R) : forall s group matched r,
  Response.lazyAny k group matched s = Some r ->
  exists g s', s = g ++ s' /\ k (group ++ g) (matched ++ g) s' = Some r.
Proof.
  induction s as [|c s IH]; intros group matched r; cbn [Response.lazyAny].
  - destruct (k group matched []) eqn:E; [|discriminate].
    intros [= <-]. exists [], []. split; [reflexivity | now rewrite !app_nil_r].
  - destruct (k group matched (c :: s)) eqn:E.
    + intros [= <-]. exists [], (c :: s). split; [reflexivity | now rewrite !app_nil_r].
    + intros Hr. destruct (IH _ _ _ Hr) as (g & s' & -> & Hk).
      exists (c :: g), s'. rewrite <- !app_assoc in Hk. auto.
Qed.

Lemma greedyAny_some : forall s m r,
  Response.greedyAny closing m s = Some r ->
  exists x b, s = x ++ 125%N :: b /\ r = m ++ x ++ [125%N].
Proof.
  induction s as [|c s IH]; intros m r; cbn [Response.greedyAny].
  - discriminate.
  - destruct (Response.greedyAny closing (m ++ [c]) s) as [r'|] eqn:E.
    + intros [= <-]. destruct (IH _ _ E) as (x & b & -> & ->).
      exists (c :: x), b. now rewrite <- app_assoc.
    + unfold closing, Response.text.
      destruct (startsWith (lit "}") (c :: s)) eqn:Es; [|discriminate].
      apply startsWith_spec in Es as (t & Et). simpl in Et. injection Et as -> ->.
      intros [= <-]. exists [], t. auto.
Qed.

(** A match of the object pattern is a piece of the text in braces. *)
Lemma object_piece s m :
  Response.firstMatch Response.object s = Some m ->
  piece m s /\ exists x, m = 123%N :: x ++ [125%N].
Proof.
  intros Hm. apply firstMatch_some in Hm as (a & t & -> & Ht).
  unfold Response.object, Response.text in Ht.
  destruct (startsWith (lit "{") t) eqn:Es; [|discriminate].
  apply startsWith_spec in Es as (t' & E). subst t.
  change (Response.greedyAny closing [123%N] t' = Some m) in Ht.
  apply greedyAny_some in Ht as (x & b & -> & ->).
  split; [|now exists x].
  exists a, b. simpl. now rewrite <- app_assoc.
Qed.

(** The group of a fenced block is a piece of the text. *)
Lemma fenced_piece fence s m0 g :
  Response.firstMatch (Response.fenced fence) s = Some (m0, g) -> piece g s.
Proof.
  intros Hm. apply firstMatch_some in Hm as (a & t & -> & Ht).
  unfold Response.fenced in Ht. unfold Response.text at 1 in Ht.
  destruct (startsWith fence t) eqn:Es; [|discriminate].
  apply startsWith_spec in Es as (t1 & E). subst t.
  rewrite drop_app_length in Ht. simpl app in Ht.
  apply spaces_some in Ht as (w & t2 & -> & Ht).
  apply lazyAny_some in Ht as (g' & t3 & -> & Ht).
  apply spaces_some in Ht as (w' & t4 & -> & Ht).
  unfold Response.text in Ht.
  destruct (startsWith (lit "```") t4); [|discriminate].
  injection Ht as _ <-. simpl.
  exists (a ++ fence ++ w), (w' ++ t4). now rewrite <- !app_assoc.
Qed.

(** What is handed to [JSON.parse] is a piece of the response in braces. *)
Lemma jsonText_piece content j :
  Response.jsonText content = Some j ->
  piece j content /\ exists x, j = 123%N :: x ++ [125%N].
Proof.
  unfold Response.jsonText. cbv zeta.
  set (jsonStr :=
         match _ with Some (m0, m1) => _ | None => content end).
  assert (Hp : piece jsonStr content).
  { subst jsonStr.
    destruct (Response.firstMatch (Response.fenced (lit "```json")) content)
      as [[m0 g]|] eqn:E1.
    { destruct (startsWith (lit "```") m0) eqn:Es.
      - apply (fenced_piece _ _ _ _ E1).
      - apply firstMatch_some in E1 as (a & t & _ & Ht).
        unfold Response.fenced, Response.text in Ht.
        destruct (startsWith (lit "```json") t); [|discriminate].
        apply spaces_some in Ht as (w & t2 & _ & Ht).
        apply lazyAny_some in Ht as (g' & t3 & _ & Ht).
        apply spaces_some in Ht as (w' & t4 & _ & Ht).
        destruct (startsWith (lit "```") t4); [|discriminate].
        injection Ht as <- _. rewrite <- !app_assoc in Es. discriminate Es. }
    destruct (Response.firstMatch (Response.fenced (lit "```")) content)
      as [[m0 g]|] eqn:E2.
    { destruct (startsWith (lit "```") m0) eqn:Es.
      - apply (fenced_piece _ _ _ _ E2).
      - apply firstMatch_some in E2 as (a & t & _ & Ht).
        unfold Response.fenced, Response.text in Ht.
        destruct (startsWith (lit "```") t); [|discriminate].
        apply spaces_some in Ht as (w & t2 & _ & Ht).
        apply lazyAny_some in Ht as (g' & t3 & _ & Ht).
        apply spaces_some in Ht as (w' & t4 & _ & Ht).
        destruct (startsWith (lit "```") t4); [|discriminate].
        injection Ht as <- _. rewrite <- !app_assoc in Es. discriminate Es. }
    destruct (Response.firstMatch Response.object content) as [m0|] eqn:E3.
    { apply object_piece in E3 as (Hp & x & ->).
      destruct (braces_fixed x) as (_ & _ & _ & ->). exact Hp. }
    apply piece_refl. }
  clearbody jsonStr.
  pose proof (piece_trans _ _ _ (piece_trim jsonStr) Hp) as Ht.
  destruct (startsWith (lit "{") (trim jsonStr)) eqn:E1;
    destruct (endsWith (lit "}") (trim jsonStr)) eqn:E2; simpl.
  - intros [= <-]. split; [exact Ht|].
    apply startsWith_spec in E1 as (t & Et). unfold endsWith in E2.
    apply startsWith_spec in E2 as (u & Eu).
    rewrite Et in Eu |- *. simpl in Eu.
    destruct t as [|c t] using rev_ind.
    + discriminate Eu.
    + clear IHt. change (123%N :: t ++ [c]) with ((123%N :: t) ++ [c]) in Eu.
      rewrite rev_unit in Eu. injection Eu as -> _. simpl. now exists t.
  - destruct (Response.firstMatch Response.object (trim jsonStr)) as [m|] eqn:Em;
      [|discriminate]. intros [= <-].
    apply object_piece in Em as (Hm & Hx). split; [|exact Hx].
    apply (piece_trans _ _ _ Hm Ht).
  - destruct (Response.firstMatch Response.object (trim jsonStr)) as [m|] eqn:Em;
      [|discriminate]. intros [= <-].
    apply object_piece in Em as (Hm & Hx). split; [|exact Hx].
    apply (piece_trans _ _ _ Hm Ht).
  - destruct (Response.firstMatch Response.object (trim jsonStr)) as [m|] eqn:Em;
      [|discriminate]. intros [= <-].
    apply object_piece in Em as (Hm & Hx). split; [|exact Hx].
    apply (piece_trans _ _ _ Hm Ht).
Qed.

(** X24: whatever the response holds, the text [generateParticle] hands to
    [JSON.parse] is a contiguous piece of the response that begins with an
    opening brace and ends with a closing brace. *)
Theorem json_text_is_a_piece_in_braces (content j : str) :
  Response.jsonText content = Some j ->
  piece j content
  /\ startsWith (lit "{") j = true /\ endsWith (lit "}") j = true.
Proof.
  intros Hj. apply jsonText_piece in Hj as (Hp & x & ->).
  destruct (braces_fixed x) as (_ & H1 & H2 & _). auto.
Qed.

(** [json_text_is_a_piece_in_braces] at a sample input. *)
Lemma json_text_is_a_piece_in_braces_witness :
  Response.jsonText (lit "Here it is: {a: {b}} } - enjoy") = Some (lit "{a: {b}} }")
  /\ piece (lit "{a: {b}} }") (lit "Here it is: {a: {b}} } - enjoy")
  /\ startsWith (lit "{") (lit "{a: {b}} }") = true
  /\ endsWith (lit "}") (lit "{a: {b}} }") = true.
Proof.
  split; [vm_compute; reflexivity|].
  apply (json_text_is_a_piece_in_braces (lit "Here it is: {a: {b}} } - enjoy")).
  vm_compute. reflexivity.
Defined.

(** X25: a response that has no opening brace, or no closing brace, is
    refused: [generateParticle] hands nothing to [JSON.parse] and throws. *)
Theorem response_without_braces_is_refused (content : str) :
  forallb (fun c => negb (c =? 123)%N) content = true
  \/ forallb (fun c => negb (c =? 125)%N) content = true ->
  Response.jsonText content = None.
Proof.
  intros H. destruct (Response.jsonText content) as [j|] eqn:Ej; [|reflexivity].
  exfalso. apply jsonText_piece in Ej as (Hp & x & ->).
  destruct H as [H|H]; rewrite forallb_forall in H.
  - specialize (H 123%N (piece_In _ _ _ Hp (or_introl eq_refl))). discriminate H.
  - assert (In 125%N (123%N :: x ++ [125%N])) as Hin.
    { right. apply in_app_iff. right. now left. }
    specialize (H 125%N (piece_In _ _ _ Hp Hin)). discriminate H.
Qed.

(** [response_without_braces_is_refused] at a sample input. *)
Lemma response_without_braces_is_refused_witness :
  (forallb (fun c => negb (c =? 123)%N) (lit "```json name: MUD } ```") = true
   \/ forallb (fun c => negb (c =? 125)%N) (lit "```json name: MUD } ```") = true)
  /\ Response.jsonText (lit "```json name: MUD } ```") = None.
Proof.
  split; [left; reflexivity|].
  apply (response_without_braces_is_refused (lit "```json name: MUD } ```")).
  left. reflexivity.
Defined.

(** X26: of a response without a code fence, [generateParticle] hands to
    [JSON.parse] the text from the first opening brace to the last closing
    brace. *)
Theorem bare_object_is_found (a mid b : str) :
  includes (lit "```") (a ++ lit "{" ++ mid ++ lit "}" ++ b) = false ->
  forallb (fun x => negb (x =? 123)%N) a = true ->
  forallb (fun x => negb (x =? 125)%N) b = true ->
  Response.jsonText (a ++ lit "{" ++ mid ++ lit "}" ++ b)
  = Some (lit "{" ++ mid ++ lit "}").
Proof.
  intros Hf Ha Hb. unfold Response.jsonText. cbv zeta.
  rewrite (fenced_needs_fence (lit "```json") _ eq_refl Hf).
  rewrite (fenced_needs_fence (lit "```") _ eq_refl Hf).
  change (a ++ lit "{" ++ mid ++ lit "}" ++ b)
    with (a ++ 123%N :: mid ++ 125%N :: b).
  rewrite (object_span a mid b Ha Hb).
  destruct (braces_fixed mid) as (Ht & H1 & H2 & H3).
  rewrite H3, Ht, H1, H2. reflexivity.
Qed.

(** [bare_object_is_found] at a sample input. *)
Lemma bare_object_is_found_witness :
  (includes (lit "```")
     (lit "Sure: " ++ lit "{" ++ lit "a: {b}" ++ lit "}" ++ lit " - enjoy") = false
   /\ forallb (fun x => negb (x =? 123)%N) (lit "Sure: ") = true
   /\ forallb (fun x => negb (x =? 125)%N) (lit " - enjoy") = true)
  /\ Response.jsonText
       (lit "Sure: " ++ lit "{" ++ lit "a: {b}" ++ lit "}" ++ lit " - enjoy")
     = Some (lit "{" ++ lit "a: {b}" ++ lit "}").
Proof.
  split; [repeat split; reflexivity|].
  apply (bare_object_is_found (lit "Sure: ") (lit "a: {b}") (lit " - enjoy"));
    reflexivity.
Defined.

(** X27: of a response with a block fenced by [```json] and [```] that holds
    an object in braces, where neither the text before the block nor the
    object has a backtick, [generateParticle] hands the object to
    [JSON.parse], without the white space around it and whatever follows
    the block. *)
Theorem fenced_object_is_found (pre w1 x w2 post : str) :
  forallb (fun c => negb (c =? 96)%N) pre = true ->
  forallb (fun c => negb (c =? 96)%N) x = true ->
  forallb isSpace w1 = true ->
  forallb isSpace w2 = true ->
  Response.jsonText
    (pre ++ lit "```json" ++ w1 ++ (lit "{" ++ x ++ lit "}") ++ w2
     ++ lit "```" ++ post)
  = Some (lit "{" ++ x ++ lit "}").
Proof.
  intros Hpre Hx Hw1 Hw2.
  set (J := lit "{" ++ x ++ lit "}").
  assert (HJ : J = 123%N :: x ++ [125%N]) by reflexivity.
  assert (E1 : Response.firstMatch (Response.fenced (lit "```json"))
                 (pre ++ lit "```json" ++ w1 ++ J ++ w2 ++ lit "```" ++ post)
               = Some (lit "```json" ++ w1 ++ J ++ w2 ++ lit "```", J)).
  { rewrite firstMatch_skip.
    2:{ intros a1 a2 -> Hne. destruct a2 as [|c a2]; [congruence|].
        apply forallb_app_r in Hpre. simpl in Hpre.
        apply andb_true_iff in Hpre as [Hc _].
        apply negb_true_iff, N.eqb_neq in Hc.
        simpl app. unfold Response.fenced. apply text_head. exact Hc. }
    apply firstMatch_here. unfold Response.fenced, Response.text.
    assert (startsWith (lit "```json")
              (lit "```json" ++ w1 ++ J ++ w2 ++ lit "```" ++ post) = true) as ->.
    { apply startsWith_spec. eexists. reflexivity. }
    rewrite skipn_app, skipn_all, Nat.sub_diag. simpl skipn. simpl app at 1.
    apply (spaces_success _ w1 (J ++ w2 ++ lit "```" ++ post));
      [exact Hw1 | rewrite HJ; reflexivity |].
    change (fun group : str =>
              Response.spaces
                (fun matched s : str =>
                   if startsWith (lit "```") s
                   then Some (matched ++ lit "```", group)
                   else None))
      with (fun group : str =>
              Response.spaces
                (Response.text (lit "```")
                   (fun matched _ => Some (matched, group)))).
    fold closingFence.
    change (fun group : str => closingFence group) with closingFence.
    rewrite lazyAny_skip.
    2:{ intros g1 g2 Eg Hne.
        destruct (exists_last Hne) as (g2' & z & ->).
        assert (z = 125%N /\ forallb (fun c => negb (c =? 96)%N) (g2' ++ [z]) = true)
          as [-> Hg].
        { rewrite HJ in Eg.
          change (123%N :: x ++ [125%N]) with ((123%N :: x) ++ [125%N]) in Eg.
          rewrite app_assoc in Eg. apply app_inj_tail in Eg as [Eg <-].
          split; [reflexivity|].
          assert (forallb (fun c => negb (c =? 96)%N) ((123%N :: x) ++ [125%N]) = true)
            as Hall.
          { rewrite forallb_app. simpl. rewrite Hx. reflexivity. }
          rewrite Eg, <- app_assoc in Hall.
          apply forallb_app_r in Hall. exact Hall. }
        apply closingFence_none; [exact Hg | reflexivity]. }
    apply lazyAny_here. unfold closingFence.
    apply (spaces_success _ w2 (lit "```" ++ post)); [exact Hw2 | reflexivity |].
    unfold Response.text. simpl startsWith. cbv iota.
    rewrite <- !app_assoc. reflexivity. }
  unfold Response.jsonText. cbv zeta. fold J. rewrite E1.
  assert (startsWith (lit "```") (lit "```json" ++ w1 ++ J ++ w2 ++ lit "```") = true)
    as -> by reflexivity.
  rewrite HJ. destruct (braces_fixed x) as (Ht & H1 & H2 & _).
  rewrite Ht, H1, H2. reflexivity.
Qed.

(** [fenced_object_is_found] at a sample input. *)
Lemma fenced_object_is_found_witness :
  (forallb (fun c => negb (c =? 96)%N) (lit "Sure! ") = true
   /\ forallb (fun c => negb (c =? 96)%N) (lit "a: {b}") = true
   /\ forallb isSpace (lit "  ") = true
   /\ forallb isSpace (lit " ") = true)
  /\ Response.jsonText
       (lit "Sure! " ++ lit "```json" ++ lit "  "
        ++ (lit "{" ++ lit "a: {b}" ++ lit "}") ++ lit " "
        ++ lit "```" ++ lit " bye {c}")
     = Some (lit "{" ++ lit "a: {b}" ++ lit "}").
Proof.
  split; [repeat split; reflexivity|].
  apply (fenced_object_is_found (lit "Sure! ") (lit "  ") (lit "a: {b}")
           (lit " ") (lit " bye {c}")); reflexivity.
Defined.

(** ** Fragments the rewriter has nothing to do with *)

Section PlainFragment.
Context `{Host}.

Lemma includes_false_cons W c s :
  includes W (c :: s) = false ->
  startsWith W (c :: s) = false /\ includes W s = false.
Proof. simpl. intros E. apply orb_false_iff in E. exact E. Qed.

Lemma replaceFrom_nowhere (m : matcher) rho : forall s prev,
  (forall prev a t, s = a ++ t -> m prev t = None) ->
  replaceFrom m rho 0 prev s = s.
Proof.
  induction s as [|c s IH]; intros prev Hm; simpl.
  - rewrite (Hm prev [] [] eq_refl). reflexivity.
  - rewrite (Hm prev [] (c :: s) eq_refl). f_equal. apply IH.
    intros prev' a t ->. apply (Hm prev' (c :: a) t eq_refl).
Qed.

(** A pattern that begins with a literal text matches only where the text
    stands. *)
Lemma matchAt_literal_head W Q : forall s,
  startsWith W s = false -> matchAt (map Lit W ++ Q) s = None.
Proof.
  induction W as [|c W IH]; intros s; simpl; [discriminate|].
  destruct s as [|x s]; [reflexivity|].
  rewrite N.eqb_sym. destruct (x =? c)%N; simpl; [|reflexivity].
  intros E. rewrite (IH s E). reflexivity.
Qed.

Lemma includes_false_suffix W a t :
  includes W (a ++ t) = false -> startsWith W t = false.
Proof.
  induction a as [|c a IH]; simpl app.
  - destruct t; simpl; intros E; apply orb_false_iff in E; tauto.
  - intros E. apply includes_false_cons in E as [_ E]. auto.
Qed.

Lemma replaceAll_without_head W Q R s :
  includes W s = false -> replaceAll (map Lit W ++ Q) R s = s.
Proof.
  intros Hs. apply replaceFrom_nowhere.
  intros prev a t ->. apply matchAt_literal_head.
  apply (includes_false_suffix _ _ _ Hs).
Qed.

Lemma replaceWith_without_head W Q rho s :
  includes W s = false -> replaceWith (ofPattern (map Lit W ++ Q)) rho s = s.
Proof.
  intros Hs. apply replaceFrom_nowhere.
  intros prev a t ->. apply matchAt_literal_head.
  apply (includes_false_suffix _ _ _ Hs).
Qed.

Lemma replaceWith_without_word NAME rho s :
  includes NAME s = false -> replaceWith (matchWord NAME) rho s = s.
Proof.
  intros Hs. apply replaceFrom_nowhere.
  intros prev a t ->. unfold matchWord.
  rewrite (includes_false_suffix _ _ _ Hs). reflexivity.
Qed.

(** X28: [preprocessActionCode] returns a fragment as it was given when the
    fragment has at least 50 characters after trimming and mentions none of
    the texts the rewriter looks for (the name in upper case, [bordering],
    [gameImagedata32[i], [THIS_ELEMENT_COLOR]), for a name of plain
    characters that is not the name of an explosive. *)
Theorem plain_fragment_is_kept (code particleName : str) (elementColor : Z) :
  (50 <= length (trim code))%nat ->
  literalName (toUpperCase particleName) = true ->
  isExplosiveName particleName = false ->
  includes (toUpperCase particleName) code = false ->
  includes (lit "bordering") code = false ->
  includes (lit "gameImagedata32[i") code = false ->
  includes (lit "THIS_ELEMENT_COLOR") code = false ->
  preprocessActionCode code particleName elementColor = Some code.
Proof.
  intros Hlen Hname Hex Hn Hb Hg Ht.
  unfold preprocessActionCode. cbv zeta.
  assert ((length (trim code) <? 50)%nat = false) as -> by (apply Nat.ltb_ge; exact Hlen).
  assert (eqStr (trim code) (lit "doGravity(x, y, i, true, 0.9);") = false) as ->.
  { destruct (eqStr (trim code) (lit "doGravity(x, y, i, true, 0.9);")) eqn:E;
      [|reflexivity].
    apply eqStr_eq in E. rewrite E in Hlen. simpl in Hlen. lia. }
  simpl orb. cbv iota.
  unfold replaceParticleName. cbv zeta. rewrite Hname.
  rewrite (replaceWith_without_word _ _ _ Hn).
  rewrite Hex.
  unfold reBordering, arrayAccessPattern, lits.
  rewrite (replaceAll_without_head (lit "bordering") _ _ _ Hb).
  rewrite (replaceWith_without_head (lit "gameImagedata32[i") _ _ _ Hg).
  rewrite replaceAll_absent; [reflexivity|].
  rewrite occurs_literal. exact Ht.
Qed.

End PlainFragment.

(** ** The similarity test of the validator *)

(** The square of a difference of two channels is computed exactly. *)
Lemma difference_table : differenceHolds (channels 0 256) = true.
Proof. vm_compute. reflexivity. Qed.

(** The root of a sum of three squares is below 60 where the sum is below
    3600. *)
Lemma threshold_table : thresholdHolds squares = true.
Proof. vm_compute. reflexivity. Qed.

Lemma differenceHolds_spec cs r er :
  differenceHolds cs = true -> In r cs -> In er cs ->
  Math_pow2 (ofZ r - ofZ er) = ofZ (Z.abs (r - er) * Z.abs (r - er)).
Proof.
  unfold differenceHolds. intros T Hr He.
  rewrite forallb_forall in T. specialize (T r Hr).
  rewrite forallb_forall in T. specialize (T er He).
  apply FloatAxioms.Leibniz.eqb_spec in T. exact T.
Qed.

Lemma thresholdHolds_spec sq a b c :
  thresholdHolds sq = true -> In a sq -> In b sq -> In c sq ->
  PrimFloat.ltb (PrimFloat.sqrt (fst a + fst b + fst c)%float) 60
  = (snd a + snd b + snd c <? 3600)%Z.
Proof.
  unfold thresholdHolds. intros T Ha Hb Hc.
  rewrite forallb_forall in T. specialize (T a Ha).
  rewrite forallb_forall in T. specialize (T b Hb). cbv zeta in T.
  rewrite forallb_forall in T. specialize (T c Hc).
  apply eqb_prop in T. rewrite T.
  destruct (Z.ltb_spec (snd c) (3600 - (snd a + snd b)));
    destruct (Z.ltb_spec (snd a + snd b + snd c) 3600); (reflexivity || lia).
Qed.

Lemma square_of_difference r er :
  inChannel r -> inChannel er ->
  Math_pow2 (ofZ r - ofZ er) = ofZ (Z.abs (r - er) * Z.abs (r - er))
  /\ In (ofZ (Z.abs (r - er) * Z.abs (r - er)),
         (Z.abs (r - er) * Z.abs (r - er))%Z) squares.
Proof.
  unfold inChannel. intros Hr He. split.
  - apply (differenceHolds_spec (channels 0 256) r er difference_table);
      apply in_channels; simpl; lia.
  - apply (in_map (fun i => (ofZ (i * i), (i * i)%Z)) (channels 0 256)
             (Z.abs (r - er))).
    apply in_channels. simpl. lia.
Qed.

Lemma similarity_by_squares c e :
  inChannels c -> inChannels e ->
  PrimFloat.ltb (distance c e) 60 = (squaredDistance c e <? 3600)%Z.
Proof.
  destruct c as [[r g] b], e as [[er eg] eb].
  intros (Hr & Hg & Hb) (Her & Heg & Heb).
  unfold distance, squaredDistance.
  destruct (square_of_difference r er Hr Her) as [-> I1].
  destruct (square_of_difference g eg Hg Heg) as [-> I2].
  destruct (square_of_difference b eb Hb Heb) as [-> I3].
  pose proof (thresholdHolds_spec squares _ _ _ threshold_table I1 I2 I3) as T.
  cbn [fst snd] in T.
  rewrite T, !Z.abs_square. reflexivity.
Qed.

Lemma standardColors_inChannels n e :
  In (n, e) standardColors -> inChannels e.
Proof.
  unfold standardColors. simpl.
  intros Hin. repeat (destruct Hin as [[= <- <-]|Hin]; [unfold inChannels, inChannel; lia|]).
  destruct Hin.
Qed.

(** X29: for channels in 0..255 the similarity test of
    [validateUniqueParticle], a square root of a sum of powers compared
    with 60 in floating-point arithmetic, is exact: it holds when the sum
    of the squares of the three channel differences is below 3600. *)
Theorem similarity_test_is_exact (c e : Color) :
  inChannels c -> inChannels e ->
  PrimFloat.ltb (distance c e) 60 = true <-> (squaredDistance c e < 3600)%Z.
Proof.
  intros Hc He. rewrite (similarity_by_squares c e Hc He). apply Z.ltb_lt.
Qed.

(** [similarity_test_is_exact] at a sample input. *)
Lemma similarity_test_is_exact_witness :
  (inChannels (36, 48, 10)%Z /\ inChannels (0, 0, 10)%Z)
  /\ (PrimFloat.ltb (distance (36, 48, 10)%Z (0, 0, 10)%Z) 60 = true
      <-> (squaredDistance (36, 48, 10)%Z (0, 0, 10)%Z < 3600)%Z).
Proof.
  split; [unfold inChannels, inChannel; lia|].
  apply (similarity_test_is_exact (36, 48, 10)%Z (0, 0, 10)%Z);
    unfold inChannels, inChannel; lia.
Defined.

(** X30: [validateUniqueParticle] answers invalid for a description whose
    color, with channels in 0..255, has a squared distance below 3600 to a
    standard color, whatever its name and its action code, and the message
    names a standard color that near. *)
Theorem color_near_a_standard_is_flagged (p : ParticleData) (n : str) (e : Color) :
  inChannels (color p) ->
  In (n, e) standardColors ->
  (squaredDistance (color p) e < 3600)%Z ->
  exists n' e',
    validateUniqueParticle p
    = Some {| isValid := false; message := TooSimilarTo n' e' |}
    /\ In (n', e') standardColors
    /\ (squaredDistance (color p) e' < 3600)%Z.
Proof.
  intros Hc Hin Hd. unfold validateUniqueParticle.
  destruct (find (fun e0 => PrimFloat.ltb (distance (color p) (snd e0)) 60)
              standardColors) as [[n' e']|] eqn:E.
  - apply find_some in E as [Hin' Ht]. exists n', e'. split; [reflexivity|].
    split; [exact Hin'|]. simpl in Ht.
    rewrite (similarity_by_squares _ _ Hc (standardColors_inChannels _ _ Hin')) in Ht.
    apply Z.ltb_lt. exact Ht.
  - exfalso. pose proof (find_none _ _ E _ Hin) as Ht. simpl in Ht.
    rewrite (similarity_by_squares _ _ Hc (standardColors_inChannels _ _ Hin)) in Ht.
    apply Z.ltb_ge in Ht. lia.
Qed.

(** [color_near_a_standard_is_flagged] at a sample input. *)
Lemma color_near_a_standard_is_flagged_witness :
  (inChannels (255, 60, 30)%Z
   /\ In (lit "LAVA", (245, 110, 40)%Z) standardColors
   /\ (squaredDistance (255, 60, 30)%Z (245, 110, 40)%Z < 3600)%Z)
  /\ exists n' e',
       validateUniqueParticle
         {| name := lit "TNT"; color := (255, 60, 30)%Z; action_code := Text [] |}
       = Some {| isValid := false; message := TooSimilarTo n' e' |}
       /\ In (n', e') standardColors
       /\ (squaredDistance (255, 60, 30)%Z e' < 3600)%Z.
Proof.
  split.
  - split; [unfold inChannels, inChannel; lia|].
    split; [unfold standardColors; simpl; tauto | vm_compute; reflexivity].
  - apply (color_near_a_standard_is_flagged
             {| name := lit "TNT"; color := (255, 60, 30)%Z; action_code := Text [] |}
             (lit "LAVA") (245, 110, 40)%Z).
    + unfold inChannels, inChannel. simpl. lia.
    + unfold standardColors. simpl. tauto.
    + vm_compute. reflexivity.
Defined.

(** *** Evaluations on the sample host *)

#[local] Existing Instance sampleHost.

(** C1 fails on the code: [ROCK], not yet registered, with a fragment that
    does not compile. The call raises the error and leaves the element list,
    the action list, the callables and the counter alone, but the name and
    the menu name are entered; a later registration of [ROCK] with a good
    fragment then goes the way of an update and never reaches the engine's
    lists. *)
Theorem failed_registration_leaves_the_name :
  let d := particle "ROCK" (10, 20, 30)%Z "@" in
  let r := registerCustomParticle (H := sampleHost) d emptyRegistry in
  let r2 := registerCustomParticle
              (particle "ROCK" (10, 20, 30)%Z "doGravity(x, y, i, true, 0.5);")
              (fst r) in
  getElementColorFromName emptyRegistry (lit "ROCK") = None
  /\ buildAction safeActionCodeNew d (newElementColor d emptyRegistry) = None
  /\ snd r = inl FailedToCreateAction
  /\ customElementColors (fst r) !! lit "ROCK" = Some 1000%Z
  /\ menuNames (fst r) !! 1000%Z = Some (lit "ROCK")
  /\ customElementActions (fst r) !! 1000%Z = None
  /\ elements (fst r) = []
  /\ length (elementActions (fst r)) = 0%nat
  /\ nextCustomElementIdx (fst r) = 64%Z
  /\ snd r2 = inr 1000%Z
  /\ elements (fst r2) = []
  /\ nextCustomElementIdx (fst r2) = 64%Z.
Proof. cbv zeta. repeat split; vm_compute; reflexivity. Qed.


Lemma reregistration_keeps_id_witness :
  let st := fst (registerCustomParticle (H := sampleHost)
                   (particle "ASH" (90, 90, 90)%Z "doGravity(x, y, i, true, 0.5);")
                   emptyRegistry) in
  let d := particle "ASH" (1, 2, 3)%Z "doRise(x, y, i, 0.5, 0.5);" in
  getElementColorFromName st (name d) = Some 1000%Z
  /\ is_Some (Menu.updateCustomParticlesList st)
  /\ snd (registerCustomParticle d st) = inr 1000%Z
  /\ getElementColorFromName (fst (registerCustomParticle d st)) (name d)
     = Some 1000%Z.
Proof.
  cbv zeta.
  assert (H : getElementColorFromName
    (fst (registerCustomParticle (H := sampleHost)
            (particle "ASH" (90, 90, 90)%Z "doGravity(x, y, i, true, 0.5);")
            emptyRegistry))
    (name (particle "ASH" (1, 2, 3)%Z "doRise(x, y, i, 0.5, 0.5);"))
    = Some 1000%Z) by (vm_compute; reflexivity).
  split; [exact H|]. split; [vm_compute; eauto|]. split; [vm_compute; reflexivity|].
  pose proof (reregistration_keeps_id (H := sampleHost) _ _ _ H) as T.
  cbv zeta in T.
  exact (proj2 (proj2 (proj2 (proj2 (proj2 (proj2 (proj2 (proj2 (proj2 T))))))))).
Defined.

(** C3 fails: [ASH] has its colour; registered again with a fragment that
    does not compile, the call raises an error instead of returning the
    colour. *)
Lemma reregistration_may_fail :
  let st := fst (registerCustomParticle (H := sampleHost)
                   (particle "ASH" (90, 90, 90)%Z "doGravity(x, y, i, true, 0.5);")
                   emptyRegistry) in
  getElementColorFromName st (lit "ASH") = Some 1000%Z
  /\ snd (registerCustomParticle (particle "ASH" (1, 2, 3)%Z "@") st)
     = inl FailedToUpdateAction.
Proof. cbv zeta. split; vm_compute; reflexivity. Qed.

(** The sample host makes of the template around [brokenFragment] a
    function that behaves as the template does around a fragment that
    raises. *)
Lemma brokenFragment_compiled :
  compiledAs (H := sampleHost) (safeActionCodeNew brokenFragment)
             (actionFunction raising)
  /\ compiledAs (H := sampleHost) (safeActionCodeUpdate brokenFragment)
                (actionFunction raising).
Proof.
  split; (eexists; split; [vm_compute; reflexivity|]);
    intros x y i [buf e]; vm_compute; reflexivity.
Qed.

(** C4 fails: [TNT], an explosive by its name, with a fragment that raises.
    The exception is caught by the [catch] that is compiled around the
    fragment and answered with [doGravity]; the callable returns the world
    as [doGravity] leaves it, where the fallback of the name would have
    written FIRE into the cell. Nor does every call return: a loop the sanitizer does not
    recognise reaches the compiler as it is, and a callable around a
    fragment that does not return does not return. *)
Lemma fragment_error_is_answered_by_gravity :
  let r := registerCustomParticle (H := sampleHost) brokenTNT emptyRegistry in
  isExplosiveName (name brokenTNT) = true
  /\ snd r = inr 1000%Z
  /\ processedFragment brokenTNT 1000 = Some brokenFragment
  /\ compiledAs (safeActionCodeNew brokenFragment) (actionFunction raising)
  /\ belowTenth threeCells = false
  /\ raising 0%Z 0%Z 1%Z (afterRandom threeCells)
     = (threeCells, Throw (lit "0"))
  /\ match customElementActions (fst r) !! 1000%Z with
     | Some f =>
         f 0%Z 0%Z 1%Z threeCells = (([5; 0; 5]%Z, tt), Normal)
         /\ doGravity 0%Z 0%Z 1%Z true 1.0 threeCells
            = (([5; 0; 5]%Z, tt), Normal)
     | None => False
     end
  /\ fst threeCells !! 1%nat = Some 5%Z
  /\ fst (writeCell 1 FIRE threeCells) !! 1%nat = Some 4278845695%Z
  /\ processedFragment (particle "ROCK" (10, 20, 30)%Z "while/**/(true){}") 1000
     = Some (lit "while/**/(true){}")
  /\ snd (createSafeParticleAction (actionFunction unending) (lit "ROCK")
            0%Z 0%Z 1%Z threeCells) = NoReturn.
Proof.
  cbv zeta. split; [vm_compute; reflexivity|]. split; [vm_compute; reflexivity|].
  split; [vm_compute; reflexivity|]. split; [exact (proj1 brokenFragment_compiled)|].
  repeat split; vm_compute; reflexivity.
Qed.

Lemma registered_callable_is_layered_witness :
  snd (registerCustomParticle (H := sampleHost) brokenTNT emptyRegistry)
  = inr 1000%Z
  /\ processedFragment brokenTNT 1000 = Some brokenFragment
  /\ exists f compiled : Action,
       customElementActions
         (fst (registerCustomParticle (H := sampleHost) brokenTNT emptyRegistry))
       !! 1000%Z = Some f
       /\ (forall x y i w,
             compiled x y i w = actionFunction raising x y i w)
       /\ (forall w' m,
             compiled 0%Z 0%Z 1%Z threeCells = (w', Throw m) ->
             f 0%Z 0%Z 1%Z threeCells = fallback (lit "TNT") 0%Z 0%Z 1%Z w').
Proof.
  assert (H1 : snd (registerCustomParticle (H := sampleHost) brokenTNT emptyRegistry)
               = inr 1000%Z) by (vm_compute; reflexivity).
  assert (H2 : processedFragment (H := sampleHost) brokenTNT 1000
               = Some brokenFragment) by (vm_compute; reflexivity).
  split; [exact H1|]. split; [exact H2|].
  destruct (registered_callable_is_layered (H := sampleHost)
              brokenTNT emptyRegistry 1000 H1)
    as (f & compiled & Hf & Houter & Hinner).
  exists f, compiled. split; [exact Hf|]. split.
  - intros x y i w.
    exact (proj1 (Hinner brokenFragment raising H2
                    (proj1 brokenFragment_compiled)
                    (proj2 brokenFragment_compiled) x y i w)).
  - intros w' m Hc.
    exact (proj1 (proj1 (proj2 (proj2 (Houter 0%Z 0%Z 1%Z threeCells))) w' m Hc)).
Defined.

Lemma generated_name_is_requested_witness :
  generateParticle (lit "slime") sampleReply emptyRegistry
  = (fst (generateParticle (lit "slime") sampleReply emptyRegistry),
     inr sampleDescription)
  /\ name sampleDescription = lit "SLIME"
  /\ customParticles
       (fst (generateParticle (lit "slime") sampleReply emptyRegistry))
     !! lit "slime" = Some sampleDescription.
Proof.
  assert (E : generateParticle (lit "slime") sampleReply emptyRegistry
              = (fst (generateParticle (lit "slime") sampleReply emptyRegistry),
                 inr sampleDescription)).
  { apply injective_projections; [reflexivity|]. vm_compute. reflexivity. }
  split; [exact E|].
  destruct (generated_name_is_requested (lit "slime") sampleReply emptyRegistry
              _ sampleDescription E) as (T1 & T2 & _).
  split; [exact T1|exact T2].
Defined.

(** *** The sessions and the rewriter on the sample host *)

(** [registered_name_keeps_its_color] at a sample input. *)
Lemma registered_name_keeps_its_color_witness :
  getElementColorFromName (fst (registerCustomParticle ash emptyRegistry)) (lit "ASH")
  = Some 1000%Z
  /\ getElementColorFromName
       (run sampleSession (fst (registerCustomParticle ash emptyRegistry)))
       (lit "ASH")
     = Some 1000%Z.
Proof.
  split; [vm_compute; reflexivity|].
  apply registered_name_keeps_its_color. vm_compute. reflexivity.
Defined.

(** [particle_list_stays_drawable] at a sample input. *)
Lemma particle_list_stays_drawable_witness :
  is_Some (Menu.updateCustomParticlesList emptyRegistry)
  /\ is_Some (Menu.updateCustomParticlesList (run sampleSession emptyRegistry)).
Proof.
  split; [vm_compute; eauto|].
  apply particle_list_stays_drawable. vm_compute. eauto.
Defined.

(** [drawn_button_selects_the_registered_color] at a sample input. *)
Lemma drawn_button_selects_the_registered_color_witness :
  let st := fst (handleParticleSubmission (lit " slime ") sampleReply emptyRegistry) in
  customParticles st !! lit "SLIME" = Some sampleDescription
  /\ exists bs b c,
       Menu.updateCustomParticlesList st = Some bs
       /\ customElementColors st !! lit "SLIME" = Some c
       /\ bs !! lit "SLIME" = Some (b, c)
       /\ Menu.textContent b = lit "SLIME"
       /\ Menu.id b = toString c
       /\ Menu.clickMenuButton b = Some c
       /\ forall n2 b2 c2, bs !! n2 = Some (b2, c2) ->
            (Menu.id b2 = Menu.id b <-> c2 = c).
Proof.
  intros st. split; [vm_compute; reflexivity|].
  apply (drawn_button_selects_the_registered_color st (lit "SLIME") sampleDescription).
  - vm_compute. eauto.
  - vm_compute. reflexivity.
Defined.

(** [resubmitted_name_keeps_its_id] at a sample input. *)
Lemma resubmitted_name_keeps_its_id_witness :
  snd (handleParticleSubmission (lit " slime ") sampleReply emptyRegistry)
  = Registered 1000%Z
  /\ toUpperCase (trim (lit "SLIME")) = toUpperCase (trim (lit " slime "))
  /\ (let st1 := run [ClickTest]
                   (fst (handleParticleSubmission (lit " slime ") sampleReply
                           emptyRegistry)) in
      elements (fst (handleParticleSubmission (lit "SLIME") sampleReply st1))
      = elements st1
      /\ nextCustomElementIdx
           (fst (handleParticleSubmission (lit "SLIME") sampleReply st1))
         = nextCustomElementIdx st1
      /\ forall c2,
           snd (handleParticleSubmission (lit "SLIME") sampleReply st1)
           = Registered c2 ->
           c2 = 1000%Z).
Proof.
  split; [vm_compute; reflexivity|]. split; [vm_compute; reflexivity|].
  apply (resubmitted_name_keeps_its_id (lit " slime ") (lit "SLIME")
           sampleReply sampleReply [ClickTest] emptyRegistry 1000%Z);
    [vm_compute; reflexivity | lia | vm_compute; reflexivity].
Defined.

(** [failed_name_never_reaches_the_engine] at a sample input. *)
Lemma failed_name_never_reaches_the_engine_witness :
  let d := particle "ROCK" (10, 20, 30)%Z "@" in
  let d2 := particle "ROCK" (10, 20, 30)%Z "doGravity(x, y, i, true, 0.5);" in
  let st1 := fst (registerCustomParticle d emptyRegistry) in
  let st2 := fst (registerCustomParticle d2 st1) in
  (getElementColorFromName emptyRegistry (name d) = None
   /\ snd (registerCustomParticle d emptyRegistry) = inl FailedToCreateAction
   /\ FailedToCreateAction <> ListNotDrawn
   /\ newElementColor d emptyRegistry <> 0%Z
   /\ name d2 = name d)
  /\ getElementColorFromName st1 (name d) = Some (newElementColor d emptyRegistry)
  /\ elements st2 = elements emptyRegistry
  /\ elementActions st2 = elementActions emptyRegistry
  /\ nextCustomElementIdx st2 = nextCustomElementIdx emptyRegistry
  /\ forall c, snd (registerCustomParticle d2 st1) = inr c ->
       c = newElementColor d emptyRegistry
       /\ is_Some (customElementActions st2 !! c).
Proof.
  intros d d2 st1 st2.
  assert (H1 : getElementColorFromName emptyRegistry (name d) = None)
    by (vm_compute; reflexivity).
  assert (H2 : snd (registerCustomParticle d emptyRegistry) = inl FailedToCreateAction)
    by (vm_compute; reflexivity).
  assert (H3 : newElementColor d emptyRegistry <> 0%Z) by (vm_compute; discriminate).
  assert (H4 : name d2 = name d) by reflexivity.
  assert (H5 : FailedToCreateAction <> ListNotDrawn) by discriminate.
  split; [auto|].
  exact (failed_name_never_reaches_the_engine d d2 emptyRegistry
           FailedToCreateAction H1 H2 H5 H3 H4).
Defined.

(** [rewritten_has_no_bordering_call] at a sample input. *)
Lemma rewritten_has_no_bordering_call_witness :
  preprocessActionCode sampleFragment (lit "ant") 77 = Some sampleRewritten
  /\ occurs reBordering sampleRewritten = false
  /\ includes (lit "bordering(x, y, i, FIRE)") sampleRewritten = false.
Proof.
  split; [vm_compute; reflexivity|].
  apply (rewritten_has_no_bordering_call sampleFragment (lit "ant") 77).
  vm_compute. reflexivity.
Defined.

(** [rewritten_has_no_placeholder] at a sample input. *)
Lemma rewritten_has_no_placeholder_witness :
  preprocessActionCode sampleFragment (lit "ant") 77 = Some sampleRewritten
  /\ includes (lit "THIS_ELEMENT_COLOR") sampleRewritten = false.
Proof.
  split; [vm_compute; reflexivity|].
  apply (rewritten_has_no_placeholder sampleFragment (lit "ant") 77).
  vm_compute. reflexivity.
Defined.

(** [explosive_fragment_mentions_fire] at a sample input. *)
Lemma explosive_fragment_mentions_fire_witness :
  (isExplosiveName (lit "tnt") = true
   /\ preprocessActionCode (lit "doGravity(x, y, i, true, 0.9);") (lit "tnt") 77
      = Some (explosionTemplate (lit "doGravity(x, y, i, true, 0.9);")))
  /\ (includes (lit "FIRE")
         (explosionTemplate (lit "doGravity(x, y, i, true, 0.9);")) = true
      \/ includes (lit "fire")
           (explosionTemplate (lit "doGravity(x, y, i, true, 0.9);")) = true).
Proof.
  split; [split; vm_compute; reflexivity|].
  apply (explosive_fragment_mentions_fire (lit "doGravity(x, y, i, true, 0.9);")
           (lit "tnt") 77); vm_compute; reflexivity.
Defined.

(** [menu_button_is_appended] at a sample input. *)
Lemma menu_button_is_appended_witness :
  let rows := [[menuButton (lit "WALL") 4286348413; menuButton (lit "SAND") 4284530910]] in
  ((0 < 2)%nat /\ Forall (fun row => (length row <= 2)%nat) rows)
  /\ exists rows',
       Menu.addCustomElementToMenu 2 (lit "SLIME") 4284153640 (Some rows)
       = Some rows'
       /\ concat rows' = concat rows ++ [menuButton (lit "SLIME") 4284153640]
       /\ Forall (fun row => (length row <= 2)%nat) rows'
       /\ (length rows <= length rows' <= length rows + 1)%nat
       /\ (forall rows0 lastRow,
             rows = rows0 ++ [lastRow] -> (length lastRow < 2)%nat ->
             rows' = rows0 ++ [lastRow ++ [menuButton (lit "SLIME") 4284153640]])
       /\ (forall rows0 lastRow,
             rows = rows0 ++ [lastRow] -> (2 <= length lastRow)%nat ->
             rows' = rows ++ [[menuButton (lit "SLIME") 4284153640]])
       /\ (rows = [] -> rows' = [[menuButton (lit "SLIME") 4284153640]])
       /\ Menu.clickMenuButton (menuButton (lit "SLIME") 4284153640)
          = Some 4284153640%Z
       /\ Menu.addCustomElementToMenu 2 (lit "SLIME") 4284153640 None = None.
Proof.
  intros rows.
  assert (H1 : (0 < 2)%nat) by lia.
  assert (H2 : Forall (fun row => (length row <= 2)%nat) rows)
    by (repeat constructor).
  split; [auto|].
  exact (menu_button_is_appended 2 (lit "SLIME") 4284153640 rows H1 H2).
Defined.

(** [explosive_fallback_writes_one_cell] at a sample input. *)
Lemma explosive_fallback_writes_one_cell_witness :
  let actionFn : Action := fun _ _ _ w => (w, Throw (lit "boom")) in
  let w : World := ([1; 2; 3]%Z, tt) in
  let out := fst (createSafeParticleAction actionFn (lit "TNT") 0%Z 0%Z 1%Z w) in
  (isExplosiveName (lit "TNT") = true
   /\ actionFn 0%Z 0%Z 1%Z w = (w, Throw (lit "boom")))
  /\ snd out = snd w
  /\ length (fst out) = length (fst w)
  /\ (forall k : nat, Z.of_nat k <> 1%Z -> fst out !! k = fst w !! k)
  /\ ((0 <= 1 < Z.of_nat (length (fst w)))%Z ->
        fst out !! Z.to_nat 1 = Some (FIRE mod 2 ^ 32)%Z)
  /\ ((1 < 0 \/ Z.of_nat (length (fst w)) <= 1)%Z -> out = w).
Proof.
  intros actionFn w out.
  split; [split; reflexivity|].
  exact (explosive_fallback_writes_one_cell actionFn (lit "TNT") 0%Z 0%Z 1%Z w w
           (lit "boom") eq_refl eq_refl).
Defined.

Lemma plain_fragment_is_kept_witness :
  ((50 <= length (trim plainFragment))%nat
   /\ literalName (toUpperCase (lit "mud")) = true
   /\ isExplosiveName (lit "mud") = false
   /\ includes (toUpperCase (lit "mud")) plainFragment = false
   /\ includes (lit "bordering") plainFragment = false
   /\ includes (lit "gameImagedata32[i") plainFragment = false
   /\ includes (lit "THIS_ELEMENT_COLOR") plainFragment = false)
  /\ preprocessActionCode plainFragment (lit "mud") 4278190081 = Some plainFragment.
Proof.
  split; [repeat split; try reflexivity; vm_compute; lia|].
  apply (plain_fragment_is_kept plainFragment (lit "mud") 4278190081);
    try reflexivity.
  vm_compute. lia.
Defined.
